(** * Russian-Law-MCP: the ingestion pipeline

    A shallow embedding of the three components of the ingestion pipeline:
    - [Parser]: [parseRussianText] of [scripts/lib/parser.ts];
    - [Fetcher]: [rateLimit] and [fetchWithRateLimit] of
      [scripts/lib/fetcher.ts];
    - [Ingest]: [runCensus], [ingestLaw], [runIngestion],
      [writeEuReferences] and [main] of the census and ingestion script in
      [scripts/], with [getCensusStats] of [scripts/lib/census-data.ts];

    and of the functions around them:
    - [Endpoints]: [fetchPravoLaw], [fetchPravoLawFull] and [fetchJson];
    - [Normalize]: [normalizeRussianText];
    - [Html]: [parsePravoHtml] and [extractMetadata] on a loaded page.

    The definitions of the components come first, then the notions and
    sample inputs the statements use, then the lemmas and theorems.

    JavaScript strings are sequences of UTF-16 code units; [length] counts
    code units, and the regular expressions of the parser (none of which
    carries the [u] flag) work on code units too.  A string is therefore a
    [list N]. *)

From Stdlib Require Import ZArith NArith List Bool Ascii String Lia.
From stdpp Require Import base option list gmap.
Import ListNotations.

Local Open Scope N_scope.

Abbreviation jsstring := (list N) (only parsing).

(** ** String literals

    Literals are written as Rocq strings (UTF-8 bytes) and decoded to
    UTF-16 code units.  Every literal of this development lies in the Basic
    Multilingual Plane, so one- to three-byte sequences suffice. *)

Module Lit.

Definition bytes (s : string) : list N :=
  map N_of_ascii (list_ascii_of_string s).

Fixpoint decode (bs : list N) : list N :=
  match bs with
  | [] => []
  | b0 :: r0 =>
      if b0 <? 0x80 then b0 :: decode r0
      else if b0 <? 0xE0 then
        match r0 with
        | b1 :: r1 => ((b0 mod 32) * 64 + b1 mod 64) :: decode r1
        | [] => []
        end
      else
        match r0 with
        | b1 :: b2 :: r2 =>
            ((b0 mod 16) * 4096 + (b1 mod 64) * 64 + b2 mod 64) :: decode r2
        | _ => []
        end
  end.

Definition js (s : string) : jsstring := decode (bytes s).

End Lit.

Abbreviation js := Lit.js.

(** ** Character classes and string primitives of ECMAScript *)

Module Js.

Definition LF : N := 10.
Definition CR : N := 13.
Definition DOT : N := 46.

(** [\s] of a regular expression, and the characters [String.prototype.trim]
    strips: WhiteSpace and LineTerminator. *)
Definition isWhiteSpace (c : N) : bool :=
  ((9 <=? c) && (c <=? 13)) || (c =? 32) || (c =? 0xA0) || (c =? 0x1680)
  || ((0x2000 <=? c) && (c <=? 0x200A)) || (c =? 0x2028) || (c =? 0x2029)
  || (c =? 0x202F) || (c =? 0x205F) || (c =? 0x3000) || (c =? 0xFEFF).

(** The characters [.] does not match. *)
Definition isLineTerminator (c : N) : bool :=
  (c =? 10) || (c =? 13) || (c =? 0x2028) || (c =? 0x2029).

(** [\d] *)
Definition isDigit (c : N) : bool := (48 <=? c) && (c <=? 57).

(** [\w], which decides [\b] *)
Definition isWordChar (c : N) : bool :=
  isDigit c || ((65 <=? c) && (c <=? 90)) || ((97 <=? c) && (c <=? 122))
  || (c =? 95).

(** Longest prefix satisfying [p], and what follows it: a greedy [x*]. *)
Fixpoint span (p : N -> bool) (s : jsstring) : jsstring * jsstring :=
  match s with
  | [] => ([], [])
  | c :: s' =>
      if p c then let '(a, b) := span p s' in (c :: a, b) else ([], s)
  end.

Definition skip (p : N -> bool) (s : jsstring) : jsstring := snd (span p s).

Definition trimStart (s : jsstring) : jsstring := skip isWhiteSpace s.
Definition trimEnd (s : jsstring) : jsstring := rev (skip isWhiteSpace (rev s)).
Definition trim (s : jsstring) : jsstring := trimEnd (trimStart s).

(** [s.startsWith(p)], returning the remainder. *)
Fixpoint expect (p s : jsstring) : option jsstring :=
  match p, s with
  | [], _ => Some s
  | a :: p', b :: s' => if a =? b then expect p' s' else None
  | _ :: _, [] => None
  end.

Definition startsWith (s p : jsstring) : bool := bool_decide (is_Some (expect p s)).
Definition endsWith (s p : jsstring) : bool := startsWith (rev s) (rev p).

(** [s.includes(p)] *)
Fixpoint includes (s p : jsstring) : bool :=
  startsWith s p
  || match s with
     | [] => false
     | _ :: s' => includes s' p
     end.

(** [parts.join(sep)] *)
Fixpoint join (sep : jsstring) (parts : list jsstring) : jsstring :=
  match parts with
  | [] => []
  | [x] => x
  | x :: rest => x ++ sep ++ join sep rest
  end.

(** [text.split(/\r?\n/)]: a piece ends at every line feed; one carriage
    return directly before it belongs to the separator.  [cur] holds the
    current piece, reversed. *)
Fixpoint splitLines (cur : jsstring) (s : jsstring) : list jsstring :=
  match s with
  | [] => [rev cur]
  | c :: s' =>
      if c =? LF then
        rev (match cur with d :: cur' => if d =? CR then cur' else cur | [] => [] end)
          :: splitLines [] s'
      else splitLines (c :: cur) s'
  end.

(** [s.replace(/\n{3,}/g, '\n\n')]: [run] counts the line feeds just read. *)
Definition emitRun (run : nat) : jsstring :=
  if (run <? 3)%nat then repeat LF run else [LF; LF].

Fixpoint collapseNewlines (run : nat) (s : jsstring) : jsstring :=
  match s with
  | [] => emitRun run
  | c :: s' =>
      if c =? LF then collapseNewlines (S run) s'
      else emitRun run ++ c :: collapseNewlines 0 s'
  end.

(** Canonicalize of a pattern with the [i] flag and without [u]: the
    upper-case form when it is one code unit, and never from outside ASCII
    into ASCII.  Given for the code units whose upper-case form is a Basic
    Latin or basic Cyrillic capital, which are the only ones that can equal
    a canonicalized character of the patterns below. *)
Definition canonicalize (c : N) : N :=
  if (97 <=? c) && (c <=? 122) then c - 32
  else if (0x430 <=? c) && (c <=? 0x44F) then c - 0x20
  else if (c =? 0x1C80) then 0x412
  else if (c =? 0x1C81) then 0x414
  else if (c =? 0x1C82) then 0x41E
  else if (c =? 0x1C83) then 0x421
  else if (c =? 0x1C84) || (c =? 0x1C85) then 0x422
  else if (c =? 0x1C86) then 0x42A
  else c.

(** A literal under the [i] flag; returns what was consumed and the rest. *)
Fixpoint expectCI (p s : jsstring) : option (jsstring * jsstring) :=
  match p, s with
  | [], _ => Some ([], s)
  | a :: p', b :: s' =>
      if canonicalize a =? canonicalize b then
        match expectCI p' s' with
        | Some (u, r) => Some (b :: u, r)
        | None => None
        end
      else None
  | _ :: _, [] => None
  end.

(** [\b] between a preceding and a following character (either may be the
    edge of the input). *)
Definition wordBoundary (prev next : option N) : bool :=
  xorb (from_option isWordChar false prev) (from_option isWordChar false next).

End Js.

(** ** The structural parser ([scripts/lib/parser.ts]) *)

Module Parser.
Import Js.

Record ParsedProvision := {
  article : jsstring;
  title : jsstring;
  content : jsstring;
  provision_ref : jsstring;
  order_index : nat
}.

(** *** The patterns

    In the comments below the last group of a pattern, a parenthesised
    dot-star, is written [(.* )] with a space before its closing
    parenthesis. *)

(** The common head of both article patterns, [^\s*Статья\s+(\d+]: the
    digits read and what follows them.  Each quantifier is greedy and none
    can give a character back to its successor, so there is one way to
    match. *)
Definition articleHead (line : jsstring) : option (jsstring * jsstring) :=
  match expect (js "Статья") (skip isWhiteSpace line) with
  | None => None
  | Some s2 =>
      let '(ws, s3) := span isWhiteSpace s2 in
      let '(d1, s4) := span isDigit s3 in
      if bool_decide (ws = []) || bool_decide (d1 = []) then None
      else Some (d1, s4)
  end.

(** The optional group [(?:\.\d+)?] tried at [s]: the digits and the rest. *)
Definition subNumber (s : jsstring) : option (jsstring * jsstring) :=
  match s with
  | c :: t =>
      if c =? DOT then
        let '(d2, s5) := span isDigit t in
        if bool_decide (d2 = []) then None else Some (d2, s5)
      else None
  | [] => None
  end.

(** [(.* )] *)
Definition restOfMatch (s : jsstring) : jsstring :=
  fst (span (fun c => negb (isLineTerminator c)) s).

(** [line.match(ARTICLE_PATTERN)] with
    [ARTICLE_PATTERN = /^\s*Статья\s+(\d+(?:\.\d+)?)\.\s*(.* )/]: groups 1
    and 2.  When the optional group matches but no period follows it, the
    matcher backtracks, leaves the group out and takes the group's period as
    the closing one. *)
Definition matchArticle (line : jsstring) : option (jsstring * jsstring) :=
  match articleHead line with
  | None => None
  | Some (d1, s4) =>
      let plain :=
        match s4 with
        | c :: s5 =>
            if c =? DOT then Some (d1, restOfMatch (skip isWhiteSpace s5))
            else None
        | [] => None
        end in
      match subNumber s4 with
      | Some (d2, c :: s6) =>
          if c =? DOT then
            Some (d1 ++ DOT :: d2, restOfMatch (skip isWhiteSpace s6))
          else plain
      | _ => plain
      end
  end.

(** [line.match(ARTICLE_PATTERN_ALT)] with
    [ARTICLE_PATTERN_ALT = /^\s*Статья\s+(\d+(?:\.\d+)?)\b[\.\s]*(.* )/].
    The number ends in a digit, so [\b] asks for a following character that
    is no word character (or the end of the input); after backtracking out
    of the optional group the next character is its period and [\b]
    holds. *)
Definition matchArticleAlt (line : jsstring) : option (jsstring * jsstring) :=
  let boundary (d s : jsstring) := wordBoundary (last d) (head s) in
  let tail (s : jsstring) :=
    restOfMatch (skip (fun c => (c =? DOT) || isWhiteSpace c) s) in
  match articleHead line with
  | None => None
  | Some (d1, s4) =>
      match subNumber s4 with
      | Some (d2, s5) =>
          if boundary d2 s5 then Some (d1 ++ DOT :: d2, tail s5)
          else if boundary d1 s4 then Some (d1, tail s4) else None
      | None => if boundary d1 s4 then Some (d1, tail s4) else None
      end
  end.

(** [line.match(ARTICLE_PATTERN) || line.match(ARTICLE_PATTERN_ALT)] *)
Definition articleMatch (line : jsstring) : option (jsstring * jsstring) :=
  match matchArticle line with
  | Some m => Some m
  | None => matchArticleAlt line
  end.

(** [CHAPTER_PATTERN.test(line)] with
    [CHAPTER_PATTERN = /^\s*(Глава|Раздел|Часть|Подраздел)\s+[\dIVXLCDM]+/i] *)
Definition isChapterNumeral (c : N) : bool :=
  isDigit c || existsb (N.eqb (canonicalize c)) (js "IVXLCDM").

Definition testChapter (line : jsstring) : bool :=
  existsb
    (fun kw =>
       match expectCI kw (skip isWhiteSpace line) with
       | Some (_, s2) =>
           let '(ws, s3) := span isWhiteSpace s2 in
           negb (bool_decide (ws = []))
           && from_option isChapterNumeral false (head s3)
       | None => false
       end)
    [js "Глава"; js "Раздел"; js "Часть"; js "Подраздел"].

(** [APPENDIX_PATTERN.test(line)] with
    [APPENDIX_PATTERN = /^\s*Приложение\b/i] *)
Definition testAppendix (line : jsstring) : bool :=
  match expectCI (js "Приложение") (skip isWhiteSpace line) with
  | Some (u, s2) => wordBoundary (last u) (head s2)
  | None => false
  end.

(** [/^\d+\.\s/], the enumerated sub-item test of the article line *)
Definition looksEnumerated (s : jsstring) : bool :=
  let '(d, r) := span isDigit s in
  negb (bool_decide (d = []))
  && match r with
     | c :: w :: _ => (c =? DOT) && isWhiteSpace w
     | _ => false
     end.

(** [/^\d+[\.\)]/] *)
Definition startsNumbered (s : jsstring) : bool :=
  let '(d, r) := span isDigit s in
  negb (bool_decide (d = []))
  && match r with
     | c :: _ => (c =? DOT) || (c =? 41)
     | [] => false
     end.

(** *** The line classifier *)

Record PState := {
  provisions : list ParsedProvision;
  currentArticleNum : jsstring;
  currentArticleTitle : jsstring;
  currentContent : list jsstring;
  orderIndex : nat;
  inAppendix : bool
}.

Definition initial : PState :=
  {| provisions := []; currentArticleNum := []; currentArticleTitle := [];
     currentContent := []; orderIndex := 0; inAppendix := false |}.

(** A string used as a condition is true when it is not empty. *)
Definition truthy (s : jsstring) : bool := negb (bool_decide (s = [])).

Definition flushedContent (lines : list jsstring) : jsstring :=
  trim (collapseNewlines 0 (join [LF] lines)).

Definition flushArticle (st : PState) : PState :=
  let emitted :=
    if truthy (currentArticleNum st) && (0 <? length (currentContent st))%nat
    then
      let content := flushedContent (currentContent st) in
      if (0 <? length content)%nat then
        Some {| article := currentArticleNum st;
                title := currentArticleTitle st;
                content := content;
                provision_ref := currentArticleNum st;
                order_index := orderIndex st |}
      else None
    else None in
  {| provisions :=
       match emitted with
       | Some p => provisions st ++ [p]
       | None => provisions st
       end;
     currentArticleNum := [];
     currentArticleTitle := [];
     currentContent := [];
     orderIndex :=
       match emitted with
       | Some _ => S (orderIndex st)
       | None => orderIndex st
       end;
     inAppendix := inAppendix st |}.

Definition pushContent (st : PState) (line : jsstring) : PState :=
  {| provisions := provisions st;
     currentArticleNum := currentArticleNum st;
     currentArticleTitle := currentArticleTitle st;
     currentContent := currentContent st ++ [line];
     orderIndex := orderIndex st;
     inAppendix := inAppendix st |}.

Definition setAppendix (st : PState) (b : bool) : PState :=
  {| provisions := provisions st;
     currentArticleNum := currentArticleNum st;
     currentArticleTitle := currentArticleTitle st;
     currentContent := currentContent st;
     orderIndex := orderIndex st;
     inAppendix := b |}.

(** The article-start branch: flush, take the number, and classify the
    trimmed remainder of the line as the title or as the first body line. *)
Definition startArticle (st : PState) (num rest : jsstring) : PState :=
  let st1 := flushArticle st in
  let restOfLine := trim rest in
  let isTitle :=
    (length restOfLine <? 200)%nat && negb (looksEnumerated restOfLine) in
  {| provisions := provisions st1;
     currentArticleNum := num;
     currentArticleTitle :=
       if truthy restOfLine && isTitle then restOfLine
       else currentArticleTitle st1;
     currentContent :=
       if truthy restOfLine && negb isTitle then currentContent st1 ++ [restOfLine]
       else currentContent st1;
     orderIndex := orderIndex st1;
     inAppendix := inAppendix st1 |}.

(** The default branch.  Both arms of the title-continuation test push the
    line, as in the source. *)
Definition contentLine (st : PState) (line : jsstring) : PState :=
  if truthy (currentArticleNum st) then
    if truthy (currentArticleTitle st)
       && (length (currentContent st) =? 0)%nat
       && (length line <? 200)%nat
    then
      let looksLikeBody :=
        startsNumbered line || startsWith line (js "(")
        || (150 <? length line)%nat in
      if negb looksLikeBody
         && negb (endsWith (currentArticleTitle st) (js "."))
         && negb (endsWith (currentArticleTitle st) (js ":"))
      then pushContent st line
      else pushContent st line
    else pushContent st line
  else st.

(** One iteration of the loop over the lines. *)
Definition step (st : PState) (rawLine : jsstring) : PState :=
  let line := trim rawLine in
  if (length line =? 0)%nat then
    if truthy (currentArticleNum st) && (0 <? length (currentContent st))%nat
    then pushContent st []
    else st
  else if testAppendix line then flushArticle (setAppendix st true)
  else
    let m := articleMatch line in
    if inAppendix st && negb (bool_decide (is_Some m)) then st
    else
      let st' := if inAppendix st then setAppendix st false else st in
      match m with
      | Some (num, rest) => startArticle st' num rest
      | None => if testChapter line then st' else contentLine st' line
      end.

(** The provisions in emission order, before the deduplication pass. *)
Definition scan (text : jsstring) : list ParsedProvision :=
  provisions (flushArticle (fold_left step (splitLines [] text) initial)).

(** *** Deduplication and re-indexing

    [seen] maps an article number to the index of its first occurrence in
    [deduped].  Reading [deduped[existing]] outside the array gives
    [undefined], and appending to its [content] raises a TypeError: [None]. *)
Definition appendContent (extra : jsstring) (p : ParsedProvision) : ParsedProvision :=
  {| article := article p; title := title p;
     content := content p ++ [LF; LF] ++ extra;
     provision_ref := provision_ref p; order_index := order_index p |}.

Definition dedupStep (acc : gmap (list N) nat * list ParsedProvision)
    (prov : ParsedProvision) : option (gmap (list N) nat * list ParsedProvision) :=
  let '(seen, deduped) := acc in
  match seen !! article prov with
  | Some existing =>
      match deduped !! existing with
      | Some existingProv =>
          Some (seen, <[existing := appendContent (content prov) existingProv]> deduped)
      | None => None
      end
  | None => Some (<[article prov := length deduped]> seen, deduped ++ [prov])
  end.

Fixpoint dedupLoop (acc : gmap (list N) nat * list ParsedProvision)
    (provs : list ParsedProvision) : option (gmap (list N) nat * list ParsedProvision) :=
  match provs with
  | [] => Some acc
  | prov :: rest =>
      match dedupStep acc prov with
      | Some acc' => dedupLoop acc' rest
      | None => None
      end
  end.

Definition setIndex (i : nat) (p : ParsedProvision) : ParsedProvision :=
  {| article := article p; title := title p; content := content p;
     provision_ref := provision_ref p; order_index := i |}.

Definition reindex (l : list ParsedProvision) : list ParsedProvision :=
  imap setIndex l.

(** [parseRussianText(text)]; [None] stands for a raised exception. *)
Definition parseRussianText (text : jsstring) : option (list ParsedProvision) :=
  match dedupLoop (∅, []) (scan text) with
  | Some (_, deduped) => Some (reindex deduped)
  | None => None
  end.

End Parser.

(** ** The rate-limited client ([scripts/lib/fetcher.ts])

    Time is the value of [Date.now()], in milliseconds.  It advances only
    where the code awaits: a [setTimeout] advances it by the delay of the
    timer, and a request advances it by the time the remote side takes.  The remote
    side is a function from the number of requests sent so far, and the
    address, to what happens to that request. *)

Module Fetcher.
Import Js.
Local Open Scope Z_scope.

Definition MIN_DELAY_MS : Z := 1000.
Definition REQUEST_TIMEOUT_MS : Z := 60000.

(** Reading the body after the headers arrived. *)
Inductive BodyRead :=
| BodyFails (after : N) (msg : jsstring)
| BodyBytes (after : N) (bytes : list N).

(** What the remote side does with one request: [fetch] rejects after some
    time, or it resolves with a status line and headers. *)
Inductive Reply :=
| Fails (after : N) (msg : jsstring)
| Answers (after : N) (status : Z) (contentType : option jsstring) (body : BodyRead).

Record Remote := {
  reply : nat → jsstring → Reply;
  decodeWindows1251 : list N → jsstring;
  decodeText : list N → jsstring
}.

Record FetchResult := {
  status : Z;
  body : jsstring;
  contentType : jsstring
}.

Inductive FetchError :=
| Thrown (msg : jsstring)
| RetriesExhausted (url : jsstring) (maxRetries : Z).

(** The module state [lastRequestTime], the clock, and the log of the
    requests sent, each with its send time, oldest first. *)
Record Net := {
  clock : Z;
  lastRequestTime : Z;
  sent : list (Z * jsstring)
}.

Definition start : Net := {| clock := 0; lastRequestTime := 0; sent := [] |}.

Definition advance (d : Z) (n : Net) : Net :=
  {| clock := clock n + d; lastRequestTime := lastRequestTime n; sent := sent n |}.

(** The largest delay of a timer of Node, in ms. *)
Definition TIMEOUT_MAX : Z := 2147483647.

(** The delay that [setTimeout(_, d)] waits for: [d] ms, and 1 ms when [d]
    is above [TIMEOUT_MAX] or below 1, as Node sets such a delay to 1. *)
Definition timeout (d : Z) : Z :=
  if (TIMEOUT_MAX <? d) || (d <? 1) then 1 else d.

(** [await new Promise(resolve => setTimeout(resolve, d))] *)
Definition sleep (d : Z) (n : Net) : Net := advance (timeout d) n.

Definition rateLimit (n : Net) : Net :=
  let now := clock n in
  let elapsed := now - lastRequestTime n in
  let n1 := if elapsed <? MIN_DELAY_MS then sleep (MIN_DELAY_MS - elapsed) n else n in
  {| clock := clock n1; lastRequestTime := clock n1; sent := sent n1 |}.

Definition send (url : jsstring) (n : Net) : Net :=
  {| clock := clock n; lastRequestTime := lastRequestTime n;
     sent := sent n ++ [(clock n, url)] |}.

(** The abort of [controller] when the timer of [REQUEST_TIMEOUT_MS] fires
    before [fetch] settles; the timer is cleared once it has settled. *)
Definition abortMessage : jsstring := js "This operation was aborted".

Definition settle (r : Reply) : Reply :=
  match r with
  | Fails after msg =>
      if REQUEST_TIMEOUT_MS <=? Z.of_N after
      then Fails (Z.to_N REQUEST_TIMEOUT_MS) abortMessage else r
  | Answers after _ _ _ =>
      if REQUEST_TIMEOUT_MS <=? Z.of_N after
      then Fails (Z.to_N REQUEST_TIMEOUT_MS) abortMessage else r
  end.

Definition isRetryStatus (s : Z) : bool := (s =? 429) || (500 <=? s).

Definition needsWin1251 (url contentType : jsstring) : bool :=
  includes url (js "pravo.gov.ru")
  || includes contentType (js "windows-1251")
  || includes contentType (js "cp1251").

(** The loop [for (attempt = 0; attempt <= maxRetries; attempt++)]; [left]
    counts the iterations that remain, [maxRetries + 1 - attempt].  Leaving
    the loop reaches the final [throw]. *)
Fixpoint attempts (R : Remote) (url : jsstring) (maxRetries : Z)
    (left : nat) (attempt : Z) (n : Net) : (FetchError + FetchResult) * Net :=
  match left with
  | O => (inl (RetriesExhausted url maxRetries), n)
  | S left' =>
      let caught (msg : jsstring) (n' : Net) :=
        if attempt <? maxRetries
        then attempts R url maxRetries left' (attempt + 1)
               (sleep (2 ^ (attempt + 1) * 2000) n')
        else (inl (Thrown msg), n') in
      let n1 := send url n in
      match settle (reply R (length (sent n)) url) with
      | Fails after msg => caught msg (advance (Z.of_N after) n1)
      | Answers after st ct rd =>
          let n2 := advance (Z.of_N after) n1 in
          if isRetryStatus st && (attempt <? maxRetries) then
            attempts R url maxRetries left' (attempt + 1)
              (sleep (2 ^ (attempt + 1) * 1000) n2)
          else
            let contentType := default [] ct in
            match rd with
            | BodyFails after' msg => caught msg (advance (Z.of_N after') n2)
            | BodyBytes after' bytes =>
                (inr {| status := st;
                        body := if needsWin1251 url contentType
                                then decodeWindows1251 R bytes
                                else decodeText R bytes;
                        contentType := contentType |},
                 advance (Z.of_N after') n2)
            end
      end
  end.

Definition fetchWithRateLimit (R : Remote) (url : jsstring) (maxRetries : Z)
    (n : Net) : (FetchError + FetchResult) * Net :=
  attempts R url maxRetries (Z.to_nat (maxRetries + 1)) 0 (rateLimit n).

Definition pravoTextUrl (nd : jsstring) : jsstring :=
  js "http://pravo.gov.ru/proxy/ips/?savetext=&nd=" ++ nd ++ js "&page=all".

(** [fetchPravoLawText(nd)]; [maxRetries] takes its default, 3. *)
Definition fetchPravoLawText (R : Remote) (nd : jsstring) (n : Net)
    : (FetchError + FetchResult) * Net :=
  fetchWithRateLimit R (pravoTextUrl nd) 3 n.

End Fetcher.

(** ** The other entry points of the client ([scripts/lib/fetcher.ts]) *)

Module Endpoints.
Import Js Fetcher.
Local Open Scope Z_scope.

Definition pravoLawUrl (nd : jsstring) : jsstring :=
  js "http://pravo.gov.ru/proxy/ips/?docbody=&nd=" ++ nd
  ++ js "&rdk=0&intelsearch=&firstDoc=1&lastDoc=1".

(** [fetchPravoLaw(nd)] *)
Definition fetchPravoLaw (R : Remote) (nd : jsstring) (n : Net)
    : (FetchError + FetchResult) * Net :=
  fetchWithRateLimit R (pravoLawUrl nd) 3 n.

Definition pravoLawFullUrl (nd : jsstring) : jsstring :=
  js "http://pravo.gov.ru/proxy/ips/?docbody=&nd=" ++ nd ++ js "&rdk=0&page=all".

(** [fetchPravoLawFull(nd)] *)
Definition fetchPravoLawFull (R : Remote) (nd : jsstring) (n : Net)
    : (FetchError + FetchResult) * Net :=
  fetchWithRateLimit R (pravoLawFullUrl nd) 3 n.

(** How [fetchJson] fails: with what an attempt raised, or with the error
    after its loop. *)
Inductive JsonError :=
| JsonThrown (msg : jsstring)
| JsonRetriesExhausted (url : jsstring) (maxRetries : Z).

Section Json.

(** The values of JSON and [response.json()] on the bytes of a body: the
    value, or the message of the exception. *)
Variable Value : Type.
Variable parseJson : list N → jsstring + Value.

(** The loop of [fetchJson], with [left] as in [attempts]. *)
Fixpoint jsonAttempts (R : Remote) (url : jsstring) (maxRetries : Z)
    (left : nat) (attempt : Z) (n : Net) : (JsonError + Value) * Net :=
  match left with
  | O => (inl (JsonRetriesExhausted url maxRetries), n)
  | S left' =>
      let caught (msg : jsstring) (n' : Net) :=
        if attempt <? maxRetries
        then jsonAttempts R url maxRetries left' (attempt + 1)
               (sleep (2 ^ (attempt + 1) * 2000) n')
        else (inl (JsonThrown msg), n') in
      let n1 := send url n in
      match settle (reply R (length (sent n)) url) with
      | Fails after msg => caught msg (advance (Z.of_N after) n1)
      | Answers after st ct rd =>
          let n2 := advance (Z.of_N after) n1 in
          if isRetryStatus st && (attempt <? maxRetries) then
            jsonAttempts R url maxRetries left' (attempt + 1)
              (sleep (2 ^ (attempt + 1) * 1000) n2)
          else
            match rd with
            | BodyFails after' msg => caught msg (advance (Z.of_N after') n2)
            | BodyBytes after' bytes =>
                match parseJson bytes with
                | inl msg => caught msg (advance (Z.of_N after') n2)
                | inr v => (inr v, advance (Z.of_N after') n2)
                end
            end
      end
  end.

Definition fetchJson (R : Remote) (url : jsstring) (maxRetries : Z) (n : Net)
    : (JsonError + Value) * Net :=
  jsonAttempts R url maxRetries (Z.to_nat (maxRetries + 1)) 0 (rateLimit n).

End Json.

End Endpoints.
(** ** The orchestrator (the census and ingestion script of [scripts/])

    The state is the network state of the client and the files under the
    data directory: the seed files, the file of EU references and the
    census snapshot.  Every [fs.mkdirSync] and [fs.writeFileSync] may raise,
    and so may the reading back of the census snapshot; the console is left
    out. *)

Module Ingest.
Import Js Parser Fetcher.

Inductive LawType := constitution | code | federal_constitutional_law | federal_law.
Inductive LawStatus := in_force | amended | repealed.
Inductive CensusClassification := ingestable | ocr_needed | inaccessible | excluded.

#[global] Instance CensusClassification_eq_dec : EqDecision CensusClassification.
Proof. solve_decision. Defined.

Definition classificationName (c : CensusClassification) : jsstring :=
  match c with
  | ingestable => js "ingestable"
  | ocr_needed => js "ocr_needed"
  | inaccessible => js "inaccessible"
  | excluded => js "excluded"
  end.

Inductive EuType := directive | regulation.

Record EuReference := {
  eu_document_id : jsstring;
  eu_type : EuType;
  eu_year : Z;
  eu_number : Z;
  eu_title : jsstring;
  eu_short_name : jsstring;
  reference_type : jsstring;
  is_primary : bool;
  eu_description : jsstring
}.

Record CensusEntry := {
  id : jsstring;
  nd : jsstring;
  title : jsstring;
  title_en : jsstring;
  identifier : jsstring;
  law_type : LawType;
  status : LawStatus;
  effective_date : jsstring;
  publication_date : option jsstring;
  last_amended : option jsstring;
  classification : CensusClassification;
  description : option jsstring;
  source_url : jsstring;
  eu_references : option (list EuReference)
}.

(** *** Census statistics ([scripts/lib/census-data.ts]) and EU reference seeds *)

#[global] Instance LawType_eq_dec : EqDecision LawType.
Proof. solve_decision. Defined.

#[global] Instance LawStatus_eq_dec : EqDecision LawStatus.
Proof. solve_decision. Defined.

Definition lawTypeName (t : LawType) : jsstring :=
  match t with
  | constitution => js "constitution"
  | code => js "code"
  | federal_constitutional_law => js "federal_constitutional_law"
  | federal_law => js "federal_law"
  end.

Definition statusName (s : LawStatus) : jsstring :=
  match s with
  | in_force => js "in_force"
  | amended => js "amended"
  | repealed => js "repealed"
  end.

(** [entry.eu_references && entry.eu_references.length > 0] *)
Definition withReferences (e : CensusEntry) : bool :=
  match eu_references e with
  | Some (_ :: _) => true
  | _ => false
  end.

(** [stats[key]++]; the keys that the types of the fields allow are all
    present from the start. *)
Definition bump (key : jsstring) (stats : gmap (list N) nat) : gmap (list N) nat :=
  alter S key stats.

Definition initialStats (census : list CensusEntry) : gmap (list N) nat :=
  list_to_map
    [ (js "total", length census);
      (js "ingestable", 0%nat);
      (js "ocr_needed", 0%nat);
      (js "inaccessible", 0%nat);
      (js "excluded", 0%nat);
      (js "constitution", 0%nat);
      (js "code", 0%nat);
      (js "federal_constitutional_law", 0%nat);
      (js "federal_law", 0%nat);
      (js "in_force", 0%nat);
      (js "amended", 0%nat);
      (js "repealed", 0%nat);
      (js "with_eu_references", 0%nat) ].

Definition countEntry (stats : gmap (list N) nat) (e : CensusEntry)
    : gmap (list N) nat :=
  let s1 := bump (classificationName (classification e)) stats in
  let s2 := bump (lawTypeName (law_type e)) s1 in
  let s3 := bump (statusName (status e)) s2 in
  if withReferences e then bump (js "with_eu_references") s3 else s3.

(** [getCensusStats(census)] *)
Definition getCensusStats (census : list CensusEntry) : gmap (list N) nat :=
  fold_left countEntry census (initialStats census).

Record EuReferenceSeed := {
  law_id : jsstring;
  eu_directive : option jsstring;
  eu_regulation : option jsstring;
  seed_reference_type : jsstring
}.

Definition isDirective (t : EuType) : bool :=
  match t with
  | directive => true
  | regulation => false
  end.

Definition isRegulation (t : EuType) : bool :=
  match t with
  | directive => false
  | regulation => true
  end.

(** The list [refs] that [writeEuReferences] builds. *)
Definition euReferenceSeeds (census : list CensusEntry) : list EuReferenceSeed :=
  flat_map
    (λ e,
       match eu_references e with
       | None => []
       | Some refs =>
           map (λ r,
                  {| law_id := id e;
                     eu_directive :=
                       if isDirective (eu_type r) then Some (eu_document_id r) else None;
                     eu_regulation :=
                       if isRegulation (eu_type r) then Some (eu_document_id r) else None;
                     seed_reference_type := reference_type r |})
               refs
       end)
    census.

Record SeedLaw := {
  seed_id : jsstring;
  seed_title : jsstring;
  seed_title_en : jsstring;
  seed_identifier : jsstring;
  seed_law_type : LawType;
  seed_status : LawStatus;
  seed_effective_date : jsstring;
  seed_source_url : jsstring;
  seed_last_amended : option jsstring;
  seed_last_updated : jsstring;
  seed_description : option jsstring
}.

(** The [ingestion] record that the run adds to the census snapshot;
    [coverage_pct] is the rendering of [success_count / total_processed],
    which are both kept.  The time is the instant whose ISO string is
    written. *)
Record IngestionRecord := {
  completed_at : Z;
  ingestion_total_processed : nat;
  ingestion_success_count : nat;
  ingestion_fail_count : nat;
  ingestion_total_provisions : nat
}.

(** A seed file.  [ingestLaw] writes the law and the provisions; a file
    read back may carry an [ingestion] key as well, which the update of the
    census snapshot adds to what it finds. *)
Record SeedFile := {
  law : SeedLaw;
  provisions : list ParsedProvision;
  seed_ingestion : option IngestionRecord
}.

(** One law of the census snapshot. *)
Record CensusLaw := {
  snap_id : jsstring;
  snap_nd : jsstring;
  snap_title : jsstring;
  snap_title_en : jsstring;
  snap_identifier : jsstring;
  snap_law_type : LawType;
  snap_status : LawStatus;
  snap_effective_date : jsstring;
  snap_classification : CensusClassification;
  snap_source_url : jsstring
}.

(** The census snapshot: [censusOutput], then with the [ingestion] record.
    [source] and [description] are constants. *)
Record CensusSnapshot := {
  generated_at : Z;
  snapshot_stats : gmap (list N) nat;
  laws : list CensusLaw;
  ingestion : option IngestionRecord
}.

(** What a file holds: something that cannot be read or is no JSON, a seed
    file, the list of EU references, a census snapshot, or JSON of another
    shape, which has no provisions. *)
Inductive FileContent :=
| Unreadable
| SeedJson (seed : SeedFile)
| EuJson (refs : list EuReferenceSeed)
| CensusJson (snapshot : CensusSnapshot)
| OtherJson.

Record CensusResult := {
  entry : CensusEntry;
  ingested : bool;
  provision_count : nat;
  error : option jsstring
}.

Record World := {
  net : Net;
  files : gmap (list N) FileContent
}.

(** What the pipeline does not contain: the remote side, the text that
    cheerio selects from a page (or its failure), the calendar date of a
    clock value, and the file system below [files]:
    - [dirError]: making sure that a directory exists ([fs.existsSync],
      then [fs.mkdirSync]) raises, with this message;
    - [writeError]: [fs.writeFileSync] to the path raises, with this
      message;
    - [readError]: [fs.readFileSync] of the path raises though the file is
      there and holds JSON, with this message;
    - [readFailure]: the message raised for a file that is missing or does
      not hold JSON.

    [readError] is consulted where the source reads outside a [try], which
    is the reading back of the census snapshot.  The read of a seed file is
    inside a [try]: it fails as [files] says, on [Unreadable]. *)
Record Platform := {
  remote : Remote;
  htmlTitle : jsstring → jsstring;
  htmlText : jsstring → option jsstring;
  dirError : list N → option jsstring;
  writeError : list N → option jsstring;
  readError : list N → option jsstring;
  readFailure : list N → jsstring;
  isoDate : Z → jsstring
}.

(** The command line: [--census-only], [--skip-fetch], [--limit n] (0 when
    absent). *)
Record Options := {
  censusOnly : bool;
  skipFetch : bool;
  limit : Z
}.

Record ParsedLaw := {
  parsed_title : jsstring;
  parsed_provisions : list ParsedProvision
}.

(** [parsePravoHtml(html)]; [None] stands for a raised exception. *)
Definition parsePravoHtml (P : Platform) (html : jsstring) : option ParsedLaw :=
  match htmlText P html with
  | Some rawText =>
      match parseRussianText rawText with
      | Some ps => Some {| parsed_title := htmlTitle P html; parsed_provisions := ps |}
      | None => None
      end
  | None => None
  end.

(** [path.join(SEED_DIR, `${entry.id}.json`)], for an identifier that is a
    file name: the join then puts one separator between the two. *)
Definition seedPath (e : CensusEntry) : jsstring :=
  js "data/seed/" ++ id e ++ js ".json".

Definition DATA_DIR : jsstring := js "data".
Definition SEED_DIR : jsstring := js "data/seed".
Definition CENSUS_PATH : jsstring := js "data/census.json".
Definition euRefPath : jsstring := js "data/seed/_eu-references.json".

(** [fs.writeFileSync(path, JSON.stringify(content))] that does not raise *)
Definition writeFile (path : jsstring) (content : FileContent) (w : World) : World :=
  {| net := net w; files := <[path := content]> (files w) |}.

(** *** Required laws *)

Definition requiredLaws : list (jsstring * jsstring) :=
  [ (js "constitution-rf", js "Constitution");
    (js "uk-rf", js "Criminal Code");
    (js "gk-rf-1", js "Civil Code Part 1");
    (js "fz-152-2006", js "Personal Data Law (152-FZ)");
    (js "fz-149-2006", js "Information Law (149-FZ)");
    (js "fz-187-2017", js "Critical Infrastructure (187-FZ)") ].

(** The validation loop of [runCensus]. *)
Definition allPresent (census : list CensusEntry) : bool :=
  fold_left
    (λ present req,
       match find (λ e, bool_decide (id e = fst req)) census with
       | Some _ => present
       | None => false
       end)
    requiredLaws true.

Inductive CensusOutcome :=
| MissingLaws
| CensusRaised (msg : jsstring)
| CensusDone (census : list CensusEntry).

Definition censusLaw (e : CensusEntry) : CensusLaw :=
  {| snap_id := id e;
     snap_nd := nd e;
     snap_title := title e;
     snap_title_en := title_en e;
     snap_identifier := identifier e;
     snap_law_type := law_type e;
     snap_status := status e;
     snap_effective_date := effective_date e;
     snap_classification := classification e;
     snap_source_url := source_url e |}.

Definition censusOutput (census : list CensusEntry) (w : World) : CensusSnapshot :=
  {| generated_at := clock (net w);
     snapshot_stats := getCensusStats census;
     laws := censusLaw <$> census;
     ingestion := None |}.

(** [runCensus()] for the loaded catalog [census]: [process.exit(1)] when a
    required law is missing, else the data directory is made sure of and
    the census snapshot is written; either may raise. *)
Definition runCensus (P : Platform) (census : list CensusEntry) (w : World)
    : CensusOutcome * World :=
  if allPresent census then
    match dirError P DATA_DIR with
    | Some msg => (CensusRaised msg, w)
    | None =>
        match writeError P CENSUS_PATH with
        | Some msg => (CensusRaised msg, w)
        | None =>
            (CensusDone census,
             writeFile CENSUS_PATH (CensusJson (censusOutput census w)) w)
        end
    end
  else (MissingLaws, w).

(** *** One law *)

(** [existing.provisions] of what [JSON.parse] returned, where it is
    there. *)
Definition provisionsOf (c : FileContent) : option (list ParsedProvision) :=
  match c with
  | SeedJson existing => Some (provisions existing)
  | _ => None
  end.

(** The seed file on disk allows the entry to be skipped. *)
Definition existingCount (w : World) (e : CensusEntry) : option nat :=
  match files w !! seedPath e with
  | Some c =>
      match provisionsOf c with
      | Some ps => if (0 <? length ps)%nat then Some (length ps) else None
      | None => None
      end
  | None => None
  end.

Definition withNet (w : World) (n : Net) : World :=
  {| net := n; files := files w |}.

(** The fetch and parse of [ingestLaw]: the provisions extracted, none when
    the fetch is skipped or fails, the answer is not a 200 with more than
    100 code units, or the parse raises. *)
Definition fetchPhase (P : Platform) (o : Options) (e : CensusEntry) (w : World)
    : list ParsedProvision * World :=
  if skipFetch o then ([], w)
  else
    match fetchPravoLawText (remote P) (nd e) (net w) with
    | (inl _, n') => ([], withNet w n')
    | (inr result, n') =>
        let w' := withNet w n' in
        if (Fetcher.status result =? 200)%Z && (100 <? length (body result))%nat then
          if includes (body result) (js "<html") || includes (body result) (js "<HTML")
          then
            match parsePravoHtml P (body result) with
            | Some parsed => (parsed_provisions parsed, w')
            | None => ([], w')
            end
          else
            match parseRussianText (body result) with
            | Some ps => (ps, w')
            | None => ([], w')
            end
        else ([], w')
    end.

Definition placeholderText : jsstring :=
  [LF; LF] ++ js "Федеральное законодательство Российской Федерации."
  ++ [LF] ++ js "Источник: ".

(** [entry.description || entry.title] *)
Definition describe (e : CensusEntry) : jsstring :=
  match description e with
  | Some d => if truthy d then d else title e
  | None => title e
  end.

Definition placeholder (e : CensusEntry) : ParsedProvision :=
  {| article := js "0";
     Parser.title := title e;
     content := describe e ++ placeholderText ++ source_url e;
     provision_ref := js "0";
     order_index := 0 |}.

Definition seedLaw (P : Platform) (e : CensusEntry) (w : World) : SeedLaw :=
  {| seed_id := id e;
     seed_title := title e;
     seed_title_en := title_en e;
     seed_identifier := identifier e;
     seed_law_type := law_type e;
     seed_status := status e;
     seed_effective_date := effective_date e;
     seed_source_url := source_url e;
     seed_last_amended := last_amended e;
     seed_last_updated := isoDate P (clock (net w));
     seed_description := description e |}.

(** [ingestLaw(entry)]; the left result is the message of a raised
    exception. *)
Definition ingestLaw (P : Platform) (o : Options) (e : CensusEntry) (w : World)
    : (jsstring + CensusResult) * World :=
  match existingCount w e with
  | Some count =>
      (inr {| entry := e; ingested := true; provision_count := count;
              error := None |}, w)
  | None =>
      if bool_decide (classification e ≠ ingestable) then
        (inr {| entry := e; ingested := false; provision_count := 0;
                error := Some (js "Classification: "
                               ++ classificationName (classification e)) |}, w)
      else
        let '(extracted, w1) := fetchPhase P o e w in
        let provisions :=
          if (length extracted =? 0)%nat then [placeholder e] else extracted in
        let seed := {| law := seedLaw P e w1; provisions := provisions;
                       seed_ingestion := None |} in
        match writeError P (seedPath e) with
        | Some msg => (inl msg, w1)
        | None =>
            (inr {| entry := e; ingested := true;
                    provision_count := length provisions; error := None |},
             {| net := net w1;
                files := <[seedPath e := SeedJson seed]> (files w1) |})
        end
  end.

(** *** The run *)

Record Tally := {
  results : list CensusResult;
  successCount : nat;
  failCount : nat;
  skipCount : nat;
  totalProvisions : nat
}.

Definition emptyTally : Tally :=
  {| results := []; successCount := 0; failCount := 0; skipCount := 0;
     totalProvisions := 0 |}.

(** The body of the loop over [toProcess]. *)
Definition processEntry (P : Platform) (o : Options) (acc : Tally * World)
    (e : CensusEntry) : Tally * World :=
  let '(t, w) := acc in
  match ingestLaw P o e w with
  | (inr result, w') =>
      ({| results := results t ++ [result];
          successCount := if ingested result then S (successCount t) else successCount t;
          failCount :=
            if ingested result then failCount t
            else if from_option (λ m, includes m (js "already")) false (error result)
                 then failCount t else S (failCount t);
          skipCount :=
            if ingested result then skipCount t
            else if from_option (λ m, includes m (js "already")) false (error result)
                 then S (skipCount t) else skipCount t;
          totalProvisions :=
            if ingested result then (totalProvisions t + provision_count result)%nat
            else totalProvisions t |}, w')
  | (inl msg, w') =>
      ({| results := results t ++ [ {| entry := e; ingested := false;
                                       provision_count := 0; error := Some msg |} ];
          successCount := successCount t;
          failCount := S (failCount t);
          skipCount := skipCount t;
          totalProvisions := totalProvisions t |}, w')
  end.

Definition toProcess (o : Options) (census : list CensusEntry) : list CensusEntry :=
  let ingestables := filter (λ e, classification e = ingestable) census in
  if (0 <? limit o)%Z then take (Z.to_nat (limit o)) ingestables else ingestables.

(** The counts of the summary and of the [ingestion] record of the census
    snapshot, the results, and the failed laws the summary lists.  The
    coverage percentage is [success_count / total_processed]. *)
Record RunReport := {
  run_results : list CensusResult;
  total_processed : nat;
  success_count : nat;
  fail_count : nat;
  skip_count : nat;
  total_provisions : nat;
  failed_laws : list (jsstring * jsstring)
}.

(** [r.error || 'unknown error'] *)
Definition reasonOf (r : CensusResult) : jsstring :=
  match error r with
  | Some m => if truthy m then m else js "unknown error"
  | None => js "unknown error"
  end.

(** The lines under "Failed laws": the results that are not ingested. *)
Definition failurePairs (rs : list CensusResult) : list (jsstring * jsstring) :=
  (λ r, (id (entry r), reasonOf r)) <$> filter (λ r, ingested r = false) rs.

Definition report (n : nat) (t : Tally) : RunReport :=
  {| run_results := results t;
     total_processed := n;
     success_count := successCount t;
     fail_count := failCount t;
     skip_count := skipCount t;
     total_provisions := totalProvisions t;
     failed_laws :=
       if (successCount t =? n)%nat then []
       else if (0 <? failCount t)%nat then failurePairs (results t) else [] |}.

(** [writeEuReferences(census)] writes its file when some entry carries a
    reference; the first result is the message of the exception it
    raises. *)
Definition writeEuReferences (P : Platform) (census : list CensusEntry) (w : World)
    : option jsstring * World :=
  let refs := euReferenceSeeds census in
  if (0 <? length refs)%nat then
    match writeError P euRefPath with
    | Some msg => (Some msg, w)
    | None => (None, writeFile euRefPath (EuJson refs) w)
    end
  else (None, w).

(** [JSON.parse(fs.readFileSync(path, 'utf-8'))] *)
Definition readJson (P : Platform) (w : World) (path : jsstring)
    : jsstring + FileContent :=
  match readError P path with
  | Some msg => inl msg
  | None =>
      match files w !! path with
      | Some Unreadable => inl (readFailure P path)
      | Some c => inr c
      | None => inl (readFailure P path)
      end
  end.

(** [{...base, ingestion}]: the record is added to what was read, in the
    place of the one that is there.  An array or another value becomes an
    object without provisions. *)
Definition withIngestion (base : FileContent) (r : IngestionRecord) : FileContent :=
  match base with
  | SeedJson seed =>
      SeedJson {| law := law seed; provisions := provisions seed;
                  seed_ingestion := Some r |}
  | CensusJson snapshot =>
      CensusJson {| generated_at := generated_at snapshot;
                    snapshot_stats := snapshot_stats snapshot;
                    laws := laws snapshot;
                    ingestion := Some r |}
  | _ => OtherJson
  end.

Definition ingestionRecord (n : nat) (t : Tally) (w : World) : IngestionRecord :=
  {| completed_at := clock (net w);
     ingestion_total_processed := n;
     ingestion_success_count := successCount t;
     ingestion_fail_count := failCount t;
     ingestion_total_provisions := totalProvisions t |}.

(** How [runIngestion] ends: an exception before the summary is printed, or
    the summary, after which the update of the census snapshot may raise. *)
Inductive RunOutcome :=
| RaisedEarly (msg : jsstring)
| Reported (summary : RunReport) (raised : option jsstring).

Definition runIngestion (P : Platform) (o : Options) (census : list CensusEntry)
    (w : World) : RunOutcome * World :=
  match dirError P SEED_DIR with
  | Some msg => (RaisedEarly msg, w)
  | None =>
      let '(t, w1) :=
        fold_left (processEntry P o) (toProcess o census) (emptyTally, w) in
      match writeEuReferences P census w1 with
      | (Some msg, w2) => (RaisedEarly msg, w2)
      | (None, w2) =>
          let summary := report (length (toProcess o census)) t in
          match readJson P w2 CENSUS_PATH with
          | inl msg => (Reported summary (Some msg), w2)
          | inr parsed =>
              match writeError P CENSUS_PATH with
              | Some msg => (Reported summary (Some msg), w2)
              | None =>
                  (Reported summary None,
                   writeFile CENSUS_PATH
                     (withIngestion parsed
                        (ingestionRecord (length (toProcess o census)) t w2))
                     w2)
              end
          end
      end
  end.

(** *** Main *)

(** The process exits with a status, or [main] runs to its end; either way
    with the summary when one was printed. *)
Inductive Outcome :=
| Exited (code : Z) (summary : option RunReport)
| Finished (summary : option RunReport).

(** [main()] with the handler attached to it, for the catalog [census] that
    [getFullCensus()] loads.  An exception that leaves [runCensus] or
    [runIngestion] reaches the handler, which exits with status 1. *)
Definition main (P : Platform) (o : Options) (census : list CensusEntry)
    (w : World) : Outcome * World :=
  match runCensus P census w with
  | (MissingLaws, w0) => (Exited 1 None, w0)
  | (CensusRaised _, w0) => (Exited 1 None, w0)
  | (CensusDone census', w0) =>
      if censusOnly o then (Finished None, w0)
      else
        match runIngestion P o census' w0 with
        | (RaisedEarly _, w') => (Exited 1 None, w')
        | (Reported r (Some _), w') => (Exited 1 (Some r), w')
        | (Reported r None, w') => (Finished (Some r), w')
        end
  end.

End Ingest.

(** ** [normalizeRussianText] ([scripts/lib/parser.ts]) *)

Module Normalize.
Import Js.

(** [s.replace(/c/g, ' ')] for a single character [c] *)
Definition replaceChar (c : N) (s : jsstring) : jsstring :=
  map (λ x, if x =? c then 32 else x) s.

(** [s.replace(/\s+/g, ' ')]; [inRun] tells that the character before was
    white space, whose run has been replaced already. *)
Fixpoint collapseWhiteSpace (inRun : bool) (s : jsstring) : jsstring :=
  match s with
  | [] => []
  | c :: s' =>
      if isWhiteSpace c then
        if inRun then collapseWhiteSpace true s'
        else 32 :: collapseWhiteSpace true s'
      else c :: collapseWhiteSpace false s'
  end.

(** What is left of a white-space run after its last line feed, or [None]
    when the run has no line feed. *)
Fixpoint afterLastLF (run : jsstring) : option jsstring :=
  match run with
  | [] => None
  | c :: run' =>
      match afterLastLF run' with
      | Some r => Some r
      | None => if c =? LF then Some run' else None
      end
  end.

Definition countLF (run : jsstring) : nat :=
  length (filter (λ c, c = LF) run).

(** [s.replace(/\n\s*\n\s*\n/g, '\n\n')].  A match starts at a line feed
    whose following white-space run holds two more line feeds, and it ends
    with the last line feed of that run, both stars being greedy.  [fuel]
    bounds the characters left. *)
Fixpoint squeezeBlankLines (fuel : nat) (s : jsstring) : jsstring :=
  match fuel with
  | O => s
  | S fuel' =>
      match s with
      | [] => []
      | c :: s' =>
          let '(run, rest) := span isWhiteSpace s' in
          if (c =? LF) && (2 <=? countLF run)%nat then
            LF :: LF :: squeezeBlankLines fuel' (default [] (afterLastLF run) ++ rest)
          else c :: squeezeBlankLines fuel' s'
      end
  end.

Definition normalizeRussianText (text : jsstring) : jsstring :=
  let s1 := replaceChar 0xA0 text in
  let s2 := replaceChar 0x2003 s1 in
  let s3 := replaceChar 0x2002 s2 in
  let s4 := collapseWhiteSpace false s3 in
  let s5 := squeezeBlankLines (length s4) s4 in
  trim s5.

End Normalize.

(** ** The page parser and the metadata extractor ([scripts/lib/parser.ts])

    Both load the page with cheerio and read text out of it.  Of the loaded
    page only this is used: for a selector, the text contents of the
    elements it matches, in document order. *)

Module Html.
Import Js Parser Ingest.

Record Dom := {
  select : jsstring → list jsstring
}.

(** [$(selector).first().text()] *)
Definition firstText (d : Dom) (selector : jsstring) : jsstring :=
  default [] (head (select d selector)).

(** [$(selector).text()] *)
Definition allText (d : Dom) (selector : jsstring) : jsstring :=
  concat (select d selector).

Definition titleSelectors : list jsstring :=
  [js "h1"; js ".docTitle"; js ".doc_title"; js "title"; js ".rasdel_name"].

Definition contentSelectors : list jsstring :=
  [js "#text"; js ".docBody"; js ".doc_body"; js ".dcontent"; js "#docBody";
   js "table.doc"; js ".mainbody"; js "body"].

(** The loop over [titleSelectors]; the title stays [''] when no selector
    qualifies. *)
Fixpoint pickTitle (d : Dom) (selectors : list jsstring) : jsstring :=
  match selectors with
  | [] => []
  | selector :: rest =>
      let text := trim (firstText d selector) in
      if truthy text && (5 <? length text)%nat && (length text <? 500)%nat
      then text else pickTitle d rest
  end.

(** The loop over [contentSelectors]. *)
Fixpoint pickContent (d : Dom) (selectors : list jsstring) : jsstring :=
  match selectors with
  | [] => []
  | selector :: rest =>
      if (0 <? length (select d selector))%nat then
        let text := allText d selector in
        if (200 <? length (trim text))%nat then text else pickContent d rest
      else pickContent d rest
  end.

(** The text handed to [parseRussianText]. *)
Definition rawText (d : Dom) : jsstring :=
  let picked := pickContent d contentSelectors in
  if truthy picked then picked else allText d (js "body").

(** [parsePravoHtml(html)] on the loaded page *)
Definition parsePravoHtml (d : Dom) : option ParsedLaw :=
  match parseRussianText (rawText d) with
  | Some ps =>
      Some {| parsed_title := pickTitle d titleSelectors; parsed_provisions := ps |}
  | None => None
  end.

(** *** [extractMetadata] *)

Record LawMetadata := {
  meta_title : option jsstring;
  meta_identifier : option jsstring;
  meta_lawType : option jsstring;
  meta_effectiveDate : option jsstring;
  meta_publicationDate : option jsstring;
  meta_status : option jsstring
}.

(** [text.match(re)] for a pattern without anchor: the match at the
    leftmost position that has one; [at] is the match at the start of its
    argument. *)
Fixpoint search {A} (at_start : jsstring → option A) (s : jsstring) : option A :=
  match at_start s with
  | Some r => Some r
  | None =>
      match s with
      | [] => None
      | _ :: s' => search at_start s'
      end
  end.

(** [/(\d+)-?ФЗ/] and [/(\d+)-?ФКЗ/] at the start of [s], for the letters
    [letters]; the result is the first group.  A shorter run of digits is
    followed by a digit, so only the longest can match. *)
Definition numberedAt (letters : jsstring) (s : jsstring) : option jsstring :=
  let '(digits, rest) := span isDigit s in
  if bool_decide (digits = []) then None
  else
    let rest' :=
      match rest with
      | c :: r => if c =? 45 then r else rest
      | [] => rest
      end in
    match expect letters rest' with
    | Some _ => Some digits
    | None => None
    end.

(** [\d{1,2}]: two digits where there are two. *)
Definition oneOrTwoDigits (s : jsstring) : option (jsstring * jsstring) :=
  match s with
  | a :: r =>
      if isDigit a then
        match r with
        | b :: r' => if isDigit b then Some ([a; b], r') else Some ([a], r)
        | [] => Some ([a], r)
        end
      else None
  | [] => None
  end.

(** [\d{4}] *)
Definition fourDigits (s : jsstring) : option jsstring :=
  match s with
  | a :: b :: c :: d :: _ =>
      if isDigit a && isDigit b && isDigit c && isDigit d
      then Some [a; b; c; d] else None
  | _ => None
  end.

(** [/от\s+(\d{1,2})\.(\d{1,2})\.(\d{4})/] at the start of [s]: day, month
    and year. *)
Definition dateAt (s : jsstring) : option (jsstring * jsstring * jsstring) :=
  match expect (js "от") s with
  | Some r0 =>
      let '(ws, r1) := span isWhiteSpace r0 in
      if bool_decide (ws = []) then None
      else
        match oneOrTwoDigits r1 with
        | Some (day, r2) =>
            match expect [DOT] r2 with
            | Some r3 =>
                match oneOrTwoDigits r3 with
                | Some (month, r4) =>
                    match expect [DOT] r4 with
                    | Some r5 =>
                        match fourDigits r5 with
                        | Some year => Some (day, month, year)
                        | None => None
                        end
                    | None => None
                    end
                | None => None
                end
            | None => None
            end
        | None => None
        end
  | None => None
  end.

(** [s.padStart(2, '0')] *)
Definition padStart2 (s : jsstring) : jsstring :=
  replicate (2 - length s) 48 ++ s.

(** [/утратил[а]?\s+силу/i] at the start of [s] *)
Definition repealedAt (s : jsstring) : option unit :=
  match expectCI (js "утратил") s with
  | Some (_, r0) =>
      let r1 :=
        match r0 with
        | c :: r => if canonicalize c =? canonicalize 0x430 then r else r0
        | [] => r0
        end in
      let '(ws, r2) := span isWhiteSpace r1 in
      if bool_decide (ws = []) then None
      else
        match expectCI (js "силу") r2 with
        | Some _ => Some tt
        | None => None
        end
  | None => None
  end.

(** [extractMetadata(html)] on the loaded page *)
Definition extractMetadata (d : Dom) : LawMetadata :=
  let title :=
    if truthy (trim (firstText d (js "h1"))) then trim (firstText d (js "h1"))
    else trim (allText d (js "title")) in
  let fullText := allText d (js "body") in
  let fzMatch := search (numberedAt (js "ФЗ")) fullText in
  let fkzMatch := search (numberedAt (js "ФКЗ")) fullText in
  {| meta_title := if truthy title then Some title else None;
     meta_identifier :=
       match fkzMatch with
       | Some n => Some (n ++ js "-ФКЗ")
       | None =>
           match fzMatch with
           | Some n => Some (n ++ js "-ФЗ")
           | None => None
           end
       end;
     meta_lawType :=
       match fkzMatch with
       | Some _ => Some (js "federal_constitutional_law")
       | None =>
           match fzMatch with
           | Some _ => Some (js "federal_law")
           | None => None
           end
       end;
     meta_effectiveDate :=
       match search dateAt fullText with
       | Some (day, month, year) =>
           Some (year ++ js "-" ++ padStart2 month ++ js "-" ++ padStart2 day)
       | None => None
       end;
     meta_publicationDate := None;
     meta_status :=
       match search repealedAt fullText with
       | Some _ => Some (js "repealed")
       | None => Some (js "in_force")
       end |}.

End Html.

(** ** Notions used to state the properties of the parser *)

Module ParserSpec.
Import Js Parser.

(** Every provision the scan emits has a non-empty body. *)
Definition bodiesNonEmpty (ps : list ParsedProvision) : Prop :=
  Forall (λ p, content p ≠ []) ps.

(** Outside an article nothing is emitted, and only an article-start line
    enters one. *)
Definition idle (st : PState) : Prop :=
  currentArticleNum st = [] ∧ provisions st = [].

(** The provisions of [l] that carry the article number [a], in order. *)
Definition occurrences (a : jsstring) (l : list ParsedProvision) : list ParsedProvision :=
  filter (λ q, article q = a) l.

Definition blankLine : jsstring := [LF; LF].

(** The loop invariant: [done] is the part of the emitted list already
    read. *)
Record dedupInv (done : list ParsedProvision)
    (seen : gmap (list N) nat) (deduped : list ParsedProvision) : Prop := {
  inv_seen : ∀ a i, seen !! a = Some i ↔ (article <$> deduped) !! i = Some a;
  inv_merge : ∀ i p, deduped !! i = Some p →
    ∃ first rest,
      occurrences (article p) done = first :: rest
      ∧ title p = title first
      ∧ provision_ref p = provision_ref first
      ∧ content p = join blankLine (content <$> first :: rest);
  inv_cover : ∀ q, q ∈ done → ∃ i, (article <$> deduped) !! i = Some (article q)
}.

(** The claim's third condition, in the spec's words: the text ends in
    sentence-terminal punctuation. *)
Definition endsSentenceTerminal (s : jsstring) : bool :=
  endsWith s (js ".") || endsWith s (js "!") || endsWith s (js "?").

(** The title test as the claim words it. *)
Definition statedTitleRule (s : jsstring) : bool :=
  (length s <? 200)%nat && negb (looksEnumerated s) && negb (endsSentenceTerminal s).

End ParserSpec.

(** ** Notions used to state the properties of the client *)

Module FetcherSpec.
Import Js Fetcher.
Local Open Scope Z_scope.

(** An attempt after which the loop retries while attempts remain: the
    request fails or is aborted, the status is 429 or 5xx, or reading the
    body fails. *)
Definition unsuccessful (r : Reply) : bool :=
  match settle r with
  | Fails _ _ => true
  | Answers _ st _ (BodyFails _ _) => true
  | Answers _ st _ (BodyBytes _ _) => isRetryStatus st
  end.

(** What the final iteration makes of its reply. *)
Definition finalOutcome (R : Remote) (url : jsstring) (r : Reply)
    : FetchError + FetchResult :=
  match settle r with
  | Fails _ msg => inl (Thrown msg)
  | Answers _ _ _ (BodyFails _ msg) => inl (Thrown msg)
  | Answers _ st ct (BodyBytes _ bytes) =>
      inr {| status := st;
             body := if needsWin1251 url (default [] ct)
                     then decodeWindows1251 R bytes else decodeText R bytes;
             contentType := default [] ct |}
  end.

End FetcherSpec.

(** ** Notions used to state the properties of the orchestrator *)

Module IngestSpec.
Import Js Parser Fetcher Ingest.


(** The result that the loop records for an entry: the one [ingestLaw]
    returns, or the one built from the exception it raises. *)
Definition resultOf (P : Platform) (o : Options) (e : CensusEntry) (w : World)
    : CensusResult :=
  match fst (ingestLaw P o e w) with
  | inr r => r
  | inl msg => {| entry := e; ingested := false; provision_count := 0;
                  error := Some msg |}
  end.

(** A tally after one more result that is no cached skip. *)
Definition tallyPush (t : Tally) (r : CensusResult) : Tally :=
  {| results := results t ++ [r];
     successCount := if ingested r then S (successCount t) else successCount t;
     failCount := if ingested r then failCount t else S (failCount t);
     skipCount := skipCount t;
     totalProvisions :=
       if ingested r then (totalProvisions t + provision_count r)%nat
       else totalProvisions t |}.

(** The counters agree with the results recorded. *)
Definition counted (t : Tally) : Prop :=
  successCount t = length (filter (λ r, ingested r = true) (results t))
  ∧ failCount t = length (filter (λ r, ingested r = false) (results t)).

Definition loop (P : Platform) (o : Options) (l : list CensusEntry)
    (acc : Tally * World) : Tally * World :=
  fold_left (processEntry P o) l acc.

(** The summary that a run printed, if it got that far. *)
Definition printed (out : RunOutcome) : option RunReport :=
  match out with
  | RaisedEarly _ => None
  | Reported r _ => Some r
  end.

(** The summary that a run of [main] printed, if it got that far. *)
Definition reported (out : Outcome) : option RunReport :=
  match out with
  | Exited _ summary => summary
  | Finished summary => summary
  end.

(** The summary that the run starting in [w] prints when it gets that
    far. *)
Definition summaryOf (P : Platform) (o : Options) (census : list CensusEntry)
    (w : World) : RunReport :=
  report (length (toProcess o census))
    (fst (loop P o (toProcess o census) (emptyTally, w))).

(** The world when the loop over the entries of the run that starts in [w]
    ends.  The file of EU references and the census snapshot are written
    after it. *)
Definition worldAfter (P : Platform) (o : Options) (census : list CensusEntry)
    (w : World) : World :=
  snd (loop P o (toProcess o census) (emptyTally, w)).


(** The provisions that the seed file of an entry holds. *)
Definition stored (w : World) (e : CensusEntry) : option (list ParsedProvision) :=
  files w !! seedPath e ≫= provisionsOf.

(** The four ways [ingestLaw] ends. *)
Inductive ingestCase (P : Platform) (o : Options) (e : CensusEntry) (w : World)
    : (jsstring + CensusResult) * World → Prop :=
| case_skip count :
    existingCount w e = Some count →
    ingestCase P o e w
      (inr {| entry := e; ingested := true; provision_count := count;
              error := None |}, w)
| case_classification :
    existingCount w e = None →
    classification e ≠ ingestable →
    ingestCase P o e w
      (inr {| entry := e; ingested := false; provision_count := 0;
              error := Some (js "Classification: "
                             ++ classificationName (classification e)) |}, w)
| case_write_fails msg w1 :
    existingCount w e = None →
    classification e = ingestable →
    writeError P (seedPath e) = Some msg →
    files w1 = files w →
    ingestCase P o e w (inl msg, w1)
| case_written ps seed n1 :
    existingCount w e = None →
    classification e = ingestable →
    writeError P (seedPath e) = None →
    ps ≠ [] →
    provisions seed = ps →
    (fst (fetchPhase P o e w) = [] → ps = [placeholder e]) →
    ingestCase P o e w
      (inr {| entry := e; ingested := true; provision_count := length ps;
              error := None |},
       {| net := n1; files := <[seedPath e := SeedJson seed]> (files w) |}).

End IngestSpec.

(** ** Sample inputs *)

Module Samples.
Import Js Parser Fetcher Ingest.

(** *** Texts *)

Definition scenario : jsstring :=
  js "Статья 5. Right to privacy" ++ [10] ++ js "Everyone has the right..."
  ++ [10; 10] ++ js "Статья 6." ++ [10] ++ js "No one may be subjected...".

Definition titledLine : jsstring := js "  Статья 7. Scope of application".
Definition bodyLine : jsstring := js "Статья 8. 1. The operator shall notify.".

Definition sentenceLine : jsstring :=
  js "Статья 5. Everyone has the right to privacy.".

Definition duplicatedText : jsstring :=
  js "Статья 1. Alpha" ++ [10] ++ js "first body" ++ [10]
  ++ js "Статья 2. Gamma" ++ [10] ++ js "other" ++ [10]
  ++ js "Статья 1. Beta" ++ [10] ++ js "second body".

Definition firstOccurrence : ParsedProvision :=
  {| article := js "1"; Parser.title := js "Alpha"; content := js "first body";
     provision_ref := js "1"; order_index := 0 |}.

Definition laterOccurrence : ParsedProvision :=
  {| article := js "1"; Parser.title := js "Beta"; content := js "second body";
     provision_ref := js "1"; order_index := 2 |}.

(** *** Remote sides *)

(** A remote side that answers every request with 503 and an empty body. *)
Definition busy : Remote :=
  {| reply := λ _ _, Answers 20 503 None (BodyBytes 0 []);
     decodeWindows1251 := λ bytes, bytes;
     decodeText := λ bytes, bytes |}.

Definition someUrl : jsstring := pravoTextUrl (js "102027595").

Definition epoch : Net :=
  {| clock := 1700000000000; lastRequestTime := 0; sent := [] |}.

(** The scenario of the spec: 503 three times, then 200. *)
Definition recovering : Remote :=
  {| reply := λ k _,
       if (k <? 3)%nat then Answers 20 503 None (BodyBytes 0 [])
       else Answers 20 200 (Some (js "text/plain")) (BodyBytes 5 (js "ok"));
     decodeWindows1251 := λ bytes, bytes;
     decodeText := λ bytes, bytes |}.

Definition flaky : Remote :=
  {| reply := λ k _,
       if (k =? 0)%nat then Answers 100 503 None (BodyBytes 0 [])
       else Answers 100 200 None (BodyBytes 0 (js "ok"));
     decodeWindows1251 := λ bytes, bytes;
     decodeText := λ bytes, bytes |}.

Definition firstUrl : jsstring := pravoTextUrl (js "1").
Definition secondUrl : jsstring := pravoTextUrl (js "2").

(** *** Catalogs and platforms *)

Definition sampleEntry (i n : string) (c : CensusClassification) : CensusEntry :=
  {| id := js i; nd := js n;
     title := js "Федеральный закон"; title_en := js "Federal Law";
     identifier := js i; law_type := federal_law; status := in_force;
     effective_date := js "2006-07-27"; publication_date := None;
     last_amended := None; classification := c;
     description := Some (js "Федеральный закон от 27.07.2006");
     source_url := js "http://pravo.gov.ru/proxy/ips/?docbody=&nd=" ++ js n;
     eu_references := None |}.

Definition personalData : CensusEntry :=
  sampleEntry "fz-152-2006" "102108261" ingestable.

Definition fullCatalog : list CensusEntry :=
  [ sampleEntry "constitution-rf" "102027595" ingestable;
    sampleEntry "uk-rf" "102041891" ingestable;
    sampleEntry "gk-rf-1" "102033239" ingestable;
    personalData;
    sampleEntry "fz-149-2006" "102108264" ingestable;
    sampleEntry "fz-187-2017" "102439340" ingestable;
    sampleEntry "fz-63-2011" "102146610" ocr_needed ].

(** The catalog without the Criminal Code. *)
Definition brokenCatalog : list CensusEntry :=
  filter (λ e, id e ≠ js "uk-rf") fullCatalog.

Definition fullRun : Options :=
  {| censusOnly := false; skipFetch := false; limit := 0 |}.

Definition identityDecoders (answer : nat → jsstring → Reply) : Remote :=
  {| reply := answer;
     decodeWindows1251 := λ bytes, bytes;
     decodeText := λ bytes, bytes |}.

Definition platform (answer : nat → jsstring → Reply)
    (failing : list N → option jsstring) : Platform :=
  {| remote := identityDecoders answer;
     htmlTitle := λ _, [];
     htmlText := λ html, Some html;
     dirError := λ _, None;
     writeError := failing;
     readError := λ _, None;
     readFailure := λ _, js "ENOENT: no such file or directory";
     isoDate := λ _, js "2026-02-25" |}.

(** No request gets through. *)
Definition offline : Platform :=
  platform (λ _ _, Fails 30 (js "fetch failed")) (λ _, None).

(** Every request is answered with 200 and forty code units. *)
Definition tinyBody : jsstring := js "The document is temporarily unavailable.".

Definition tiny : Platform :=
  platform (λ _ _, Answers 30 200 None (BodyBytes 5 tinyBody)) (λ _, None).

(** As [tiny], on a disk that accepts no write. *)
Definition diskFull : Platform :=
  platform (λ _ _, Answers 30 200 None (BodyBytes 5 tinyBody))
    (λ _, Some (js "ENOSPC: no space left on device, write")).

(** The seed of the Constitution cannot be written; the network is down. *)
Definition oneBadFile : Platform :=
  platform (λ _ _, Fails 30 (js "fetch failed"))
    (λ path, if bool_decide (path = js "data/seed/constitution-rf.json")
             then Some (js "EACCES: permission denied") else None).

(** The census snapshot cannot be written. *)
Definition readOnlyData : Platform :=
  platform (λ _ _, Fails 30 (js "fetch failed"))
    (λ path, if bool_decide (path = js "data/census.json")
             then Some (js "EACCES: permission denied") else None).

Definition fresh : World := {| net := epoch; files := ∅ |}.

(** The world in which the ingestion of the full catalog starts: the census
    snapshot is written. *)
Definition surveyed : World :=
  writeFile CENSUS_PATH (CensusJson (censusOutput fullCatalog fresh)) fresh.

(** The entries of the full catalog before and after [personalData]. *)
Definition earlier : list CensusEntry :=
  [ sampleEntry "constitution-rf" "102027595" ingestable;
    sampleEntry "uk-rf" "102041891" ingestable;
    sampleEntry "gk-rf-1" "102033239" ingestable ].

Definition later : list CensusEntry :=
  [ sampleEntry "fz-149-2006" "102108264" ingestable;
    sampleEntry "fz-187-2017" "102439340" ingestable ].

End Samples.

(** ** Notions used to state further properties *)

Module ExtraSpec.
Import Js Parser.

(** An article number as the patterns capture it: digits, or digits, a
    period and digits. *)
Definition ArticleNumber (num : jsstring) : Prop :=
  ∃ d1 d2,
    d1 ≠ [] ∧ Forall (λ c, isDigit c = true) d1
    ∧ Forall (λ c, isDigit c = true) d2
    ∧ (num = d1 ∨ (d2 ≠ [] ∧ num = d1 ++ DOT :: d2)).

(** No white space at either end. *)
Definition Trimmed (s : jsstring) : Prop :=
  (∀ c, head s = Some c → isWhiteSpace c = false)
  ∧ (∀ c, last s = Some c → isWhiteSpace c = false).

(** A title is absent, or short, not enumerated and trimmed. *)
Definition TitleOk (t : jsstring) : Prop :=
  t = [] ∨ ((length t < 200)%nat ∧ looksEnumerated t = false ∧ Trimmed t).

(** No three line feeds in a row. *)
Fixpoint tripleFree (s : jsstring) : bool :=
  match s with
  | a :: t =>
      match t with
      | b :: c :: _ => negb ((a =? LF) && (b =? LF) && (c =? LF)) && tripleFree t
      | _ => true
      end
  | [] => true
  end.

(** The string begins with two line feeds. *)
Definition twoLF (s : jsstring) : bool :=
  match s with
  | b :: c :: _ => (b =? LF) && (c =? LF)
  | _ => false
  end.

(** What holds of every provision the parser emits. *)
Definition goodProvision (p : ParsedProvision) : Prop :=
  ArticleNumber (article p) ∧ provision_ref p = article p
  ∧ TitleOk (title p) ∧ content p ≠ [] ∧ Trimmed (content p)
  ∧ tripleFree (content p) = true.

(** The same for the state of the line classifier. *)
Definition goodState (st : PState) : Prop :=
  Forall goodProvision (provisions st)
  ∧ (currentArticleNum st = [] ∨ ArticleNumber (currentArticleNum st))
  ∧ TitleOk (currentArticleTitle st).

(** The distinct elements of a list in the order of their first
    occurrence. *)
Fixpoint firstSeen (l : list (list N)) : list (list N) :=
  match l with
  | [] => []
  | x :: l' => x :: filter (λ y, y ≠ x) (firstSeen l')
  end.

(** Every white-space character is a space, and no two spaces are
    adjacent. *)
Fixpoint singleSpaced (s : jsstring) : bool :=
  match s with
  | a :: t =>
      (negb (isWhiteSpace a) || (a =? 32))
      && match t with
         | b :: _ => negb (isWhiteSpace a && isWhiteSpace b)
         | [] => true
         end
      && singleSpaced t
  | [] => true
  end.

(** The characters of a string that are not white space, in order. *)
Definition visible (s : jsstring) : jsstring :=
  filter (λ c, isWhiteSpace c = false) s.

(** Two states of the line classifier that agree except, outside an
    article, on the appendix flag. *)
Definition alike (st1 st2 : PState) : Prop :=
  provisions st1 = provisions st2
  ∧ currentArticleNum st1 = currentArticleNum st2
  ∧ currentArticleTitle st1 = currentArticleTitle st2
  ∧ currentContent st1 = currentContent st2
  ∧ orderIndex st1 = orderIndex st2
  ∧ (inAppendix st1 = inAppendix st2 ∨ currentArticleNum st1 = []).

(** Nothing has been read that matters: the initial state, up to the
    appendix flag. *)
Definition quiet (st : PState) : Prop :=
  provisions st = [] ∧ currentArticleNum st = [] ∧ currentArticleTitle st = []
  ∧ currentContent st = [] ∧ orderIndex st = 0%nat.

End ExtraSpec.

(** ** Notions used to state further properties of the client *)

Module ClientSpec.
Import Js Fetcher FetcherSpec Endpoints.
Local Open Scope Z_scope.

(** The three functions that fetch a law from pravo.gov.ru, each with the
    address it builds. *)
Definition pravoEndpoints
    : list ((Remote → jsstring → Net → (FetchError + FetchResult) * Net)
            * (jsstring → jsstring)) :=
  [ (fetchPravoLaw, pravoLawUrl);
    (fetchPravoLawFull, pravoLawFullUrl);
    (fetchPravoLawText, pravoTextUrl) ].

Section Json.
Context {Value : Type} (parseJson : list N → jsstring + Value).

(** An attempt after which [fetchJson] retries while attempts remain: as
    for [fetchWithRateLimit], or the body is no JSON. *)
Definition jsonUnusable (r : Reply) : bool :=
  match settle r with
  | Fails _ _ => true
  | Answers _ st _ (BodyFails _ _) => true
  | Answers _ st _ (BodyBytes _ bytes) =>
      isRetryStatus st
      || match parseJson bytes with
         | inl _ => true
         | inr _ => false
         end
  end.

(** What the final iteration of [fetchJson] makes of its reply. *)
Definition jsonFinal (r : Reply) : JsonError + Value :=
  match settle r with
  | Fails _ msg => inl (JsonThrown msg)
  | Answers _ _ _ (BodyFails _ msg) => inl (JsonThrown msg)
  | Answers _ _ _ (BodyBytes _ bytes) =>
      match parseJson bytes with
      | inl msg => inl (JsonThrown msg)
      | inr v => inr v
      end
  end.

End Json.

End ClientSpec.

(** ** Notions used to state the properties of the page functions *)

Module PageSpec.
Import Js Parser Fetcher Ingest Html.

Definition AllDigits (s : jsstring) : Prop := Forall (λ c, isDigit c = true) s.

Definition hyphen : jsstring := [45].

(** The platform whose pages are read as [parsePravoHtml] reads them, for
    a function [load] that stands for [cheerio.load]. *)
Definition pageReader (load : jsstring → Dom) (R : Remote)
    (failing : list N → option jsstring) (date : Z → jsstring) : Platform :=
  {| remote := R;
     htmlTitle := λ html, pickTitle (load html) titleSelectors;
     htmlText := λ html, Some (rawText (load html));
     dirError := λ _, None;
     writeError := failing;
     readError := λ _, None;
     readFailure := λ _, [];
     isoDate := date |}.

End PageSpec.

(** ** Notions used to state further properties of the orchestrator *)

Module RunSpec.
Import Js Parser Fetcher Ingest IngestSpec.

(** The provisions of a seed file that the pipeline writes: at least one,
    numbered by position, with distinct article numbers and no empty body. *)
Definition seedShape (ps : list ParsedProvision) : Prop :=
  ps ≠ []
  ∧ (∀ i p, ps !! i = Some p → order_index p = i)
  ∧ NoDup (article <$> ps)
  ∧ Forall (λ p, content p ≠ []) ps.

(** The metadata of a seed file is that of the entry. *)
Definition describes (s : SeedLaw) (e : CensusEntry) : Prop :=
  seed_id s = id e ∧ seed_title s = title e ∧ seed_title_en s = title_en e
  ∧ seed_identifier s = identifier e ∧ seed_law_type s = law_type e
  ∧ seed_status s = status e ∧ seed_effective_date s = effective_date e
  ∧ seed_source_url s = source_url e ∧ seed_last_amended s = last_amended e
  ∧ seed_description s = description e.




(** Some entry of the catalog carries an EU reference. *)
Definition hasEuReferences (census : list CensusEntry) : bool :=
  existsb
    (λ e, match eu_references e with
          | Some (_ :: _) => true
          | _ => false
          end)
    census.

Definition sumCounts (rs : list CensusResult) : nat :=
  foldr (λ r acc, (provision_count r + acc)%nat) 0%nat rs.

(** What holds of every result the loop records: an ingested one stands
    for at least one provision, any other for none. *)
Definition sound (r : CensusResult) : Prop :=
  if ingested r then (1 ≤ provision_count r)%nat else provision_count r = 0%nat.

(** The counters that the loop keeps beside the successes and failures. *)
Definition balanced (t : Tally) : Prop :=
  skipCount t = 0%nat
  ∧ totalProvisions t = sumCounts (results t)
  ∧ (successCount t ≤ totalProvisions t)%nat.

(** What one entry adds to the counter [k] of the statistics. *)
Definition hits (k : jsstring) (e : CensusEntry) : nat :=
  ((if decide (classificationName (classification e) = k) then 1 else 0)
   + (if decide (lawTypeName (law_type e) = k) then 1 else 0)
   + (if decide (statusName (status e) = k) then 1 else 0)
   + (if decide (js "with_eu_references" = k)
      then (if withReferences e then 1 else 0) else 0))%nat.

Definition sumHits (k : jsstring) (census : list CensusEntry) : nat :=
  foldr (λ e acc, (hits k e + acc)%nat) 0%nat census.

End RunSpec.

(** ** Further sample inputs *)

Module ExtraSamples.
Import Js Parser Fetcher Ingest Html Samples.

(** A title page before the first article. *)
Definition preamble : jsstring :=
  js "РОССИЙСКАЯ ФЕДЕРАЦИЯ" ++ [13; 10] ++ js "ФЕДЕРАЛЬНЫЙ ЗАКОН" ++ [10]
  ++ js "Глава 1. Общие положения".

Definition articleText : jsstring :=
  js "Статья 1. Сфера действия" ++ [10] ++ js "Настоящий закон регулирует отношения.".

Definition inArticle : PState :=
  {| Parser.provisions := []; currentArticleNum := js "3"; currentArticleTitle := [];
     currentContent := [js "Text."]; orderIndex := 0; inAppendix := false |}.

Definition appendixHeading : jsstring := js "Приложение № 1".

(** A stand-in for [response.json()]: a body that opens with a brace is a
    value, any other is rejected. *)
Definition braces (bytes : list N) : jsstring + list N :=
  match bytes with
  | 123 :: _ => inr bytes
  | _ => inl (js "Unexpected token")
  end.

(** An error page twice, then a JSON document. *)
Definition eventually : Remote :=
  {| reply := λ k _,
       if (k <? 2)%nat
       then Answers 20 200 (Some (js "text/html")) (BodyBytes 0 (js "<html>"))
       else Answers 20 200 (Some (js "application/json")) (BodyBytes 0 (js "{}"));
     decodeWindows1251 := λ bytes, bytes;
     decodeText := λ bytes, bytes |}.


(** [--limit 2] *)
Definition firstTwo : Options :=
  {| censusOnly := false; skipFetch := false; limit := 2 |}.

(** A page of the portal: a heading, and a body that names the law. *)
Definition lawPage : Dom :=
  {| select := λ selector,
       if bool_decide (selector = js "h1") then [js "  О персональных данных "]
       else if bool_decide (selector = js "body")
       then [js "Федеральный закон от 27.07.2006 № 152-ФЗ"; js " (ред. от 1.3.2021)"]
       else [] |}.

End ExtraSamples.
(** ** Properties of the line classifier *)

Module ParserFacts.
Import Js Parser ParserSpec.

Lemma provisions_pushContent st l : provisions (pushContent st l) = provisions st.
Proof. reflexivity. Qed.

Lemma provisions_setAppendix st b : provisions (setAppendix st b) = provisions st.
Proof. reflexivity. Qed.

Lemma provisions_contentLine st l : provisions (contentLine st l) = provisions st.
Proof. unfold contentLine. repeat case_match; reflexivity. Qed.

Lemma num_contentLine st l :
  currentArticleNum (contentLine st l) = currentArticleNum st.
Proof. unfold contentLine. repeat case_match; reflexivity. Qed.

(** What a flush appends: nothing, or one provision with a non-empty body
    that carries the current number and title. *)
Lemma flushArticle_cases st :
  provisions (flushArticle st) = provisions st
  ∨ ∃ p, provisions (flushArticle st) = provisions st ++ [p]
         ∧ content p ≠ [] ∧ article p = currentArticleNum st
         ∧ provision_ref p = currentArticleNum st
         ∧ title p = currentArticleTitle st
         ∧ currentArticleNum st ≠ [].
Proof.
  unfold flushArticle; simpl.
  destruct (truthy (currentArticleNum st)) eqn:Hn; simpl; [|by left].
  destruct (0 <? length (currentContent st))%nat; simpl; [|by left].
  destruct (0 <? length (flushedContent (currentContent st)))%nat eqn:Hc;
    [|by left].
  right. eexists; split; [reflexivity|]. simpl.
  apply Nat.ltb_lt in Hc.
  unfold truthy in Hn. apply negb_true_iff, bool_decide_eq_false in Hn.
  repeat split; try done.
  intros E. rewrite E in Hc. simpl in Hc. lia.
Qed.

Lemma flushArticle_bodies st :
  bodiesNonEmpty (provisions st) → bodiesNonEmpty (provisions (flushArticle st)).
Proof.
  intros H. destruct (flushArticle_cases st) as [-> | (p & -> & Hp & _)]; [done|].
  apply Forall_app; split; [done|]. by constructor.
Qed.

Lemma step_bodies st l :
  bodiesNonEmpty (provisions st) → bodiesNonEmpty (provisions (step st l)).
Proof.
  intros H. unfold step.
  repeat case_match; subst;
    rewrite ?provisions_contentLine, ?provisions_pushContent; try done;
    try (apply flushArticle_bodies; done).
Qed.

Lemma fold_step_bodies ls st :
  bodiesNonEmpty (provisions st) →
  bodiesNonEmpty (provisions (fold_left step ls st)).
Proof.
  revert st. induction ls as [|l ls IH]; intros st H; simpl; [done|].
  apply IH, step_bodies, H.
Qed.

Lemma scan_bodies text : bodiesNonEmpty (scan text).
Proof.
  unfold scan. apply flushArticle_bodies, fold_step_bodies. constructor.
Qed.

Lemma flushArticle_idle st : idle st → idle (flushArticle st).
Proof.
  intros [Hn Hp]. split; [reflexivity|].
  destruct (flushArticle_cases st) as [-> | (p & _ & _ & _ & _ & _ & Hne)]; done.
Qed.

Lemma step_idle st l :
  articleMatch (trim l) = None → idle st → idle (step st l).
Proof.
  intros Hm [Hn Hp]. unfold step. rewrite Hm.
  repeat case_match; subst; try done;
    try (apply flushArticle_idle; done).
  all: split; rewrite ?num_contentLine, ?provisions_contentLine; done.
Qed.

Lemma fold_step_idle ls st :
  Forall (λ l, articleMatch (trim l) = None) ls →
  idle st → idle (fold_left step ls st).
Proof.
  revert st. induction ls as [|l ls IH]; intros st Hall Hi; simpl; [done|].
  inversion Hall; subst. apply IH; [done|]. by apply step_idle.
Qed.

Lemma scan_no_marker text :
  Forall (λ l, articleMatch (trim l) = None) (splitLines [] text) →
  scan text = [].
Proof.
  intros H. unfold scan.
  apply flushArticle_idle, fold_step_idle; [done|]. by split.
Qed.

End ParserFacts.

(** ** The deduplication pass *)

Module DedupFacts.
Import Js Parser ParserSpec.

Lemma join_snoc sep (l : list (list N)) x :
  l ≠ [] → join sep (l ++ [x]) = join sep l ++ sep ++ x.
Proof.
  induction l as [|y l IH]; [done|]. intros _.
  destruct l as [|z l]; [reflexivity|].
  change (join sep ((y :: z :: l) ++ [x]))
    with (y ++ sep ++ join sep ((z :: l) ++ [x])).
  rewrite IH by done.
  change (join sep (y :: z :: l)) with (y ++ sep ++ join sep (z :: l)).
  by rewrite <- !app_assoc.
Qed.

Lemma join_nonempty sep (x : list N) l : x ≠ [] → join sep (x :: l) ≠ [].
Proof.
  intros Hx. destruct l; simpl; [done|].
  destruct x; [done|]. discriminate.
Qed.

Lemma occurrences_snoc a l q :
  occurrences a (l ++ [q]) =
  occurrences a l ++ (if decide (article q = a) then [q] else []).
Proof.
  unfold occurrences. rewrite filter_app. reflexivity.
Qed.

Lemma occurrences_none a l :
  (∀ q, q ∈ l → article q ≠ a) → occurrences a l = [].
Proof.
  unfold occurrences. induction l as [|x l IH]; intros H; [done|].
  rewrite filter_cons, decide_False by (apply H; left).
  apply IH. intros q Hq. apply H. by right.
Qed.

Lemma dedupInv_init : dedupInv [] ∅ [].
Proof.
  split.
  - intros a i. rewrite lookup_empty. simpl. rewrite lookup_nil. done.
  - intros i p. rewrite lookup_nil. done.
  - intros q Hq. by apply elem_of_nil in Hq.
Qed.

Lemma articles_insert_merge (deduped : list ParsedProvision) i p extra :
  deduped !! i = Some p →
  article <$> <[i := appendContent extra p]> deduped = article <$> deduped.
Proof.
  intros Hp. rewrite list_fmap_insert. simpl.
  apply list_insert_id. rewrite list_lookup_fmap, Hp. reflexivity.
Qed.

(** One iteration never reads outside [deduped] and keeps the invariant. *)
Lemma dedupStep_inv done seen deduped prov :
  dedupInv done seen deduped →
  ∃ seen' deduped',
    dedupStep (seen, deduped) prov = Some (seen', deduped')
    ∧ dedupInv (done ++ [prov]) seen' deduped'.
Proof.
  intros [Hseen Hmerge Hcover]. unfold dedupStep.
  destruct (seen !! article prov) as [existing|] eqn:Hs.
  - pose proof (proj1 (Hseen _ _) Hs) as Ha.
    rewrite list_lookup_fmap in Ha.
    destruct (deduped !! existing) as [ep|] eqn:Hep; [|done].
    simpl in Ha. injection Ha as Ha.
    eexists _, _; split; [reflexivity|].
    pose proof (articles_insert_merge deduped existing ep (content prov) Hep) as Harts.
    split.
    + intros a i. rewrite Harts. apply Hseen.
    + intros i p Hp.
      destruct (decide (i = existing)) as [->|Hne].
      * rewrite list_lookup_insert_eq in Hp by (by eapply lookup_lt_Some).
        injection Hp as <-.
        destruct (Hmerge _ _ Hep) as (first & rest & Hocc & Ht & Hr & Hc).
        exists first, (rest ++ [prov]).
        assert (content (appendContent (content prov) ep)
                = join blankLine (content <$> first :: rest ++ [prov])) as Hjoin.
        { change (first :: rest ++ [prov]) with ((first :: rest) ++ [prov]).
          rewrite fmap_app. change (content <$> [prov]) with [content prov].
          rewrite join_snoc by done. rewrite <- Hc. reflexivity. }
        change (article (appendContent (content prov) ep)) with (article ep).
        rewrite occurrences_snoc, Hocc, decide_True by done.
        repeat split; done.
      * rewrite list_lookup_insert_ne in Hp by done.
        destruct (Hmerge _ _ Hp) as (first & rest & Hocc & Hrest).
        exists first, rest. rewrite occurrences_snoc, Hocc.
        rewrite decide_False; [by rewrite app_nil_r|].
        intros E. apply Hne.
        assert (seen !! article prov = Some i) as Hi.
        { apply Hseen. rewrite list_lookup_fmap, Hp. simpl. by rewrite E. }
        congruence.
    + intros q [Hq | ->%list_elem_of_singleton]%elem_of_app; rewrite Harts.
      * by apply Hcover.
      * exists existing. rewrite list_lookup_fmap, Hep. simpl. by rewrite Ha.
  - eexists _, _; split; [reflexivity|].
    assert (∀ i, (article <$> deduped) !! i ≠ Some (article prov)) as Hfresh.
    { intros i Hi. apply Hseen in Hi. congruence. }
    split.
    + intros a i. rewrite fmap_app. simpl.
      destruct (decide (a = article prov)) as [->|Hne].
      * rewrite lookup_insert_eq. split.
        -- intros [= <-].
           rewrite lookup_app_r by (by rewrite length_fmap).
           by rewrite length_fmap, Nat.sub_diag.
        -- intros Hi.
           destruct (decide (i < length (article <$> deduped))%nat) as [Hlt|Hge].
           ++ rewrite lookup_app_l in Hi by done. by apply Hfresh in Hi.
           ++ rewrite lookup_app_r in Hi by lia.
              apply list_lookup_singleton_Some in Hi as [Hi _].
              rewrite length_fmap in Hi, Hge. f_equal. lia.
      * rewrite lookup_insert_ne by done. rewrite Hseen. split.
        -- intros Hi. rewrite lookup_app_l; [done|]. by eapply lookup_lt_Some.
        -- intros Hi.
           destruct (decide (i < length (article <$> deduped))%nat) as [Hlt|Hge].
           ++ by rewrite lookup_app_l in Hi.
           ++ rewrite lookup_app_r in Hi by lia.
              apply list_lookup_singleton_Some in Hi as [_ Hi]. congruence.
    + intros i p Hp.
      apply lookup_app_Some in Hp as [Hp | [Hlen Hp]].
      * destruct (Hmerge _ _ Hp) as (first & rest & Hocc & Hrest).
        exists first, rest. rewrite occurrences_snoc, Hocc.
        rewrite decide_False; [by rewrite app_nil_r|].
        intros E. apply (Hfresh i).
        rewrite list_lookup_fmap, Hp. simpl. by rewrite E.
      * apply list_lookup_singleton_Some in Hp as [_ <-].
        exists prov, []. rewrite occurrences_snoc.
        rewrite decide_True by done.
        assert (occurrences (article prov) done = []) as ->.
        { apply occurrences_none.
          intros q Hq E. destruct (Hcover q Hq) as [j Hj].
          apply (Hfresh j). by rewrite <- E. }
        done.
    + intros q [Hq | ->%list_elem_of_singleton]%elem_of_app; rewrite fmap_app.
      * destruct (Hcover q Hq) as [i Hi]. exists i.
        rewrite lookup_app_l; [done|]. by eapply lookup_lt_Some.
      * exists (length (article <$> deduped)).
        rewrite lookup_app_r by done. by rewrite Nat.sub_diag.
Qed.

Lemma dedupLoop_inv provs done seen deduped :
  dedupInv done seen deduped →
  ∃ seen' deduped',
    dedupLoop (seen, deduped) provs = Some (seen', deduped')
    ∧ dedupInv (done ++ provs) seen' deduped'.
Proof.
  revert done seen deduped.
  induction provs as [|prov provs IH]; intros done seen deduped Hinv;
    cbn [dedupLoop].
  - exists seen, deduped. by rewrite app_nil_r.
  - destruct (dedupStep_inv _ _ _ prov Hinv) as (s1 & d1 & -> & Hinv1).
    destruct (IH _ _ _ Hinv1) as (s2 & d2 & Hloop & Hinv2).
    exists s2, d2. split; [done|]. by rewrite <- app_assoc in Hinv2.
Qed.

(** The pass over a whole list, from the empty map and array. *)
Lemma dedupLoop_total provs :
  ∃ seen deduped,
    dedupLoop (∅, []) provs = Some (seen, deduped) ∧ dedupInv provs seen deduped.
Proof. apply (dedupLoop_inv provs [] ∅ []), dedupInv_init. Qed.

Lemma lookup_reindex (l : list ParsedProvision) i :
  reindex l !! i = setIndex i <$> l !! i.
Proof. unfold reindex. apply list_lookup_imap. Qed.

(** [parseRussianText] always returns, and its result is the deduplicated
    list with the indices rewritten. *)
Lemma parse_returns text :
  ∃ seen deduped,
    parseRussianText text = Some (reindex deduped)
    ∧ dedupInv (scan text) seen deduped.
Proof.
  destruct (dedupLoop_total (scan text)) as (seen & deduped & Hloop & Hinv).
  exists seen, deduped. split; [|done].
  unfold parseRussianText. by rewrite Hloop.
Qed.

(** A number occurs at one position of the deduplicated list at most. *)
Lemma dedupInv_unique done seen deduped i j p q :
  dedupInv done seen deduped →
  deduped !! i = Some p → deduped !! j = Some q → article p = article q → i = j.
Proof.
  intros [Hseen _ _] Hp Hq E.
  assert (seen !! article p = Some i) as Hi.
  { apply Hseen. by rewrite list_lookup_fmap, Hp. }
  assert (seen !! article p = Some j) as Hj.
  { apply Hseen. rewrite list_lookup_fmap, Hq. simpl. by rewrite E. }
  congruence.
Qed.

End DedupFacts.

(** ** Theorems on the parser *)

Module ParserClaims.
Import Js Parser ParserSpec Samples ParserFacts DedupFacts.

(** The scenario of the spec. *)
Example parse_scenario :
  parseRussianText scenario =
  Some [ {| article := js "5"; title := js "Right to privacy";
            content := js "Everyone has the right...";
            provision_ref := js "5"; order_index := 0 |};
         {| article := js "6"; title := [];
            content := js "No one may be subjected...";
            provision_ref := js "6"; order_index := 1 |} ].
Proof. vm_compute. reflexivity. Qed.

Lemma expect_cons a p s r :
  expect (a :: p) s = Some r → ∃ s', s = a :: s' ∧ expect p s' = Some r.
Proof.
  destruct s as [|b s']; simpl; [done|].
  destruct (N.eqb_spec a b) as [->|]; [|done]. eauto.
Qed.

(** A line that starts an article is not blank and is no appendix marker. *)
Lemma articleMatch_line line m :
  articleMatch line = Some m → line ≠ [] ∧ testAppendix line = false.
Proof.
  intros Hm.
  assert (is_Some (articleHead line)) as [h Hh].
  { unfold articleMatch, matchArticle, matchArticleAlt in Hm.
    destruct (articleHead line); [eauto|done]. }
  split; [by intros ->|].
  unfold articleHead in Hh. unfold testAppendix.
  destruct (expect (js "Статья") (skip isWhiteSpace line)) as [s2|] eqn:He; [|done].
  assert (js "Статья" = 0x421 :: js "татья") as Hkw by reflexivity.
  rewrite Hkw in He. apply expect_cons in He as (s' & -> & _).
  reflexivity.
Qed.

Lemma truthy_nonempty (s : list N) : s ≠ [] → truthy s = true.
Proof. intros H. unfold truthy. by rewrite bool_decide_eq_false_2. Qed.

(** The shape of the merged provision for a number that the scan emits. *)
Lemma parse_merged text a first rest :
  occurrences a (scan text) = first :: rest →
  ∃ ps i p,
    parseRussianText text = Some ps
    ∧ ps !! i = Some p
    ∧ article p = a
    ∧ (∀ j q, ps !! j = Some q → article q = a → j = i)
    ∧ title p = title first
    ∧ provision_ref p = provision_ref first
    ∧ content p = join blankLine (content <$> first :: rest)
    ∧ (∀ j q, ps !! j = Some q → order_index q = j).
Proof.
  intros Hocc.
  destruct (parse_returns text) as (seen & deduped & Hparse & Hinv).
  assert (article first = a ∧ first ∈ scan text) as [Hart Hin].
  { apply (list_elem_of_filter (λ q, article q = a)).
    fold (occurrences a (scan text)). rewrite Hocc. left. }
  destruct (inv_cover _ _ _ Hinv first Hin) as [i Hi].
  rewrite list_lookup_fmap in Hi.
  destruct (deduped !! i) as [p0|] eqn:Hp0; [|done].
  simpl in Hi. injection Hi as Hi. rewrite Hart in Hi.
  destruct (inv_merge _ _ _ Hinv i p0 Hp0) as (f & r & Hocc' & Ht & Hr & Hc).
  rewrite Hi, Hocc in Hocc'. injection Hocc' as <- <-.
  exists (reindex deduped), i, (setIndex i p0).
  split; [done|]. split; [by rewrite lookup_reindex, Hp0|].
  split; [done|]. split.
  { intros j q Hq Hqa. rewrite lookup_reindex in Hq.
    destruct (deduped !! j) as [q0|] eqn:Hq0; [|done].
    injection Hq as <-. symmetry.
    eapply (dedupInv_unique _ _ _ i j p0 q0 Hinv); try done.
    simpl in Hqa. congruence. }
  repeat split; try done.
  intros j q Hq. rewrite lookup_reindex in Hq.
  destruct (deduped !! j); [|done]. by injection Hq as <-.
Qed.

(** C7: [parseRussianText] is total and raises on no input; its result
    carries the indices 0, 1, 2, ... in order, every body in it is
    non-empty, and it is empty for a text none of whose lines is an
    article-start line. *)
Theorem parse_total_contiguous text :
  ∃ ps,
    parseRussianText text = Some ps
    ∧ (∀ i p, ps !! i = Some p → order_index p = i)
    ∧ (∀ p, p ∈ ps → content p ≠ [])
    ∧ (Forall (λ l, articleMatch (trim l) = None) (splitLines [] text) → ps = []).
Proof.
  destruct (parse_returns text) as (seen & deduped & Hparse & Hinv).
  exists (reindex deduped). split; [done|]. split; [|split].
  - intros i p Hp. rewrite lookup_reindex in Hp.
    destruct (deduped !! i); [|done]. by injection Hp as <-.
  - intros p [i Hp]%list_elem_of_lookup. rewrite lookup_reindex in Hp.
    destruct (deduped !! i) as [p0|] eqn:Hp0; [|done]. injection Hp as <-.
    destruct (inv_merge _ _ _ Hinv i p0 Hp0) as (f & r & Hocc & _ & _ & Hc).
    change (content (setIndex i p0)) with (content p0). rewrite Hc.
    apply join_nonempty.
    assert (article f = article p0 ∧ f ∈ scan text) as [_ Hf].
    { apply (list_elem_of_filter (λ q, article q = article p0)).
      fold (occurrences (article p0) (scan text)). rewrite Hocc. left. }
    pose proof (scan_bodies text) as Hb.
    unfold bodiesNonEmpty in Hb. rewrite Forall_forall in Hb. by apply Hb.
  - intros Hnone. apply scan_no_marker in Hnone.
    unfold parseRussianText in Hparse. rewrite Hnone in Hparse.
    simpl in Hparse. injection Hparse as <-. reflexivity.
Qed.

(** C6: when the scan emits an article number more than once, the result
    holds that number at exactly one position; the body there is the bodies
    of all occurrences, in the order they were emitted, joined by a blank
    line; and the indices of the result are 0, 1, 2, ... in order. *)
Theorem parse_merges_duplicates text a :
  (1 < length (occurrences a (scan text)))%nat →
  ∃ ps i p,
    parseRussianText text = Some ps
    ∧ ps !! i = Some p
    ∧ article p = a
    ∧ (∀ j q, ps !! j = Some q → article q = a → j = i)
    ∧ content p = join blankLine (content <$> occurrences a (scan text))
    ∧ (∀ j q, ps !! j = Some q → order_index q = j).
Proof.
  intros Hlen.
  destruct (occurrences a (scan text)) as [|first rest] eqn:Hocc;
    [simpl in Hlen; lia|].
  destruct (parse_merged text a first rest Hocc)
    as (ps & i & p & H1 & H2 & H3 & H4 & _ & _ & H5 & H6).
  exists ps, i, p. repeat split; done.
Qed.

(** C10: the merged provision of a number keeps the title and the reference
    key of the first occurrence, whatever the titles of the later ones; of
    those only the bodies are used, appended after the first body. *)
Theorem parse_keeps_first_title text a first rest :
  occurrences a (scan text) = first :: rest →
  ∃ ps i p,
    parseRussianText text = Some ps
    ∧ ps !! i = Some p
    ∧ article p = a
    ∧ (∀ j q, ps !! j = Some q → article q = a → j = i)
    ∧ title p = title first
    ∧ provision_ref p = provision_ref first
    ∧ content p = join blankLine (content first :: (content <$> rest)).
Proof.
  intros Hocc.
  destruct (parse_merged text a first rest Hocc)
    as (ps & i & p & H1 & H2 & H3 & H4 & H5 & H6 & H7 & _).
  exists ps, i, p. repeat split; done.
Qed.

(** C4, as the code has it: on a line that starts an article, the trimmed
    text after the marker, when there is any, becomes the title exactly
    when it is shorter than 200 code units and does not begin like an
    enumerated item (digits, a period, white space); otherwise it becomes
    the first body line.  How the text ends plays no part. *)
Theorem article_line_title_rule st rawLine num rest :
  articleMatch (trim rawLine) = Some (num, rest) →
  trim rest ≠ [] →
  currentArticleNum (step st rawLine) = num
  ∧ if (length (trim rest) <? 200)%nat && negb (looksEnumerated (trim rest))
    then currentArticleTitle (step st rawLine) = trim rest
         ∧ currentContent (step st rawLine) = []
    else currentArticleTitle (step st rawLine) = []
         ∧ currentContent (step st rawLine) = [trim rest].
Proof.
  intros Hm Hr.
  destruct (articleMatch_line _ _ Hm) as [Hne Happ].
  unfold step.
  destruct (length (trim rawLine) =? 0)%nat eqn:Hlen.
  { apply Nat.eqb_eq, length_zero_iff_nil in Hlen. done. }
  rewrite Happ, Hm.
  replace (inAppendix st && negb (bool_decide (is_Some (Some (num, rest)))))
    with false by (destruct (inAppendix st); reflexivity).
  unfold startArticle. cbn [currentArticleNum currentArticleTitle currentContent].
  rewrite (truthy_nonempty _ Hr). split; [reflexivity|].
  destruct ((length (trim rest) <? 200)%nat && negb (looksEnumerated (trim rest)));
    simpl; split; reflexivity.
Qed.

Lemma article_line_title_rule_witness :
  currentArticleNum (step initial titledLine) = js "7"
  ∧ currentArticleTitle (step initial titledLine) = js "Scope of application"
  ∧ currentContent (step initial titledLine) = [].
Proof.
  pose proof (article_line_title_rule initial titledLine (js "7")
                (js "Scope of application")) as H.
  apply H; vm_compute; [reflexivity | discriminate].
Defined.

(** C4 as stated fails: this trailing text ends in a period, so the stated
    rule sends it to the body, yet the parser takes it as the title and the
    body stays empty. *)
Lemma title_rule_as_stated_fails :
  articleMatch (trim sentenceLine)
    = Some (js "5", js "Everyone has the right to privacy.")
  ∧ statedTitleRule (js "Everyone has the right to privacy.") = false
  ∧ currentArticleTitle (step initial sentenceLine)
    = js "Everyone has the right to privacy."
  ∧ currentContent (step initial sentenceLine) = [].
Proof. vm_compute. repeat split; reflexivity. Qed.

Lemma parse_merges_duplicates_witness :
  (1 < length (occurrences (js "1") (scan duplicatedText)))%nat
  ∧ ∃ ps i p,
      parseRussianText duplicatedText = Some ps
      ∧ ps !! i = Some p
      ∧ article p = js "1"
      ∧ (∀ j q, ps !! j = Some q → article q = js "1" → j = i)
      ∧ content p
        = join blankLine (content <$> occurrences (js "1") (scan duplicatedText))
      ∧ (∀ j q, ps !! j = Some q → order_index q = j).
Proof.
  split; [vm_compute; lia|].
  apply (parse_merges_duplicates duplicatedText (js "1")). vm_compute; lia.
Defined.

Lemma parse_keeps_first_title_witness :
  occurrences (js "1") (scan duplicatedText) = [firstOccurrence; laterOccurrence]
  ∧ ∃ ps i p,
      parseRussianText duplicatedText = Some ps
      ∧ ps !! i = Some p
      ∧ article p = js "1"
      ∧ (∀ j q, ps !! j = Some q → article q = js "1" → j = i)
      ∧ title p = js "Alpha"
      ∧ provision_ref p = js "1"
      ∧ content p = join blankLine [js "first body"; js "second body"].
Proof.
  split; [vm_compute; reflexivity|].
  apply (parse_keeps_first_title duplicatedText (js "1")
           firstOccurrence [laterOccurrence]).
  vm_compute; reflexivity.
Defined.

End ParserClaims.

(** ** Theorems on the client *)

Module FetcherClaims.
Import Js Fetcher FetcherSpec Samples.
Local Open Scope Z_scope.

Lemma sent_rateLimit n : sent (rateLimit n) = sent n.
Proof. unfold rateLimit. by destruct (_ <? _). Qed.

(** What the code does guarantee: two successive values of
    [lastRequestTime] lie at least the minimum interval apart. *)
Lemma rateLimit_spacing n :
  lastRequestTime n ≤ clock n →
  lastRequestTime n + MIN_DELAY_MS ≤ lastRequestTime (rateLimit n)
  ∧ clock (rateLimit n) = lastRequestTime (rateLimit n).
Proof.
  intros H. unfold rateLimit, sleep, timeout, TIMEOUT_MAX, MIN_DELAY_MS.
  destruct (Z.ltb_spec (clock n - lastRequestTime n) 1000); simpl; [|lia].
  destruct (Z.ltb_spec 2147483647 (1000 - (clock n - lastRequestTime n)));
    destruct (Z.ltb_spec (1000 - (clock n - lastRequestTime n)) 1);
    simpl; lia.
Qed.

Lemma attempts_unsuccessful R url maxRetries left :
  ∀ attempt n,
    Z.of_nat (S left) = maxRetries + 1 - attempt →
    (∀ k, (k ≤ left)%nat → unsuccessful (reply R (length (sent n) + k) url) = true) →
    fst (attempts R url maxRetries (S left) attempt n)
      = finalOutcome R url (reply R (length (sent n) + left) url)
    ∧ length (sent (snd (attempts R url maxRetries (S left) attempt n)))
      = (length (sent n) + S left)%nat.
Proof.
  induction left as [|left IH]; intros attempt n Hleft Hbad.
  - assert ((attempt <? maxRetries) = false) as Hlast.
    { apply Z.ltb_ge. lia. }
    rewrite Nat.add_0_r. cbn [attempts]. rewrite Hlast.
    unfold finalOutcome.
    destruct (settle (reply R (length (sent n)) url)) as [a m | a st ct [a' m | a' bs]];
      rewrite ?andb_false_r; simpl; rewrite ?length_app; simpl;
      split; (reflexivity || lia).
  - assert ((attempt <? maxRetries) = true) as Hmore.
    { apply Z.ltb_lt. lia. }
    pose proof (Hbad 0%nat ltac:(lia)) as H0. rewrite Nat.add_0_r in H0.
    assert (∀ n', sent n' = sent n ++ [(clock n, url)] →
              fst (attempts R url maxRetries (S left) (attempt + 1) n')
                = finalOutcome R url (reply R (length (sent n) + S left) url)
              ∧ length (sent (snd (attempts R url maxRetries (S left) (attempt + 1) n')))
                = (length (sent n) + S (S left))%nat) as Hnext.
    { intros n' Hn'.
      assert (length (sent n') = S (length (sent n))) as Hlen.
      { rewrite Hn', length_app. simpl. lia. }
      destruct (IH (attempt + 1) n') as [H1 H2]; [lia| |].
      - intros k Hk. rewrite Hlen.
        replace (S (length (sent n)) + k)%nat with (length (sent n) + S k)%nat by lia.
        apply Hbad. lia.
      - rewrite H1, H2, Hlen. split; [f_equal; f_equal; lia | lia]. }
    cbn [attempts]. rewrite Hmore.
    unfold unsuccessful in H0.
    destruct (settle (reply R (length (sent n)) url)) as [a m | a st ct [a' m | a' bs]];
      rewrite ?andb_true_r.
    + apply Hnext. reflexivity.
    + destruct (isRetryStatus st); apply Hnext; reflexivity.
    + rewrite H0. apply Hnext. reflexivity.
Qed.

(** C1, as the code has it: when every attempt up to the maximum is
    unsuccessful, all [maxRetries + 1] requests are sent and the last one
    decides.  If it fails, is aborted, or its body cannot be read, the call
    fails with that error.  If it is answered, whatever the status, 429 and
    5xx included, the call returns that response. *)
Theorem fetch_exhausted R url maxRetries n :
  0 ≤ maxRetries →
  (∀ k, (k ≤ Z.to_nat maxRetries)%nat →
        unsuccessful (reply R (length (sent n) + k) url) = true) →
  let final := settle (reply R (length (sent n) + Z.to_nat maxRetries) url) in
  let result := fetchWithRateLimit R url maxRetries n in
  length (sent (snd result)) = (length (sent n) + Z.to_nat maxRetries + 1)%nat
  ∧ match final with
    | Fails _ msg => fst result = inl (Thrown msg)
    | Answers _ _ _ (BodyFails _ msg) => fst result = inl (Thrown msg)
    | Answers _ st ct (BodyBytes _ bytes) =>
        isRetryStatus st = true
        ∧ fst result
          = inr {| status := st;
                   body := if needsWin1251 url (default [] ct)
                           then decodeWindows1251 R bytes else decodeText R bytes;
                   contentType := default [] ct |}
    end.
Proof.
  intros Hmax Hbad. cbv zeta. unfold fetchWithRateLimit.
  replace (Z.to_nat (maxRetries + 1)) with (S (Z.to_nat maxRetries)) by lia.
  destruct (attempts_unsuccessful R url maxRetries (Z.to_nat maxRetries) 0 (rateLimit n))
    as [H1 H2]; [lia | by rewrite sent_rateLimit |].
  rewrite sent_rateLimit in H1, H2. split; [lia|].
  rewrite H1. unfold finalOutcome.
  pose proof (Hbad (Z.to_nat maxRetries) ltac:(lia)) as Hlast.
  unfold unsuccessful in Hlast.
  destruct (settle _) as [a m | a st ct [a' m | a' bs]]; done.
Qed.

Lemma fetch_exhausted_witness :
  length (sent (snd (fetchWithRateLimit busy someUrl 3 epoch))) = 4%nat
  ∧ fst (fetchWithRateLimit busy someUrl 3 epoch)
    = inr {| status := 503; body := []; contentType := [] |}.
Proof.
  pose proof (fetch_exhausted busy someUrl 3 epoch) as H.
  destruct H as [H1 H2]; [lia | intros k _; reflexivity |].
  split; [exact H1 | exact (proj2 H2)].
Defined.

(** C1 as stated fails: each of the four attempts is answered with 503, and
    the call returns a result carrying that status instead of failing. *)
Lemma fetch_returns_final_503 :
  (∀ k, (k < 4)%nat → reply busy k someUrl = Answers 20 503 None (BodyBytes 0 []))
  ∧ fst (fetchWithRateLimit busy someUrl 3 epoch)
    = inr {| status := 503; body := []; contentType := [] |}.
Proof. split; [reflexivity | vm_compute; reflexivity]. Qed.

(** The scenario of the spec: 503 three times, then 200 on the fourth
    attempt. *)
Example fetch_recovers :
  fst (fetchWithRateLimit recovering someUrl 3 epoch)
  = inr {| status := 200; body := js "ok"; contentType := js "text/plain" |}.
Proof. vm_compute. reflexivity. Qed.

(** C2 at its failing input.  The first call is answered with 503 after
    100 ms, waits 2000 ms, and is answered with 200 after another 100 ms;
    the second call starts at once.  Its [rateLimit] compares the clock with
    the time the first call started, not with the time of the retry, and
    does not wait: the retry and the next request are 100 ms apart. *)
Lemma retry_not_rate_limited :
  let first := fetchWithRateLimit flaky firstUrl 3 epoch in
  let second := fetchWithRateLimit flaky secondUrl 3 (snd first) in
  (∃ r1 r2, fst first = inr r1 ∧ status r1 = 200
            ∧ fst second = inr r2 ∧ status r2 = 200)
  ∧ sent (snd second)
    = [ (1700000000000, firstUrl); (1700000002100, firstUrl);
        (1700000002200, secondUrl) ]
  ∧ 1700000002200 - 1700000002100 < MIN_DELAY_MS.
Proof. vm_compute. split; [eexists _, _|]; repeat split; reflexivity. Qed.

End FetcherClaims.

(** ** Properties of the orchestrator *)

Module IngestFacts.
Import Js Parser Fetcher Ingest IngestSpec.

Lemma files_fetchPhase P o e w : files (snd (fetchPhase P o e w)) = files w.
Proof. unfold fetchPhase. repeat case_match; reflexivity. Qed.

Lemma ingestLaw_cases P o e w : ingestCase P o e w (ingestLaw P o e w).
Proof.
  unfold ingestLaw.
  destruct (existingCount w e) as [count|] eqn:Hex; [by constructor|].
  case_bool_decide as Hc; [by constructor|].
  assert (classification e = ingestable) as Hi.
  { destruct (decide (classification e = ingestable)); done. }
  pose proof (files_fetchPhase P o e w) as Hfiles.
  destruct (fetchPhase P o e w) as [extracted w1] eqn:Hf. simpl in Hfiles.
  destruct (writeError P (seedPath e)) as [msg|] eqn:Hw; [by constructor|].
  rewrite Hfiles.
  apply case_written; try done.
  - destruct extracted; simpl; done.
  - rewrite Hf. simpl. intros ->. reflexivity.
Qed.

Lemma no_already c :
  includes (js "Classification: " ++ classificationName c) (js "already") = false.
Proof. destruct c; vm_compute; reflexivity. Qed.

(** One iteration records [resultOf] and moves to the world [ingestLaw]
    leaves. *)
Lemma processEntry_eq P o t w e :
  processEntry P o (t, w) e
  = (tallyPush t (resultOf P o e w), snd (ingestLaw P o e w)).
Proof.
  unfold processEntry, resultOf, tallyPush.
  destruct (ingestLaw_cases P o e w);
    cbn -[includes Lit.js app classificationName]; try reflexivity.
  rewrite no_already. reflexivity.
Qed.

Lemma entry_resultOf P o e w : entry (resultOf P o e w) = e.
Proof. unfold resultOf. destruct (ingestLaw_cases P o e w); reflexivity. Qed.

Lemma loop_cons P o e l t w :
  loop P o (e :: l) (t, w)
  = loop P o l (tallyPush t (resultOf P o e w), snd (ingestLaw P o e w)).
Proof. unfold loop. cbn [fold_left]. by rewrite processEntry_eq. Qed.

Lemma loop_app P o l1 l2 acc :
  loop P o (l1 ++ l2) acc = loop P o l2 (loop P o l1 acc).
Proof. unfold loop. apply fold_left_app. Qed.

(** The loop appends one result per entry, in order. *)
Lemma loop_results P o l t w :
  ∃ rs, results (fst (loop P o l (t, w))) = results t ++ rs
        ∧ entry <$> rs = l.
Proof.
  revert t w. induction l as [|e l IH]; intros t w.
  - exists []. by rewrite app_nil_r.
  - rewrite loop_cons.
    destruct (IH (tallyPush t (resultOf P o e w)) (snd (ingestLaw P o e w)))
      as (rs & Hrs & Hent).
    exists (resultOf P o e w :: rs). split.
    + rewrite Hrs. simpl. by rewrite <- app_assoc.
    + by rewrite fmap_cons, entry_resultOf, Hent.
Qed.

(** The result recorded for an entry is [resultOf] in the world that the
    entries before it leave. *)
Lemma loop_result_at P o before e after w :
  results (fst (loop P o (before ++ e :: after) (emptyTally, w))) !! length before
  = Some (resultOf P o e (snd (loop P o before (emptyTally, w)))).
Proof.
  rewrite loop_app.
  destruct (loop_results P o before emptyTally w) as (rs1 & Hrs1 & Hent1).
  destruct (loop P o before (emptyTally, w)) as [t1 w1] eqn:Hl1.
  simpl in Hrs1. rewrite loop_cons.
  destruct (loop_results P o after (tallyPush t1 (resultOf P o e w1))
              (snd (ingestLaw P o e w1))) as (rs3 & Hrs3 & _).
  rewrite Hrs3. simpl. rewrite Hrs1.
  assert (length before = length rs1) as ->.
  { by rewrite <- Hent1, length_fmap. }
  rewrite <- app_assoc. rewrite lookup_app_r by done.
  by rewrite Nat.sub_diag.
Qed.

Lemma counted_push t r : counted t → counted (tallyPush t r).
Proof.
  intros [Hs Hf]. unfold counted, tallyPush. simpl.
  rewrite !filter_app, !length_app, !filter_cons, !filter_nil.
  destruct (ingested r) eqn:Hr; simpl; lia.
Qed.

Lemma loop_counted P o l t w : counted t → counted (fst (loop P o l (t, w))).
Proof.
  revert t w. induction l as [|e l IH]; intros t w Ht; [done|].
  rewrite loop_cons. by apply IH, counted_push.
Qed.

(** *** Seed files stay usable *)








(** *** Validation *)

Lemma allPresent_fold (census : list CensusEntry) reqs b :
  fold_left
    (λ present (req : jsstring * jsstring),
       match find (λ e, bool_decide (id e = fst req)) census with
       | Some _ => present
       | None => false
       end) reqs b = true
  ↔ b = true ∧ ∀ req, req ∈ reqs → ∃ e, e ∈ census ∧ id e = fst req.
Proof.
  revert b. induction reqs as [|req reqs IH]; intros b; simpl.
  - split; [intros ->; split; [done|by intros ? ?%elem_of_nil] | by intros [-> _]].
  - rewrite IH. split.
    + intros [Hb Hrest].
      destruct (find _ census) as [e|] eqn:Hfind; [|done].
      split; [done|]. intros r [->|Hr]%elem_of_cons; [|by apply Hrest].
      apply find_some in Hfind as [Hin Hid].
      apply bool_decide_eq_true in Hid.
      exists e. split; [by apply list_elem_of_In|done].
    + intros [-> Hall]. split.
      * destruct (Hall req ltac:(left)) as (e & Hin & Hid).
        destruct (find _ census) eqn:Hfind; [done|].
        eapply find_none in Hfind; [|by apply list_elem_of_In].
        simpl in Hfind. by apply bool_decide_eq_false in Hfind.
      * intros r Hr. apply Hall. by right.
Qed.

Lemma allPresent_fold_false (census : list CensusEntry) reqs b :
  fold_left
    (λ present (req : jsstring * jsstring),
       match find (λ e, bool_decide (id e = fst req)) census with
       | Some _ => present
       | None => false
       end) reqs b = false →
  b = false ∨ ∃ req, req ∈ reqs ∧ ∀ e, e ∈ census → id e ≠ fst req.
Proof.
  revert b. induction reqs as [|req reqs IH]; intros b; simpl; [by left|].
  intros [Hb | (r & Hr & Hno)]%IH.
  - destruct (find _ census) eqn:Hfind; [by left|]. right.
    exists req. split; [left|]. intros e Hin.
    eapply find_none in Hfind; [|by apply list_elem_of_In].
    simpl in Hfind. by apply bool_decide_eq_false in Hfind.
  - right. exists r. split; [by right|done].
Qed.

Lemma allPresent_false census :
  allPresent census = false →
  ∃ req, req ∈ requiredLaws ∧ ∀ e, e ∈ census → id e ≠ fst req.
Proof. by intros [?|?]%allPresent_fold_false. Qed.

Lemma allPresent_iff census :
  allPresent census = true
  ↔ ∀ req, req ∈ requiredLaws → ∃ e, e ∈ census ∧ id e = fst req.
Proof. unfold allPresent. rewrite allPresent_fold. split; [by intros [_ H]|done]. Qed.

Lemma toProcess_ingestable o census e :
  e ∈ toProcess o census → classification e = ingestable.
Proof.
  unfold toProcess. intros He.
  assert (e ∈ filter (λ e, classification e = ingestable) census) as Hin.
  { destruct (0 <? limit o)%Z; [|done]. by eapply subseteq_take. }
  by apply list_elem_of_filter in Hin as [? _].
Qed.

(** *** Paths *)

Lemma seedPath_not_census e : seedPath e ≠ CENSUS_PATH.
Proof. unfold seedPath, CENSUS_PATH. intros H. vm_compute in H. discriminate. Qed.

Lemma euRefPath_not_census : euRefPath ≠ CENSUS_PATH.
Proof. intros H. vm_compute in H. discriminate. Qed.


(** *** What the steps of a run leave untouched *)

Lemma files_ingestLaw_other P o e w path :
  seedPath e ≠ path →
  files (snd (ingestLaw P o e w)) !! path = files w !! path.
Proof.
  intros Hne.
  destruct (ingestLaw_cases P o e w) as [ | |msg w1 _ _ _ Hfiles|ps seed n1];
    simpl; try done.
  - by rewrite Hfiles.
  - by rewrite lookup_insert_ne.
Qed.

Lemma files_loop_other P o l t w path :
  (∀ e, e ∈ l → seedPath e ≠ path) →
  files (snd (loop P o l (t, w))) !! path = files w !! path.
Proof.
  revert t w. induction l as [|e l IH]; intros t w Hl; [done|].
  rewrite loop_cons, IH by (intros e' He'; apply Hl; by right).
  apply files_ingestLaw_other, Hl. left.
Qed.

Lemma writeEuReferences_cases P census w :
  writeEuReferences P census w = (None, w) ∧ euReferenceSeeds census = []
  ∨ (∃ msg, writeError P euRefPath = Some msg
            ∧ euReferenceSeeds census ≠ []
            ∧ writeEuReferences P census w = (Some msg, w))
  ∨ (writeError P euRefPath = None
     ∧ euReferenceSeeds census ≠ []
     ∧ writeEuReferences P census w
       = (None, writeFile euRefPath (EuJson (euReferenceSeeds census)) w)).
Proof.
  unfold writeEuReferences.
  destruct (euReferenceSeeds census) as [|r refs] eqn:Hrefs; [by left|right].
  simpl. destruct (writeError P euRefPath) as [msg|]; [left|right]; eauto.
Qed.



Lemma files_writeEuReferences_other P census w path :
  path ≠ euRefPath →
  files (snd (writeEuReferences P census w)) !! path = files w !! path.
Proof.
  intros Hne.
  destruct (writeEuReferences_cases P census w)
    as [[-> _]|[(msg & _ & _ & ->)|(_ & _ & ->)]]; simpl; try done.
  by rewrite lookup_insert_ne.
Qed.


End IngestFacts.

(** ** Theorems on the orchestrator *)

Module IngestClaims.
Import Js Parser Fetcher Ingest IngestSpec IngestFacts Samples.

Lemma runIngestion_loop P o census w :
  runIngestion P o census w
  = match dirError P SEED_DIR with
    | Some msg => (RaisedEarly msg, w)
    | None =>
        match writeEuReferences P census (worldAfter P o census w) with
        | (Some msg, w2) => (RaisedEarly msg, w2)
        | (None, w2) =>
            match readJson P w2 CENSUS_PATH with
            | inl msg => (Reported (summaryOf P o census w) (Some msg), w2)
            | inr parsed =>
                match writeError P CENSUS_PATH with
                | Some msg => (Reported (summaryOf P o census w) (Some msg), w2)
                | None =>
                    (Reported (summaryOf P o census w) None,
                     writeFile CENSUS_PATH
                       (withIngestion parsed
                          (ingestionRecord (length (toProcess o census))
                             (fst (loop P o (toProcess o census) (emptyTally, w)))
                             w2))
                       w2)
                end
            end
        end
    end.
Proof.
  unfold runIngestion, summaryOf, worldAfter, loop.
  destruct (dirError P SEED_DIR); [done|].
  by destruct (fold_left (processEntry P o) (toProcess o census) (emptyTally, w)).
Qed.

Lemma runIngestion_reported P o census w r raised :
  fst (runIngestion P o census w) = Reported r raised →
  r = summaryOf P o census w
  ∧ dirError P SEED_DIR = None
  ∧ fst (writeEuReferences P census (worldAfter P o census w)) = None.
Proof.
  rewrite runIngestion_loop.
  destruct (dirError P SEED_DIR); [done|].
  destruct (writeEuReferences P census (worldAfter P o census w)) as [[msg|] w2];
    [done|].
  destruct (readJson P w2 CENSUS_PATH); [by intros [= <- _]|].
  destruct (writeError P CENSUS_PATH); by intros [= <- _].
Qed.


Lemma counted_empty : counted emptyTally.
Proof. by split. Qed.

Lemma failed_laws_sub n t pair :
  pair ∈ failed_laws (report n t) → pair ∈ failurePairs (results t).
Proof.
  unfold report. simpl. repeat case_match; try done; by intros ?%elem_of_nil.
Qed.

(** The entry of a pair of the failure list has a result that is not
    ingested. *)
Lemma failurePairs_inv rs i reason :
  (i, reason) ∈ failurePairs rs →
  ∃ j x, rs !! j = Some x ∧ ingested x = false ∧ id (entry x) = i.
Proof.
  unfold failurePairs. intros (x & [= -> _] & Hx)%list_elem_of_fmap.
  apply list_elem_of_filter in Hx as [Hing Hin].
  apply list_elem_of_lookup in Hin as [j Hj]. eauto.
Qed.

(** C9: an ingestable entry that is not skipped, whose fetch returns status
    200 with a body of at most 100 code units, is persisted as a seed file
    with one provision: article and reference key "0", index 0, the title of
    the entry, and as body the description (or title) of the entry followed
    by the fixed text and the source address. *)
Theorem short_body_yields_placeholder P o e w result n' :
  skipFetch o = false →
  classification e = ingestable →
  existingCount w e = None →
  fetchPravoLawText (remote P) (nd e) (net w) = (inr result, n') →
  Fetcher.status result = 200%Z →
  (length (body result) ≤ 100)%nat →
  writeError P (seedPath e) = None →
  ∃ seed,
    files (snd (ingestLaw P o e w)) !! seedPath e = Some (SeedJson seed)
    ∧ provisions seed
      = [ {| article := js "0";
             Parser.title := title e;
             content := describe e ++ placeholderText ++ source_url e;
             provision_ref := js "0";
             order_index := 0 |} ].
Proof.
  intros Hskip Hcls Hex Hfetch Hst Hlen Hwr.
  assert (fst (fetchPhase P o e w) = []) as Hnone.
  { unfold fetchPhase. rewrite Hskip, Hfetch, Hst.
    replace (100 <? length (body result))%nat with false
      by (symmetry; apply Nat.ltb_ge; lia).
    reflexivity. }
  destruct (ingestLaw_cases P o e w)
    as [c Hc| |msg w1 _ _ Hw _|ps seed n1 _ _ _ _ Hps Hph]; try congruence.
  exists seed. simpl. rewrite lookup_insert_eq. split; [done|].
  rewrite Hps. by apply Hph.
Qed.

Lemma short_body_yields_placeholder_witness :
  ∃ seed,
    files (snd (ingestLaw tiny fullRun personalData fresh)) !! seedPath personalData
      = Some (SeedJson seed)
    ∧ provisions seed
      = [ {| article := js "0";
             Parser.title := title personalData;
             content := describe personalData ++ placeholderText
                        ++ source_url personalData;
             provision_ref := js "0";
             order_index := 0 |} ].
Proof.
  eapply (short_body_yields_placeholder tiny fullRun personalData fresh).
  - reflexivity.
  - reflexivity.
  - reflexivity.
  - vm_compute. reflexivity.
  - reflexivity.
  - vm_compute. lia.
  - reflexivity.
Defined.

(** C3, as the code has it: an entry of the run that is not skipped, for
    which nothing was extracted (the fetch was skipped or failed, the answer
    was too short or no 200, or the parse found nothing) and whose seed file
    is written, is stored with the placeholder and recorded as ingested with
    one provision and no error.  It is among the successes that the
    coverage counts, and the failure list has no pair for it. *)
Theorem placeholder_counts_as_success P o census w before e after :
  toProcess o census = before ++ e :: after →
  NoDup (id <$> toProcess o census) →
  existingCount (snd (loop P o before (emptyTally, w))) e = None →
  fst (fetchPhase P o e (snd (loop P o before (emptyTally, w)))) = [] →
  writeError P (seedPath e) = None →
  ∀ r raised,
  fst (runIngestion P o census w) = Reported r raised →
  run_results r !! length before
    = Some {| entry := e; ingested := true; provision_count := 1; error := None |}
  ∧ success_count r = length (filter (λ x, ingested x = true) (run_results r))
  ∧ (∀ reason, (id e, reason) ∉ failed_laws r)
  ∧ ∃ seed,
      files (snd (ingestLaw P o e (snd (loop P o before (emptyTally, w)))))
        !! seedPath e = Some (SeedJson seed)
      ∧ provisions seed = [placeholder e].
Proof.
  intros Hsplit Hnodup Hex Hnone Hwr r raised Hrun.
  apply runIngestion_reported in Hrun as (-> & _ & _).
  set (r := summaryOf P o census w).
  set (wi := snd (loop P o before (emptyTally, w))) in *.
  assert (resultOf P o e wi
          = {| entry := e; ingested := true; provision_count := 1; error := None |}
          ∧ ∃ seed, files (snd (ingestLaw P o e wi)) !! seedPath e = Some (SeedJson seed)
                    ∧ provisions seed = [placeholder e]) as [Hres Hseed].
  { unfold resultOf.
    destruct (ingestLaw_cases P o e wi)
      as [c Hc| |msg w1 _ _ Hw _|ps seed n1 _ _ _ _ Hps Hph]; try congruence.
    - exfalso. assert (e ∈ toProcess o census) as Hin.
      { rewrite Hsplit. apply elem_of_app. right. left. }
      apply toProcess_ingestable in Hin. done.
    - specialize (Hph Hnone). subst ps. rewrite Hph. simpl. split; [done|].
      exists seed. by rewrite lookup_insert_eq. }
  assert (run_results r = results (fst (loop P o (toProcess o census) (emptyTally, w))))
    as Hrr.
  { reflexivity. }
  assert (run_results r !! length before = Some (resultOf P o e wi)) as Hat.
  { rewrite Hrr, Hsplit. apply loop_result_at. }
  split; [by rewrite Hat, Hres|]. split; [|split; [|done]].
  - apply (loop_counted P o _ emptyTally w counted_empty).
  - intros reason Hin.
    apply failed_laws_sub, failurePairs_inv in Hin as (j & x & Hj & Hing & Hid).
    rewrite <- Hrr in Hj.
    destruct (loop_results P o (toProcess o census) emptyTally w) as (rs & Hrs & Hent).
    simpl in Hrs. rewrite <- Hrr in Hrs. subst rs.
    assert ((id <$> toProcess o census) !! j = Some (id e)) as H1.
    { rewrite <- Hent, <- list_fmap_compose, list_lookup_fmap, Hj. simpl.
      by rewrite Hid. }
    assert ((id <$> toProcess o census) !! length before = Some (id e)) as H2.
    { rewrite Hsplit, list_lookup_fmap, lookup_app_r, Nat.sub_diag by done.
      reflexivity. }
    pose proof (NoDup_lookup _ _ _ _ Hnodup H1 H2) as ->.
    rewrite Hat, Hres in Hj. injection Hj as <-. done.
Qed.

Lemma placeholder_counts_as_success_witness :
  let r := summaryOf offline fullRun fullCatalog surveyed in
  fst (runIngestion offline fullRun fullCatalog surveyed) = Reported r None
  ∧ run_results r !! 3%nat
    = Some {| entry := personalData; ingested := true; provision_count := 1;
              error := None |}
  ∧ success_count r = length (filter (λ x, ingested x = true) (run_results r))
  ∧ (∀ reason, (id personalData, reason) ∉ failed_laws r)
  ∧ ∃ seed,
      files (snd (ingestLaw offline fullRun personalData
                    (snd (loop offline fullRun earlier (emptyTally, surveyed)))))
        !! seedPath personalData = Some (SeedJson seed)
      ∧ provisions seed = [placeholder personalData].
Proof.
  split; [vm_compute; reflexivity|].
  apply (placeholder_counts_as_success offline fullRun fullCatalog surveyed
           earlier personalData later) with (raised := None).
  - reflexivity.
  - apply (bool_decide_unpack _). vm_compute. exact I.
  - vm_compute. reflexivity.
  - vm_compute. reflexivity.
  - reflexivity.
  - vm_compute. reflexivity.
Defined.

(** C3 as stated fails.  No request of the run over the full catalog is
    answered; each of its six entries gets a seed file with the placeholder,
    and the run reports six successes, no failure and an empty failure
    list. *)
Lemma failed_fetch_reported_as_success :
  let run := main offline fullRun fullCatalog fresh in
  (∀ k url, reply (remote offline) k url = Fails 30 (js "fetch failed"))
  ∧ length (sent (net (snd run))) = 24%nat
  ∧ stored (snd run) <$> toProcess fullRun fullCatalog
    = (λ e, Some [placeholder e]) <$> toProcess fullRun fullCatalog
  ∧ total_processed <$> reported (fst run) = Some 6%nat
  ∧ success_count <$> reported (fst run) = Some 6%nat
  ∧ fail_count <$> reported (fst run) = Some 0%nat
  ∧ failed_laws <$> reported (fst run) = Some [].
Proof. split; [done|]. vm_compute. repeat split; reflexivity. Qed.

Lemma runCensus_cases P census w :
  (allPresent census = false ∧ runCensus P census w = (MissingLaws, w))
  ∨ (allPresent census = true
     ∧ ∃ msg, (dirError P DATA_DIR = Some msg
               ∨ (dirError P DATA_DIR = None ∧ writeError P CENSUS_PATH = Some msg))
              ∧ runCensus P census w = (CensusRaised msg, w))
  ∨ (allPresent census = true
     ∧ dirError P DATA_DIR = None
     ∧ writeError P CENSUS_PATH = None
     ∧ runCensus P census w
       = (CensusDone census,
          writeFile CENSUS_PATH (CensusJson (censusOutput census w)) w)).
Proof.
  unfold runCensus.
  destruct (allPresent census); [right|by left].
  destruct (dirError P DATA_DIR) as [msg|]; [left; eauto|].
  destruct (writeError P CENSUS_PATH) as [msg|]; [left; eauto 10|by right].
Qed.







Lemma counted_total t :
  counted t → (successCount t + failCount t)%nat = length (results t).
Proof.
  intros [-> ->]. induction (results t) as [|x l IH]; [done|].
  rewrite !filter_cons. destruct (ingested x); simpl; lia.
Qed.

Lemma length_results_loop P o l w :
  length (results (fst (loop P o l (emptyTally, w)))) = length l.
Proof.
  destruct (loop_results P o l emptyTally w) as (rs & -> & <-).
  simpl. by rewrite length_fmap.
Qed.

(** A result that is not ingested is on the failure list of the report. *)
Lemma failure_listed P o l w x :
  x ∈ results (fst (loop P o l (emptyTally, w))) →
  ingested x = false →
  (id (entry x), reasonOf x)
    ∈ failed_laws (report (length l) (fst (loop P o l (emptyTally, w)))).
Proof.
  intros Hin Hing.
  pose proof (loop_counted P o l emptyTally w counted_empty) as Hc.
  pose proof (counted_total _ Hc) as Htot.
  rewrite length_results_loop in Htot.
  assert (0 < failCount (fst (loop P o l (emptyTally, w))))%nat as Hpos.
  { destruct Hc as [_ ->].
    assert (x ∈ filter (λ r, ingested r = false)
                  (results (fst (loop P o l (emptyTally, w))))) as Hx
      by (by apply list_elem_of_filter).
    destruct (filter _ _); [by apply elem_of_nil in Hx | simpl; lia]. }
  unfold report. simpl.
  replace (successCount _ =? length l)%nat with false
    by (symmetry; apply Nat.eqb_neq; lia).
  replace (0 <? failCount _)%nat with true
    by (symmetry; apply Nat.ltb_lt; lia).
  unfold failurePairs.
  apply (list_elem_of_fmap_2 (λ r, (id (entry r), reasonOf r))).
  by apply list_elem_of_filter.
Qed.

(** Between the census phase and the update of the snapshot nothing
    touches the census snapshot. *)
Lemma census_kept P o census w0 :
  files (snd (writeEuReferences P census (worldAfter P o census w0))) !! CENSUS_PATH
  = files w0 !! CENSUS_PATH.
Proof.
  rewrite files_writeEuReferences_other
    by (intros H; symmetry in H; by apply euRefPath_not_census).
  unfold worldAfter. apply files_loop_other. intros e _. apply seedPath_not_census.
Qed.

(** C8, as the code has it: a catalog that lacks one of the required
    identifiers makes the run exit with status 1 in the world it started in,
    so that no request is sent.  The run exits, always with status 1, only
    for that reason or because a call outside the loop over the entries
    raised: making sure of the data directory or of the seed directory,
    writing the census snapshot or the file of EU references, or reading the
    census snapshot back.  When none of this happens the full run finishes
    with one result per entry to process, in order: an entry whose
    processing raises is recorded as not ingested with the message raised,
    and every result that is not ingested is on the failure list. *)
Theorem validation_and_snapshot_writes_abort P o census w :
  (∀ req, req ∈ requiredLaws → (∀ e, e ∈ census → id e ≠ fst req) →
     main P o census w = (Exited 1 None, w))
  ∧ (∀ code s, fst (main P o census w) = Exited code s →
       code = 1%Z
       ∧ ((∃ req, req ∈ requiredLaws ∧ ∀ e, e ∈ census → id e ≠ fst req)
          ∨ is_Some (dirError P DATA_DIR)
          ∨ is_Some (writeError P CENSUS_PATH)
          ∨ is_Some (dirError P SEED_DIR)
          ∨ (euReferenceSeeds census ≠ [] ∧ is_Some (writeError P euRefPath))
          ∨ is_Some (readError P CENSUS_PATH)))
  ∧ ((∀ req, req ∈ requiredLaws → ∃ e, e ∈ census ∧ id e = fst req) →
     censusOnly o = false →
     dirError P DATA_DIR = None →
     writeError P CENSUS_PATH = None →
     dirError P SEED_DIR = None →
     (euReferenceSeeds census ≠ [] → writeError P euRefPath = None) →
     readError P CENSUS_PATH = None →
     ∃ r,
       fst (main P o census w) = Finished (Some r)
       ∧ entry <$> run_results r = toProcess o census
       ∧ total_processed r = length (toProcess o census)
       ∧ (∀ before e after msg,
            toProcess o census = before ++ e :: after →
            fst (ingestLaw P o e
                   (snd (loop P o before (emptyTally, snd (runCensus P census w)))))
              = inl msg →
            run_results r !! length before
              = Some {| entry := e; ingested := false; provision_count := 0;
                        error := Some msg |})
       ∧ (∀ x, x ∈ run_results r → ingested x = false →
            (id (entry x), reasonOf x) ∈ failed_laws r)).
Proof.
  assert (∀ w0 : World,
            files w0 !! CENSUS_PATH = Some (CensusJson (censusOutput census w)) →
            readError P CENSUS_PATH = None →
            readJson P (snd (writeEuReferences P census (worldAfter P o census w0)))
              CENSUS_PATH
            = inr (CensusJson (censusOutput census w))) as Hread.
  { intros w0 Hfile Hre. unfold readJson. by rewrite Hre, census_kept, Hfile. }
  assert (files (writeFile CENSUS_PATH (CensusJson (censusOutput census w)) w)
            !! CENSUS_PATH = Some (CensusJson (censusOutput census w))) as Hfile.
  { unfold writeFile. simpl. apply lookup_insert_eq. }
  split; [|split].
  - intros req Hreq Hmissing. unfold main.
    destruct (runCensus_cases P census w)
      as [[_ ->]|[(Hall & _)|(Hall & _)]]; [done| |];
      rewrite allPresent_iff in Hall;
      destruct (Hall req Hreq) as (e & Hin & Hid); by destruct (Hmissing e Hin).
  - intros code s. unfold main.
    destruct (runCensus_cases P census w)
      as [[Hall ->]|[(_ & msg & Hwhy & ->)|(_ & Hdd & Hcw & ->)]].
    + intros [= <- _]. split; [done|]. left. by apply allPresent_false.
    + intros [= <- _]. split; [done|]. right.
      destruct Hwhy as [Hd|[_ Hc]]; [left|right; left]; eauto.
    + destruct (censusOnly o); [done|].
      rewrite runIngestion_loop.
      destruct (dirError P SEED_DIR) as [msg|] eqn:Hsd.
      { intros [= <- _]. split; [done|]. do 3 right. left. eauto. }
      pose proof (Hread _ Hfile) as Hread'.
      destruct (writeEuReferences_cases P census (worldAfter P o census
                  (writeFile CENSUS_PATH (CensusJson (censusOutput census w)) w)))
        as [[Heu _]|[(msg & Hw & Hne & Heu)|(_ & _ & Heu)]];
        rewrite Heu in *; cbn [fst snd] in *.
      * destruct (readError P CENSUS_PATH) as [msg|] eqn:Hre.
        { unfold readJson. rewrite Hre.
          intros [= <- _]. split; [done|]. do 5 right. eauto. }
        rewrite (Hread' eq_refl), Hcw. done.
      * intros [= <- _]. split; [done|]. do 4 right. left. eauto.
      * destruct (readError P CENSUS_PATH) as [msg|] eqn:Hre.
        { unfold readJson. rewrite Hre.
          intros [= <- _]. split; [done|]. do 5 right. eauto. }
        rewrite (Hread' eq_refl), Hcw. done.
  - intros Hall Honly Hdd Hcw Hsd Hew Hre. apply allPresent_iff in Hall.
    unfold main.
    assert (runCensus P census w
            = (CensusDone census,
               writeFile CENSUS_PATH (CensusJson (censusOutput census w)) w)) as Hrc.
    { destruct (runCensus_cases P census w)
        as [[? _]|[(_ & msg & [?|[_ ?]] & _)|(_ & _ & _ & ->)]];
        try congruence; reflexivity. }
    rewrite Hrc, Honly, runIngestion_loop, Hsd. cbn [snd].
    set (w0 := writeFile CENSUS_PATH (CensusJson (censusOutput census w)) w) in *.
    pose proof (Hread w0 Hfile Hre) as Hread'.
    assert (fst (writeEuReferences P census (worldAfter P o census w0)) = None) as Heu.
    { destruct (writeEuReferences_cases P census (worldAfter P o census w0))
        as [[-> _]|[(msg & Hw & Hne & _)|(_ & _ & ->)]]; try done.
      rewrite (Hew Hne) in Hw. done. }
    destruct (writeEuReferences P census (worldAfter P o census w0)) as [eu w2].
    cbn [fst snd] in *. subst eu. rewrite Hread', Hcw.
    eexists. split; [reflexivity|]. unfold summaryOf. cbn [run_results report total_processed].
    destruct (loop_results P o (toProcess o census) emptyTally w0) as (rs & Hrs & Hent).
    simpl in Hrs. split; [by rewrite Hrs|]. split; [done|]. split.
    + intros before e after msg Hsplit Hraise.
      rewrite Hsplit, loop_result_at. unfold resultOf. by rewrite Hraise.
    + intros x Hx Hing. by apply failure_listed.
Qed.

Lemma validation_and_snapshot_writes_abort_witness :
  main offline fullRun brokenCatalog fresh = (Exited 1 None, fresh)
  ∧ ∃ r,
      fst (main oneBadFile fullRun fullCatalog fresh) = Finished (Some r)
      ∧ entry <$> run_results r = toProcess fullRun fullCatalog
      ∧ run_results r !! 0%nat
        = Some {| entry := sampleEntry "constitution-rf" "102027595" ingestable;
                  ingested := false; provision_count := 0;
                  error := Some (js "EACCES: permission denied") |}
      ∧ (js "constitution-rf", js "EACCES: permission denied") ∈ failed_laws r.
Proof.
  split.
  - apply (proj1 (validation_and_snapshot_writes_abort offline fullRun brokenCatalog fresh)
             (js "uk-rf", js "Criminal Code")).
    + unfold requiredLaws. apply list_elem_of_further, list_elem_of_here.
    + intros e He. unfold brokenCatalog in He.
      apply list_elem_of_filter in He as [Hne _]. exact Hne.
  - destruct (proj2 (proj2 (validation_and_snapshot_writes_abort
                              oneBadFile fullRun fullCatalog fresh)))
      as (r & Hmain & Hent & _ & Hraise & Hlisted).
    + apply allPresent_iff. vm_compute. reflexivity.
    + reflexivity.
    + reflexivity.
    + reflexivity.
    + reflexivity.
    + reflexivity.
    + reflexivity.
    + exists r. split; [exact Hmain|]. split; [exact Hent|].
      assert (run_results r !! 0%nat
              = Some {| entry := sampleEntry "constitution-rf" "102027595" ingestable;
                        ingested := false; provision_count := 0;
                        error := Some (js "EACCES: permission denied") |}) as Hat.
      { apply (Hraise [] (sampleEntry "constitution-rf" "102027595" ingestable)
                 (tail (toProcess fullRun fullCatalog))
                 (js "EACCES: permission denied"));
          vm_compute; reflexivity. }
      split; [exact Hat|].
      pose proof (Hlisted _ (list_elem_of_lookup_2 _ _ _ Hat) eq_refl) as HL.
      assert ((js "constitution-rf", js "EACCES: permission denied")
              = (id (entry {| entry := sampleEntry "constitution-rf" "102027595" ingestable;
                              ingested := false; provision_count := 0;
                              error := Some (js "EACCES: permission denied") |}),
                 reasonOf {| entry := sampleEntry "constitution-rf" "102027595" ingestable;
                             ingested := false; provision_count := 0;
                             error := Some (js "EACCES: permission denied") |})) as ->.
      { vm_compute. reflexivity. }
      exact HL.
Defined.

(** C8 as stated fails: the catalog holds every required law, but the
    census snapshot cannot be written; the run exits with status 1 before
    any entry is processed, for a reason other than catalog validation. *)
Lemma unwritable_snapshot_aborts :
  allPresent fullCatalog = true
  ∧ main readOnlyData fullRun fullCatalog fresh = (Exited 1 None, fresh).
Proof. vm_compute. split; reflexivity. Qed.

End IngestClaims.

(** ** Further properties of the parser *)

Module ParserExtras.
Import Js Parser ParserSpec ExtraSpec ExtraSamples ParserFacts DedupFacts ParserClaims.

(** *** Spans and trimming *)

Lemma span_app p s : s = fst (span p s) ++ snd (span p s).
Proof.
  induction s as [|c s IH]; [done|]. simpl.
  destruct (p c); [|done]. destruct (span p s). simpl in *. by f_equal.
Qed.

Lemma span_all p s : Forall (λ c, p c = true) (fst (span p s)).
Proof.
  induction s as [|c s IH]; simpl; [constructor|].
  destruct (p c) eqn:Hc; [|constructor]. destruct (span p s). simpl in *.
  by constructor.
Qed.

Lemma span_stop p s c : head (snd (span p s)) = Some c → p c = false.
Proof.
  induction s as [|x s IH]; simpl; [done|].
  destruct (p x) eqn:Hx.
  - destruct (span p s). simpl in *. done.
  - simpl. by intros [= <-].
Qed.

Lemma skip_snoc p s c : p c = false → skip p (s ++ [c]) = skip p s ++ [c].
Proof.
  intros Hc. unfold skip. induction s as [|x s IH]; simpl.
  - by rewrite Hc.
  - destruct (p x); [|done].
    destruct (span p (s ++ [c])), (span p s). simpl in *. done.
Qed.

Lemma head_rev (s : list N) : head (rev s) = last s.
Proof.
  induction s as [|x s IH] using rev_ind; [done|].
  by rewrite rev_app_distr, last_snoc.
Qed.

Lemma last_rev (s : list N) : last (rev s) = head s.
Proof. by rewrite <- head_rev, rev_involutive. Qed.

Lemma trimEnd_keeps_head s c :
  head s = Some c → isWhiteSpace c = false → head (trimEnd s) = Some c.
Proof.
  destruct s as [|x s]; [done|]. intros [= ->] Hc. unfold trimEnd.
  simpl rev. rewrite skip_snoc by done. rewrite rev_app_distr. reflexivity.
Qed.

Lemma trim_trimmed s : Trimmed (trim s).
Proof.
  unfold trim, trimStart. split.
  - intros c Hc.
    destruct (skip isWhiteSpace s) as [|x t] eqn:Hs; [done|].
    assert (isWhiteSpace x = false) as Hx.
    { apply (span_stop isWhiteSpace s). unfold skip in Hs. by rewrite Hs. }
    rewrite (trimEnd_keeps_head (x :: t) x) in Hc by done.
    by injection Hc as <-.
  - intros c Hc. unfold trimEnd in Hc. rewrite last_rev in Hc.
    by apply span_stop in Hc.
Qed.

(** *** Joining trimmed pieces *)

Lemma head_join sep (x : list N) l : x ≠ [] → head (join sep (x :: l)) = head x.
Proof. intros Hx. destruct x; [done|]. by destruct l. Qed.

Lemma last_join sep (l : list (list N)) x :
  Forall (λ y, y ≠ []) (x :: l) →
  last (join sep (x :: l)) = last (default x (last l)).
Proof.
  revert x. induction l as [|y l IH]; intros x Hall; [done|].
  inversion Hall as [|? ? Hx Hl]; subst.
  change (join sep (x :: y :: l)) with (x ++ sep ++ join sep (y :: l)).
  assert (join sep (y :: l) ≠ []) as Hne.
  { apply join_nonempty. by inversion Hl. }
  rewrite !app_assoc, last_app.
  destruct (last (join sep (y :: l))) eqn:Hlast.
  - rewrite IH in Hlast by done. rewrite <- Hlast.
    destruct l as [|z l]; [done|]. rewrite last_cons_cons.
    destruct (last (z :: l)) eqn:Hz; [done|]. by apply last_None in Hz.
  - apply last_None in Hlast. done.
Qed.

Lemma trimmed_join sep (l : list (list N)) x :
  Forall (λ y, y ≠ [] ∧ Trimmed y) (x :: l) → Trimmed (join sep (x :: l)).
Proof.
  intros Hall.
  assert (Forall (λ y : list N, y ≠ []) (x :: l)) as Hne.
  { eapply Forall_impl; [done|]. by intros ? [? _]. }
  split; intros c Hc.
  - rewrite head_join in Hc by (by inversion Hne).
    inversion Hall as [|? ? [_ [Hh _]] _]; subst. by apply Hh.
  - rewrite last_join in Hc by done.
    assert (default x (last l) ∈ x :: l) as Hin.
    { destruct (last l) eqn:Hl; simpl; [|left].
      right. apply last_Some in Hl as [l' ->]. apply elem_of_app. right. left. }
    rewrite Forall_forall in Hall. destruct (Hall _ Hin) as [_ [_ Ht]]. by apply Ht.
Qed.

(** *** Runs of line feeds *)

Lemma tripleFree_cons a t :
  tripleFree (a :: t) = negb ((a =? LF) && twoLF t) && tripleFree t.
Proof.
  destruct t as [|b [|c t]]; simpl; rewrite ?andb_false_r; try done.
  by rewrite andb_assoc.
Qed.

Lemma tripleFree_suffix a b : tripleFree (a ++ b) = true → tripleFree b = true.
Proof.
  induction a as [|x a IH]; [done|]. simpl app. rewrite tripleFree_cons.
  intros [_ H]%andb_true_iff. by apply IH.
Qed.

Lemma twoLF_prefix a b : twoLF a = true → twoLF (a ++ b) = true.
Proof. by destruct a as [|x [|y a]]. Qed.

Lemma tripleFree_prefix a b : tripleFree (a ++ b) = true → tripleFree a = true.
Proof.
  induction a as [|x a IH]; [done|]. simpl app. rewrite !tripleFree_cons.
  intros [H1 H2]%andb_true_iff. rewrite IH by done. rewrite andb_true_r.
  destruct (x =? LF); [|done]. simpl in *.
  destruct (twoLF a) eqn:Ha; [|done]. by rewrite (twoLF_prefix a b Ha) in H1.
Qed.

(** Across a character that is no line feed, runs do not add up. *)
Lemma tripleFree_app a x c :
  tripleFree a = true → tripleFree (x :: c) = true → (x =? LF) = false →
  tripleFree (a ++ x :: c) = true.
Proof.
  intros Ha Hc Hx. induction a as [|y a IH]; [done|].
  simpl app. rewrite tripleFree_cons in *.
  apply andb_true_iff in Ha as [H1 H2]. rewrite IH by done. rewrite andb_true_r.
  destruct (y =? LF); [|done]. simpl in *.
  destruct a as [|z [|w a]].
  - destruct c; simpl; by rewrite ?Hx.
  - simpl. by rewrite Hx, andb_false_r.
  - exact H1.
Qed.

Lemma tripleFree_emitRun run x c :
  (x =? LF) = false → tripleFree (x :: c) = true →
  tripleFree (emitRun run ++ x :: c) = true.
Proof.
  intros Hx Hc. unfold emitRun.
  assert (tripleFree ([LF; LF] ++ x :: c) = true) as H2.
  { simpl app. rewrite !(tripleFree_cons LF). cbn [twoLF].
    destruct c; by rewrite Hx, Hc, ?andb_false_r. }
  destruct run as [|[|[|run]]]; simpl (_ <? _)%nat; cbn [repeat]; try done.
  apply (tripleFree_suffix [LF]). exact H2.
Qed.

Lemma tripleFree_collapse run s : tripleFree (collapseNewlines run s) = true.
Proof.
  revert run. induction s as [|c s IH]; intros run; simpl.
  - unfold emitRun. by destruct run as [|[|[|run]]].
  - destruct (c =? LF) eqn:Hc; [apply IH|].
    apply tripleFree_emitRun; [done|].
    rewrite tripleFree_cons, Hc. simpl. apply IH.
Qed.

Lemma trimEnd_prefix s : ∃ w, s = trimEnd s ++ w.
Proof.
  exists (rev (fst (span isWhiteSpace (rev s)))). unfold trimEnd, skip.
  rewrite <- rev_app_distr, <- span_app. by rewrite rev_involutive.
Qed.

Lemma tripleFree_trim s : tripleFree s = true → tripleFree (trim s) = true.
Proof.
  intros H. unfold trim.
  destruct (trimEnd_prefix (trimStart s)) as [w Hw].
  apply (tripleFree_prefix _ w). rewrite <- Hw.
  apply (tripleFree_suffix (fst (span isWhiteSpace s))).
  unfold trimStart, skip. by rewrite <- span_app.
Qed.

Lemma isWhiteSpace_LF c : isWhiteSpace c = false → (c =? LF) = false.
Proof.
  intros H. destruct (N.eqb_spec c LF) as [->|]; [|done]. by vm_compute in H.
Qed.

(** Joining trimmed bodies with a blank line makes no longer run. *)
Lemma tripleFree_join (l : list (list N)) x :
  Forall (λ y, y ≠ [] ∧ Trimmed y ∧ tripleFree y = true) (x :: l) →
  tripleFree (join blankLine (x :: l)) = true.
Proof.
  revert x. induction l as [|y l IH]; intros x Hall.
  - inversion Hall as [|? ? (_ & _ & H) _]; subst. exact H.
  - inversion Hall as [|? ? (Hx & [_ Hxl] & Hxt) Hrest]; subst.
    change (join blankLine (x :: y :: l))
      with (x ++ blankLine ++ join blankLine (y :: l)).
    assert (Trimmed (join blankLine (y :: l))) as [Hjh _].
    { apply trimmed_join. eapply Forall_impl; [exact Hrest|]. by intros ? (? & ? & _). }
    assert (join blankLine (y :: l) ≠ []) as Hjne.
    { apply join_nonempty. by inversion Hrest as [|? ? (? & _) _]. }
    destruct (join blankLine (y :: l)) as [|b bs] eqn:Hj; [done|].
    assert ((b =? LF) = false) as Hb by (by apply isWhiteSpace_LF, Hjh).
    destruct (exists_last Hx) as (x0 & z & ->).
    assert ((z =? LF) = false) as Hz.
    { apply isWhiteSpace_LF, Hxl. by rewrite last_snoc. }
    rewrite <- app_assoc. simpl app.
    change (x0 ++ z :: LF :: LF :: b :: bs) with (x0 ++ [z; LF; LF] ++ b :: bs).
    rewrite app_assoc. apply tripleFree_app; [|by rewrite <- Hj; apply IH|done].
    apply tripleFree_app; [by apply (tripleFree_prefix x0 [z])| |done].
    rewrite tripleFree_cons. simpl. by rewrite Hz.
Qed.

(** *** What the patterns capture *)

Lemma articleHead_digits line d1 s4 :
  articleHead line = Some (d1, s4) →
  d1 ≠ [] ∧ Forall (λ c, isDigit c = true) d1.
Proof.
  unfold articleHead. destruct (expect _ _) as [s2|]; [|done].
  destruct (span isWhiteSpace s2) as [ws s3].
  pose proof (span_all isDigit s3) as Hall.
  destruct (span isDigit s3) as [d s] eqn:Hs. simpl in Hall.
  destruct (bool_decide (ws = [])); [done|]. simpl.
  case_bool_decide; [done|]. by intros [= <- <-].
Qed.

Lemma subNumber_digits s d2 s5 :
  subNumber s = Some (d2, s5) →
  d2 ≠ [] ∧ Forall (λ c, isDigit c = true) d2.
Proof.
  unfold subNumber. destruct s as [|c t]; [done|].
  destruct (c =? DOT); [|done].
  pose proof (span_all isDigit t) as Hall.
  destruct (span isDigit t) as [d s]. simpl in Hall.
  case_bool_decide; [done|]. by intros [= <- <-].
Qed.

Lemma articleMatch_number line num rest :
  articleMatch line = Some (num, rest) → ArticleNumber num.
Proof.
  unfold articleMatch, matchArticle, matchArticleAlt.
  destruct (articleHead line) as [[d1 s4]|] eqn:Hh; [|done].
  destruct (articleHead_digits _ _ _ Hh) as [Hne1 Hd1].
  assert (ArticleNumber d1) as Hplain.
  { exists d1, []. repeat split; try done. by left. }
  destruct (subNumber s4) as [[d2 s5]|] eqn:Hsub.
  - destruct (subNumber_digits _ _ _ Hsub) as [Hne2 Hd2].
    assert (ArticleNumber (d1 ++ DOT :: d2)) as Hsubn.
    { exists d1, d2. repeat split; try done. by right. }
    intros H. repeat case_match; simplify_eq; done.
  - intros H. repeat case_match; simplify_eq; done.
Qed.

(** *** An invariant of the line classifier *)

Lemma flushArticle_good st : goodState st → goodState (flushArticle st).
Proof.
  intros (Hps & Hnum & Htitle).
  split; [|split; [by left|by left]].
  unfold flushArticle. simpl.
  destruct (truthy (currentArticleNum st)) eqn:Hn; simpl; [|done].
  destruct (0 <? length (currentContent st))%nat; simpl; [|done].
  destruct (0 <? length (flushedContent (currentContent st)))%nat eqn:Hc; [|done].
  apply Forall_app. split; [done|]. constructor; [|constructor].
  unfold truthy in Hn. apply negb_true_iff, bool_decide_eq_false in Hn.
  apply Nat.ltb_lt in Hc.
  split; [by destruct Hnum|]. split; [done|]. split; [done|]. simpl. split; [|split].
  - intros E. rewrite E in Hc. simpl in Hc. lia.
  - apply trim_trimmed.
  - apply tripleFree_trim, tripleFree_collapse.
Qed.

Lemma setAppendix_good st b : goodState st → goodState (setAppendix st b).
Proof. done. Qed.

Lemma pushContent_good st l : goodState st → goodState (pushContent st l).
Proof. done. Qed.

Lemma contentLine_good st l : goodState st → goodState (contentLine st l).
Proof. intros H. unfold contentLine. repeat case_match; by try apply pushContent_good. Qed.

Lemma startArticle_good st num rest :
  ArticleNumber num → goodState st → goodState (startArticle st num rest).
Proof.
  intros Hnum Hst. apply flushArticle_good in Hst as (Hps & _ & Htitle).
  unfold startArticle. split; [done|]. split; [by right|]. simpl.
  destruct (truthy (trim rest)); simpl; [|done].
  destruct (length (trim rest) <? 200)%nat eqn:Hlen; simpl; [|done].
  destruct (looksEnumerated (trim rest)) eqn:Hen; simpl; [done|].
  right. apply Nat.ltb_lt in Hlen. repeat split; try done; apply trim_trimmed.
Qed.

Lemma step_good st l : goodState st → goodState (step st l).
Proof.
  intros Hst. unfold step.
  destruct (length (trim l) =? 0)%nat.
  { repeat case_match; by try apply pushContent_good. }
  destruct (testAppendix (trim l)).
  { by apply flushArticle_good, setAppendix_good. }
  destruct (articleMatch (trim l)) as [[num rest]|] eqn:Hm.
  - apply articleMatch_number in Hm.
    destruct (inAppendix st); simpl;
      by apply startArticle_good; try apply setAppendix_good.
  - destruct (inAppendix st); simpl; [done|].
    destruct (testChapter (trim l)); [done|]. by apply contentLine_good.
Qed.

Lemma scan_good text : Forall goodProvision (scan text).
Proof.
  unfold scan.
  assert (∀ ls st, goodState st → goodState (fold_left step ls st)) as Hfold.
  { induction ls as [|l ls IH]; intros st Hst; simpl; [done|].
    by apply IH, step_good. }
  apply flushArticle_good, Hfold. split; [constructor|]. split; by left.
Qed.

(** The deduplication pass keeps the invariant of each provision. *)
Lemma parse_good text :
  ∃ ps, parseRussianText text = Some ps ∧ Forall goodProvision ps.
Proof.
  destruct (parse_returns text) as (seen & deduped & Hparse & Hinv).
  exists (reindex deduped). split; [done|].
  apply Forall_forall. intros p [i Hp]%list_elem_of_lookup.
  rewrite lookup_reindex in Hp.
  destruct (deduped !! i) as [p0|] eqn:Hp0; [|done]. injection Hp as <-.
  destruct (inv_merge _ _ _ Hinv i p0 Hp0) as (f & r & Hocc & Ht & Hr & Hc).
  pose proof (scan_good text) as Hgood. rewrite Forall_forall in Hgood.
  assert (∀ q, q ∈ f :: r → article q = article p0 ∧ q ∈ scan text) as Hin.
  { intros q Hq. rewrite <- Hocc in Hq.
    by apply (list_elem_of_filter (λ q, article q = article p0)) in Hq. }
  destruct (Hin f ltac:(left)) as [Haf Hf].
  destruct (Hgood f Hf) as (Hnum & Href & Htitle & _ & _).
  assert (Forall (λ y, y ≠ [] ∧ Trimmed y ∧ tripleFree y = true)
            (content <$> f :: r)) as Hbodies.
  { apply Forall_fmap, Forall_forall. intros q Hq.
    destruct (Hin q Hq) as [_ Hqs].
    by destruct (Hgood q Hqs) as (_ & _ & _ & ? & ? & ?). }
  assert (Trimmed (join blankLine (content <$> f :: r))) as Htrim.
  { rewrite fmap_cons. apply trimmed_join. rewrite <- fmap_cons.
    eapply Forall_impl; [exact Hbodies|]. by intros ? (? & ? & _). }
  assert (tripleFree (join blankLine (content <$> f :: r)) = true) as Htriple.
  { rewrite fmap_cons. apply tripleFree_join. by rewrite <- fmap_cons. }
  unfold goodProvision. simpl. rewrite Ht, Hr, Hc, Href, <- Haf.
  split; [done|]. split; [done|]. split; [done|]. split; [|done].
  apply join_nonempty. by destruct (Hgood f Hf) as (_ & _ & _ & ? & _).
Qed.

(** X1: every article number in the result of [parseRussianText] is a run
    of digits, or two runs of digits joined by a period, and the reference
    key of a provision equals its article number. *)
Theorem parse_numbers_well_formed text :
  ∃ ps, parseRussianText text = Some ps
        ∧ ∀ p, p ∈ ps → ArticleNumber (article p) ∧ provision_ref p = article p.
Proof.
  destruct (parse_good text) as (ps & Hparse & Hall).
  exists ps. split; [done|]. intros p Hp.
  rewrite Forall_forall in Hall. by destruct (Hall p Hp) as (? & ? & _).
Qed.

(** X2: every title in the result is empty, or shorter than 200 code
    units, not of the enumerated form (digits, period, white space) and
    free of white space at both ends. *)
Theorem parse_titles_short_and_trimmed text :
  ∃ ps, parseRussianText text = Some ps ∧ ∀ p, p ∈ ps → TitleOk (title p).
Proof.
  destruct (parse_good text) as (ps & Hparse & Hall).
  exists ps. split; [done|]. intros p Hp.
  rewrite Forall_forall in Hall. by destruct (Hall p Hp) as (_ & _ & ? & _).
Qed.

(** X3: every body in the result begins and ends with a character that is
    no white space, also after bodies were merged. *)
Theorem parse_bodies_trimmed text :
  ∃ ps, parseRussianText text = Some ps
        ∧ ∀ p, p ∈ ps → content p ≠ [] ∧ Trimmed (content p).
Proof.
  destruct (parse_good text) as (ps & Hparse & Hall).
  exists ps. split; [done|]. intros p Hp.
  rewrite Forall_forall in Hall. by destruct (Hall p Hp) as (_ & _ & _ & ? & ? & _).
Qed.

(** X4: no body in the result holds three line feeds in a row: paragraphs
    are separated by one blank line at most, also where bodies were
    merged. *)
Theorem parse_bodies_without_blank_runs text :
  ∃ ps, parseRussianText text = Some ps
        ∧ ∀ p, p ∈ ps → tripleFree (content p) = true.
Proof.
  destruct (parse_good text) as (ps & Hparse & Hall).
  exists ps. split; [done|]. intros p Hp.
  rewrite Forall_forall in Hall. by destruct (Hall p Hp) as (_ & _ & _ & _ & _ & ?).
Qed.

(** *** Order and uniqueness of the numbers *)

Lemma firstSeen_snoc l x :
  firstSeen (l ++ [x]) = if decide (x ∈ l) then firstSeen l else firstSeen l ++ [x].
Proof.
  induction l as [|y l IH]; [done|].
  simpl. rewrite IH. destruct (decide (x ∈ l)) as [Hin|Hnin].
  - rewrite decide_True by (by right). done.
  - rewrite filter_app, filter_cons, filter_nil.
    destruct (decide (x = y)) as [->|Hne].
    + destruct (decide (y ≠ y)); [done|].
      destruct (decide (y ∈ y :: l)) as [|H]; [by rewrite app_nil_r|].
      exfalso. apply H. left.
    + destruct (decide (x ≠ y)); [|done].
      destruct (decide (x ∈ y :: l)) as [[?|?]%elem_of_cons|]; done.
Qed.

Lemma firstSeen_NoDup l : NoDup (firstSeen l).
Proof.
  induction l as [|x l IH]; simpl; [constructor|].
  constructor; [|by apply NoDup_filter].
  by intros [? _]%list_elem_of_filter.
Qed.

Lemma dedupStep_order done seen deduped prov seen' deduped' :
  dedupInv done seen deduped →
  article <$> deduped = firstSeen (article <$> done) →
  dedupStep (seen, deduped) prov = Some (seen', deduped') →
  article <$> deduped' = firstSeen (article <$> done ++ [prov]).
Proof.
  intros Hinv Hord. rewrite fmap_app. simpl (article <$> [prov]).
  rewrite firstSeen_snoc. unfold dedupStep.
  destruct (seen !! article prov) as [existing|] eqn:Hs.
  - pose proof (proj1 (inv_seen _ _ _ Hinv _ _) Hs) as Ha.
    rewrite list_lookup_fmap in Ha.
    destruct (deduped !! existing) as [ep|] eqn:Hep; [|done].
    simpl in Ha. injection Ha as Ha. intros [= <- <-].
    rewrite (articles_insert_merge deduped existing ep (content prov) Hep).
    destruct (inv_merge _ _ _ Hinv _ _ Hep) as (f & r & Hocc & _).
    assert (article f = article ep ∧ f ∈ done) as [Hfa Hf].
    { apply (list_elem_of_filter (λ q, article q = article ep)).
      fold (occurrences (article ep) done). rewrite Hocc. left. }
    rewrite decide_True; [done|].
    rewrite <- Ha, <- Hfa. by apply list_elem_of_fmap_2.
  - intros [= <- <-]. rewrite fmap_app, Hord.
    rewrite decide_False; [done|].
    intros (q & Hq & Hin)%list_elem_of_fmap.
    destruct (inv_cover _ _ _ Hinv q Hin) as [i Hi].
    rewrite <- Hq in Hi. apply (inv_seen _ _ _ Hinv) in Hi. congruence.
Qed.

Lemma dedupLoop_order provs done seen deduped seen' deduped' :
  dedupInv done seen deduped →
  article <$> deduped = firstSeen (article <$> done) →
  dedupLoop (seen, deduped) provs = Some (seen', deduped') →
  article <$> deduped' = firstSeen (article <$> done ++ provs).
Proof.
  revert done seen deduped.
  induction provs as [|prov provs IH]; intros done seen deduped Hinv Hord;
    cbn [dedupLoop].
  - intros [= <- <-]. by rewrite app_nil_r.
  - destruct (dedupStep_inv _ _ _ prov Hinv) as (s1 & d1 & Hstep & Hinv1).
    rewrite Hstep. intros Hloop.
    replace (done ++ prov :: provs) with ((done ++ [prov]) ++ provs)
      by (by rewrite <- app_assoc).
    eapply IH; [exact Hinv1| |exact Hloop].
    by eapply dedupStep_order.
Qed.

Lemma articles_reindex (l : list ParsedProvision) :
  article <$> reindex l = article <$> l.
Proof.
  apply list_eq. intros i. rewrite !list_lookup_fmap, lookup_reindex.
  by destruct (l !! i).
Qed.

(** X5: the article numbers of the result are pairwise distinct, and they
    stand in the order in which the numbers first occur in the text. *)
Theorem parse_numbers_distinct_in_first_seen_order text :
  ∃ ps, parseRussianText text = Some ps
        ∧ NoDup (article <$> ps)
        ∧ article <$> ps = firstSeen (article <$> scan text).
Proof.
  destruct (dedupLoop_total (scan text)) as (seen & deduped & Hloop & Hinv).
  exists (reindex deduped). split.
  { unfold parseRussianText. by rewrite Hloop. }
  rewrite articles_reindex.
  rewrite (dedupLoop_order (scan text) [] ∅ [] seen deduped dedupInv_init eq_refl Hloop).
  split; [apply firstSeen_NoDup|done].
Qed.

(** *** Text before the first article *)

Lemma trimEnd_snoc s c : isWhiteSpace c = true → trimEnd (s ++ [c]) = trimEnd s.
Proof.
  intros Hc. unfold trimEnd, skip. rewrite rev_app_distr. simpl. rewrite Hc.
  by destruct (span isWhiteSpace (rev s)).
Qed.

Lemma trimEnd_all_space s :
  Forall (λ c, isWhiteSpace c = true) s → trimEnd s = [].
Proof.
  induction s as [|c s IH] using rev_ind; [done|].
  intros [Hs Hc]%Forall_app. inversion Hc; subst.
  rewrite trimEnd_snoc by done. by apply IH.
Qed.

Lemma trimEnd_cons c s :
  trimEnd (c :: s)
  = if forallb isWhiteSpace (c :: s) then [] else c :: trimEnd s.
Proof.
  induction s as [|x s IH] using rev_ind.
  - unfold trimEnd, skip. simpl. by destruct (isWhiteSpace c).
  - destruct (isWhiteSpace x) eqn:Hx.
    + change (c :: s ++ [x]) with ((c :: s) ++ [x]).
      rewrite !trimEnd_snoc by done. rewrite IH.
      simpl. rewrite forallb_app. simpl. by rewrite Hx, !andb_true_r.
    + change (c :: s ++ [x]) with ((c :: s) ++ [x]).
      assert (∀ t, trimEnd (t ++ [x]) = t ++ [x]) as Hkeep.
      { intros t. unfold trimEnd, skip. rewrite rev_app_distr. simpl.
        rewrite Hx. simpl. by rewrite rev_involutive. }
      rewrite !Hkeep. simpl. rewrite forallb_app. simpl.
      by rewrite Hx, andb_false_r, andb_false_r.
Qed.

Lemma trim_commute s : trimEnd (trimStart s) = trimStart (trimEnd s).
Proof.
  induction s as [|c s IH]; [done|].
  rewrite trimEnd_cons. unfold trimStart, skip in *. simpl.
  destruct (isWhiteSpace c) eqn:Hc.
  - destruct (span isWhiteSpace s) as [a b] eqn:Hs. simpl in *. rewrite IH.
    destruct (forallb isWhiteSpace s) eqn:Hall.
    + rewrite trimEnd_all_space; [done|].
      apply Forall_forall. intros x Hx.
      apply (proj1 (forallb_forall _ _) Hall). by apply list_elem_of_In.
    + simpl. rewrite Hc. by destruct (span isWhiteSpace (trimEnd s)).
  - simpl. rewrite trimEnd_cons. simpl. by rewrite Hc.
Qed.

Lemma trim_snoc s c : isWhiteSpace c = true → trim (s ++ [c]) = trim s.
Proof.
  intros Hc. unfold trim. by rewrite !trim_commute, trimEnd_snoc.
Qed.

(** A carriage return before the line feed makes no difference to the
    step. *)
Lemma step_strip_cr st cur :
  step st (rev match cur with
               | d :: cur' => if d =? CR then cur' else cur
               | [] => []
               end)
  = step st (rev cur).
Proof.
  destruct cur as [|d cur]; [done|].
  destruct (N.eqb_spec d CR) as [->|]; [|done].
  unfold step. simpl rev. by rewrite (trim_snoc (rev cur) CR).
Qed.

Lemma fold_splitLines_app a b cur st :
  fold_left step (splitLines cur (a ++ LF :: b)) st
  = fold_left step (splitLines [] b) (fold_left step (splitLines cur a) st).
Proof.
  revert cur st. induction a as [|x a IH]; intros cur st.
  - simpl. by rewrite step_strip_cr.
  - simpl. destruct (x =? LF); simpl; by rewrite IH.
Qed.

Ltac solve_alike := unfold alike in *; simpl in *; intuition congruence.

Lemma flushArticle_alike st1 st2 :
  alike st1 st2 → alike (flushArticle st1) (flushArticle st2).
Proof.
  intros (Hp & Hn & Ht & Hc & Ho & Ha). unfold flushArticle, alike. simpl.
  rewrite Hp, Hn, Ht, Hc, Ho. repeat split; by right.
Qed.

Lemma pushContent_alike st1 st2 l :
  alike st1 st2 → alike (pushContent st1 l) (pushContent st2 l).
Proof. intros H. unfold pushContent. solve_alike. Qed.

Lemma contentLine_alike st1 st2 l :
  alike st1 st2 → inAppendix st1 = inAppendix st2 →
  alike (contentLine st1 l) (contentLine st2 l).
Proof.
  intros Hal Ha. pose proof Hal as (Hp & Hn & Ht & Hc & Ho & _).
  unfold contentLine. rewrite Hn, Ht, Hc.
  repeat case_match; try done; by apply pushContent_alike.
Qed.

Lemma step_alike st1 st2 l : alike st1 st2 → alike (step st1 l) (step st2 l).
Proof.
  intros Hal. pose proof Hal as (Hp & Hn & Ht & Hc & Ho & Ha). unfold step.
  destruct (length (trim l) =? 0)%nat.
  { rewrite Hn, Hc. destruct (_ && _); [|done]. by apply pushContent_alike. }
  destruct (testAppendix (trim l)).
  { apply flushArticle_alike. unfold setAppendix. solve_alike. }
  destruct (articleMatch (trim l)) as [[num rest]|].
  - rewrite !andb_false_r.
    assert (alike (if inAppendix st1 then setAppendix st1 false else st1)
                  (if inAppendix st2 then setAppendix st2 false else st2)) as Hal'.
    { destruct (inAppendix st1), (inAppendix st2); unfold setAppendix; solve_alike. }
    apply flushArticle_alike in Hal' as (Hp' & _ & Ht' & Hc' & Ho' & _).
    unfold alike, startArticle.
    cbn [provisions currentArticleNum currentArticleTitle currentContent
         orderIndex inAppendix].
    rewrite Hp', Ht', Hc', Ho'. repeat split; try done.
    left. unfold flushArticle. cbn [inAppendix].
    destruct (inAppendix st1) eqn:H1, (inAppendix st2) eqn:H2; simpl; congruence.
  - rewrite !andb_true_r.
    destruct Ha as [Ha|Hempty].
    + rewrite <- Ha. destruct (inAppendix st1) eqn:H1; [done|].
      destruct (testChapter (trim l)); [done|].
      apply contentLine_alike; [done|congruence].
    + assert (∀ st, currentArticleNum st = [] → contentLine st (trim l) = st)
        as Hsame.
      { intros st Hst. unfold contentLine, truthy. by rewrite Hst. }
      destruct (inAppendix st1) eqn:H1, (inAppendix st2) eqn:H2;
        destruct (testChapter (trim l)); rewrite ?Hsame by congruence; done.
Qed.

Lemma step_quiet st l :
  articleMatch (trim l) = None → quiet st → quiet (step st l).
Proof.
  intros Hm (Hp & Hn & Ht & Hc & Ho). unfold step. rewrite Hm.
  destruct (length (trim l) =? 0)%nat.
  { by rewrite Hn. }
  destruct (testAppendix (trim l)).
  { unfold quiet, flushArticle. simpl. by rewrite Hn, Hp, Ho. }
  rewrite andb_true_r. destruct (inAppendix st); [done|].
  destruct (testChapter (trim l)); [done|].
  unfold contentLine. by rewrite Hn.
Qed.

(** X6: what stands before the first article-start line has no effect:
    a text that follows lines none of which starts an article is parsed as
    if it stood alone. *)
Theorem parse_ignores_preamble pre text :
  Forall (λ l, articleMatch (trim l) = None) (splitLines [] pre) →
  parseRussianText (pre ++ LF :: text) = parseRussianText text.
Proof.
  intros Hpre.
  assert (scan (pre ++ LF :: text) = scan text) as Hscan.
  { unfold scan. rewrite fold_splitLines_app.
    assert (quiet (fold_left step (splitLines [] pre) initial)) as Hq.
    { assert (∀ ls st, Forall (λ l, articleMatch (trim l) = None) ls →
                quiet st → quiet (fold_left step ls st)) as Hfold.
      { induction ls as [|l ls IH]; intros st Hall Hst; simpl; [done|].
        inversion Hall; subst. apply IH; [done|]. by apply step_quiet. }
      by apply Hfold. }
    assert (alike (fold_left step (splitLines [] pre) initial) initial) as Hal.
    { destruct Hq as (Hp & Hn & Ht & Hc & Ho). unfold alike.
      rewrite Hp, Hn, Ht, Hc, Ho. repeat split; by right. }
    assert (∀ ls st1 st2, alike st1 st2 →
              alike (fold_left step ls st1) (fold_left step ls st2)) as Hfold.
    { induction ls as [|l ls IH]; intros st1 st2 H12; simpl; [done|].
      by apply IH, step_alike. }
    by destruct (flushArticle_alike _ _ (Hfold (splitLines [] text) _ _ Hal)). }
  unfold parseRussianText. by rewrite Hscan.
Qed.

Lemma no_article_start_check (ls : list jsstring) :
  forallb (λ l, match articleMatch (trim l) with
                | None => true
                | Some _ => false
                end) ls = true →
  Forall (λ l, articleMatch (trim l) = None) ls.
Proof.
  intros H. apply Forall_forall. intros l Hl%list_elem_of_In.
  rewrite forallb_forall in H. specialize (H l Hl).
  by destruct (articleMatch (trim l)).
Qed.

Lemma parse_ignores_preamble_witness :
  Forall (λ l, articleMatch (trim l) = None) (splitLines [] preamble)
  ∧ parseRussianText (preamble ++ LF :: articleText) = parseRussianText articleText.
Proof.
  split; [|apply parse_ignores_preamble];
    apply no_article_start_check; vm_compute; reflexivity.
Defined.

(** *** The appendix marker *)

Lemma wordChar_canonical c : isWordChar c = true → canonicalize c < 128.
Proof.
  unfold isWordChar, isDigit, canonicalize. intros H.
  repeat match goal with
         | |- context [?a <=? ?b] => destruct (N.leb_spec a b); simpl in *
         | |- context [?a =? ?b] => destruct (N.eqb_spec a b); simpl in *
         | H : context [?a <=? ?b] |- _ => destruct (N.leb_spec a b); simpl in *
         | H : context [?a =? ?b] |- _ => destruct (N.eqb_spec a b); simpl in *
         end; try done; lia.
Qed.

Lemma expectCI_split p s u r :
  expectCI p s = Some (u, r) →
  s = u ++ r ∧ length u = length p
  ∧ (∀ a c, last p = Some a → last u = Some c → canonicalize a = canonicalize c).
Proof.
  revert s u r. induction p as [|a p IH]; intros s u r; simpl.
  - by intros [= <- <-].
  - destruct s as [|b s]; [done|].
    destruct (N.eqb_spec (canonicalize a) (canonicalize b)) as [Hab|]; [|done].
    destruct (expectCI p s) as [[u' r']|] eqn:He; [|done].
    intros [= <- <-]. destruct (IH _ _ _ He) as (-> & Hlen & Hlast).
    split; [done|]. split; [by simpl; rewrite Hlen|].
    intros a' c' Ha Hc.
    destruct p as [|a2 p], u' as [|c2 u']; try done.
    + simpl in Ha, Hc. congruence.
    + rewrite last_cons_cons in Ha, Hc. by apply Hlast.
Qed.

(** X7: [APPENDIX_PATTERN] matches only when the word is directly followed
    by an ASCII letter, digit or underscore, since its last letter is no
    word character for the word boundary. *)
Theorem appendix_marker_needs_word_character line :
  testAppendix line = true →
  ∃ u c rest,
    skip isWhiteSpace line = u ++ c :: rest
    ∧ length u = 10%nat ∧ isWordChar c = true.
Proof.
  unfold testAppendix.
  destruct (expectCI _ _) as [[u s2]|] eqn:He; [|done].
  destruct (expectCI_split _ _ _ _ He) as (Hs & Hlen & Hlast).
  intros Hb. unfold wordBoundary in Hb.
  assert (from_option isWordChar false (last u) = false) as Hu.
  { destruct (last u) as [c|] eqn:Hl; [|done]. simpl.
    destruct (isWordChar c) eqn:Hw; [|done].
    apply wordChar_canonical in Hw.
    pose proof (Hlast 0x435 c eq_refl eq_refl) as Hc.
    change (canonicalize 0x435) with 0x415 in Hc. rewrite <- Hc in Hw. lia. }
  rewrite Hu in Hb. simpl in Hb.
  destruct s2 as [|c rest]; [done|]. simpl in Hb.
  exists u, c, rest. done.
Qed.

Lemma appendix_marker_needs_word_character_witness :
  testAppendix (js "Приложение1 к закону") = true
  ∧ ∃ u c rest,
      skip isWhiteSpace (js "Приложение1 к закону") = u ++ c :: rest
      ∧ length u = 10%nat ∧ isWordChar c = true.
Proof.
  split; [vm_compute; reflexivity|].
  apply appendix_marker_needs_word_character. vm_compute. reflexivity.
Defined.

(** X8: inside an article, a line that reads [Приложение] and goes on with
    a character that is no ASCII letter, digit or underscore (a space, a
    number sign), or ends there, starts no appendix: it is appended to the
    body of the article. *)
Theorem appendix_heading_joins_body st line tail :
  trim line = js "Приложение" ++ tail →
  from_option isWordChar false (head tail) = false →
  currentArticleNum st ≠ [] →
  inAppendix st = false →
  inAppendix (step st line) = false
  ∧ currentArticleNum (step st line) = currentArticleNum st
  ∧ currentContent (step st line) = currentContent st ++ [trim line].
Proof.
  intros Hline Htail Hnum Hflag. unfold step. rewrite Hline.
  assert (js "Приложение" = [0x41F; 0x440; 0x438; 0x43B; 0x43E; 0x436; 0x435;
                              0x43D; 0x438; 0x435]) as Hkw by reflexivity.
  rewrite Hkw. cbn [app length Nat.eqb].
  assert (testAppendix (0x41F :: 0x440 :: 0x438 :: 0x43B :: 0x43E :: 0x436
                        :: 0x435 :: 0x43D :: 0x438 :: 0x435 :: tail) = false) as ->.
  { unfold testAppendix. rewrite Hkw.
    change (wordBoundary (Some 0x435) (head tail) = false).
    unfold wordBoundary. by rewrite Htail. }
  assert (articleMatch (0x41F :: 0x440 :: 0x438 :: 0x43B :: 0x43E :: 0x436
                        :: 0x435 :: 0x43D :: 0x438 :: 0x435 :: tail) = None) as ->
    by reflexivity.
  assert (testChapter (0x41F :: 0x440 :: 0x438 :: 0x43B :: 0x43E :: 0x436
                       :: 0x435 :: 0x43D :: 0x438 :: 0x435 :: tail) = false) as ->
    by reflexivity.
  rewrite Hflag. cbn [andb bool_decide].
  unfold contentLine. rewrite (truthy_nonempty _ Hnum).
  repeat case_match; done.
Qed.

Lemma appendix_heading_joins_body_witness :
  inAppendix (step inArticle appendixHeading) = false
  ∧ currentArticleNum (step inArticle appendixHeading) = js "3"
  ∧ currentContent (step inArticle appendixHeading) = [js "Text."; appendixHeading].
Proof.
  apply (appendix_heading_joins_body inArticle appendixHeading (js " № 1"));
    vm_compute; (reflexivity || discriminate).
Defined.

End ParserExtras.

(** ** Properties of [normalizeRussianText] *)

Module NormalizeExtras.
Import Js Normalize ExtraSpec ParserExtras.


Lemma singleSpaced_cons a t :
  singleSpaced (a :: t)
  = (negb (isWhiteSpace a) || (a =? 32))
    && negb (isWhiteSpace a && from_option isWhiteSpace false (head t))
    && singleSpaced t.
Proof. destruct t; simpl; by rewrite ?andb_false_r, ?andb_true_r. Qed.

Lemma collapse_shape s :
  singleSpaced (collapseWhiteSpace false s) = true
  ∧ singleSpaced (collapseWhiteSpace true s) = true
  ∧ from_option isWhiteSpace false (head (collapseWhiteSpace true s)) = false.
Proof.
  induction s as [|c s (IH1 & IH2 & IH3)]; [done|]. simpl.
  destruct (isWhiteSpace c) eqn:Hc.
  - rewrite singleSpaced_cons, IH2, IH3. done.
  - rewrite singleSpaced_cons, Hc, IH1. simpl. by rewrite Hc.
Qed.

Lemma singleSpaced_no_LF s c :
  singleSpaced s = true → c ∈ s → isWhiteSpace c = true → c = 32.
Proof.
  induction s as [|a s IH]; [by intros _ ?%elem_of_nil|].
  rewrite singleSpaced_cons.
  intros [[H1 _]%andb_true_iff H3]%andb_true_iff [->|Hin]%elem_of_cons Hc;
    [|by apply IH].
  rewrite Hc in H1. simpl in H1. by apply N.eqb_eq.
Qed.

Lemma squeeze_without_LF fuel s :
  (∀ c, c ∈ s → c ≠ LF) → squeezeBlankLines fuel s = s.
Proof.
  revert s. induction fuel as [|fuel IH]; intros s Hs; [done|].
  destruct s as [|c s]; [done|]. simpl.
  destruct (span isWhiteSpace s) as [run rest].
  assert ((c =? LF) = false) as -> by (apply N.eqb_neq, Hs; left).
  simpl. f_equal. apply IH. intros x Hx. apply Hs. by right.
Qed.

Lemma singleSpaced_suffix a b : singleSpaced (a ++ b) = true → singleSpaced b = true.
Proof.
  induction a as [|x a IH]; [done|]. simpl app. rewrite singleSpaced_cons.
  intros [_ H]%andb_true_iff. by apply IH.
Qed.

Lemma singleSpaced_prefix a b : singleSpaced (a ++ b) = true → singleSpaced a = true.
Proof.
  induction a as [|x a IH]; [done|]. simpl app. rewrite !singleSpaced_cons.
  intros [[H1 H2]%andb_true_iff H3]%andb_true_iff.
  rewrite H1, IH by done. rewrite andb_true_r. simpl.
  destruct a; [by rewrite andb_false_r|done].
Qed.

Lemma singleSpaced_trim s : singleSpaced s = true → singleSpaced (trim s) = true.
Proof.
  intros H. unfold trim.
  destruct (trimEnd_prefix (trimStart s)) as [w Hw].
  apply (singleSpaced_prefix _ w). rewrite <- Hw.
  apply (singleSpaced_suffix (fst (span isWhiteSpace s))).
  unfold trimStart, skip. by rewrite <- span_app.
Qed.

(** The third replacement of [normalizeRussianText] finds nothing to do:
    the second has left no line feed. *)
Lemma normalize_eq text :
  normalizeRussianText text
  = trim (collapseWhiteSpace false
            (replaceChar 0x2002 (replaceChar 0x2003 (replaceChar 0xA0 text)))).
Proof.
  unfold normalizeRussianText. cbv zeta. f_equal.
  apply squeeze_without_LF. intros c Hc ->.
  destruct (collapse_shape
              (replaceChar 0x2002 (replaceChar 0x2003 (replaceChar 0xA0 text))))
    as [H _].
  by pose proof (singleSpaced_no_LF _ LF H Hc eq_refl).
Qed.

Lemma visible_all_space s :
  Forall (λ c, isWhiteSpace c = true) s → visible s = [].
Proof.
  unfold visible.
  induction s as [|c s IH]; [done|]. intros Hall. inversion Hall; subst.
  rewrite filter_cons, decide_False by congruence. by apply IH.
Qed.

Lemma visible_replaceChar c s :
  isWhiteSpace c = true → visible (replaceChar c s) = visible s.
Proof.
  intros Hc. unfold replaceChar, visible. induction s as [|x s IH]; [done|].
  simpl map. destruct (N.eqb_spec x c) as [->|].
  - rewrite !filter_cons, !decide_False by (by rewrite ?Hc). exact IH.
  - rewrite !filter_cons, IH. done.
Qed.

Lemma visible_collapse b s : visible (collapseWhiteSpace b s) = visible s.
Proof.
  unfold visible.
  revert b. induction s as [|c s IH]; intros b; [done|]. simpl.
  destruct (isWhiteSpace c) eqn:Hc.
  - rewrite (filter_cons _ c), decide_False by congruence.
    destruct b; [apply IH|].
    rewrite filter_cons, decide_False by done. apply IH.
  - by rewrite !filter_cons, !decide_True, IH by done.
Qed.

Lemma visible_trim s : visible (trim s) = visible s.
Proof.
  unfold trim.
  rewrite (span_app isWhiteSpace s) at 2. unfold visible at 2. rewrite filter_app.
  fold (visible (fst (span isWhiteSpace s))).
  rewrite (visible_all_space _ (span_all isWhiteSpace s)). simpl.
  fold (visible (snd (span isWhiteSpace s))).
  fold (skip isWhiteSpace s). fold (trimStart s).
  destruct (trimEnd_prefix (trimStart s)) as [w Hw].
  rewrite Hw at 2. unfold visible at 2. rewrite filter_app.
  fold (visible w). fold (visible (trimEnd (trimStart s))).
  assert (visible w = []) as ->; [|by rewrite app_nil_r].
  apply visible_all_space.
  assert (w = rev (fst (span isWhiteSpace (rev (trimStart s))))) as ->.
  { apply (app_inv_head (trimEnd (trimStart s))). rewrite <- Hw.
    unfold trimEnd, skip. rewrite <- rev_app_distr, <- span_app.
    by rewrite rev_involutive. }
  apply Forall_forall. intros c Hc%list_elem_of_In%in_rev%list_elem_of_In.
  pose proof (span_all isWhiteSpace (rev (trimStart s))) as Hall.
  rewrite Forall_forall in Hall. by apply Hall.
Qed.

(** X9: the result of [normalizeRussianText] has no white space at either
    end, each of its white-space characters is a space with no other white
    space next to it, and its other characters are those of the input, in
    order. *)
Theorem normalize_shape text :
  Trimmed (normalizeRussianText text)
  ∧ singleSpaced (normalizeRussianText text) = true
  ∧ visible (normalizeRussianText text) = visible text.
Proof.
  rewrite normalize_eq. split; [apply trim_trimmed|]. split.
  - apply singleSpaced_trim, collapse_shape.
  - rewrite visible_trim, visible_collapse, !visible_replaceChar; done.
Qed.

Lemma replaceChar_absent c s :
  isWhiteSpace c = true → c ≠ 32 → singleSpaced s = true → replaceChar c s = s.
Proof.
  intros Hc Hne Hs. unfold replaceChar.
  induction s as [|x s IH]; [done|]. simpl.
  rewrite singleSpaced_cons in Hs.
  apply andb_true_iff in Hs as [[H1 _]%andb_true_iff H3].
  rewrite IH by done. destruct (N.eqb_spec x c) as [->|]; [|done].
  rewrite Hc in H1. simpl in H1. by apply N.eqb_eq in H1.
Qed.

Lemma collapse_fixed s :
  singleSpaced s = true →
  collapseWhiteSpace false s = s
  ∧ (from_option isWhiteSpace false (head s) = false →
     collapseWhiteSpace true s = s).
Proof.
  induction s as [|c s IH]; [done|]. rewrite singleSpaced_cons.
  intros [[H1 H2]%andb_true_iff H3]%andb_true_iff.
  destruct (IH H3) as [IHf IHt]. simpl.
  destruct (isWhiteSpace c) eqn:Hc; simpl in *.
  - apply N.eqb_eq in H1 as ->. split; [|done].
    rewrite IHt; [done|]. by apply negb_true_iff.
  - by rewrite IHf.
Qed.

Lemma trim_fixed s : Trimmed s → trim s = s.
Proof.
  intros [Hh Hl]. unfold trim.
  assert (trimStart s = s) as ->.
  { destruct s as [|c s]; [done|]. unfold trimStart, skip. simpl.
    by rewrite (Hh c eq_refl). }
  destruct s as [|c s] using rev_ind; [done|].
  unfold trimEnd, skip. rewrite rev_app_distr. simpl.
  rewrite (Hl c) by (by rewrite last_snoc). simpl.
  by rewrite rev_involutive.
Qed.

(** X10: [normalizeRussianText] is idempotent. *)
Theorem normalize_idempotent text :
  normalizeRussianText (normalizeRussianText text) = normalizeRussianText text.
Proof.
  assert (Trimmed (normalizeRussianText text)) as Ht.
  { rewrite normalize_eq. apply trim_trimmed. }
  assert (singleSpaced (normalizeRussianText text) = true) as Hs.
  { rewrite normalize_eq. apply singleSpaced_trim, collapse_shape. }
  rewrite (normalize_eq (normalizeRussianText text)).
  rewrite (replaceChar_absent 0xA0), (replaceChar_absent 0x2003),
    (replaceChar_absent 0x2002) by done.
  rewrite (proj1 (collapse_fixed _ Hs)). by apply trim_fixed.
Qed.

End NormalizeExtras.

(** ** Further properties of the client *)

Module FetcherExtras.
Import Js Fetcher FetcherSpec Endpoints ClientSpec Samples ExtraSamples FetcherClaims.
Local Open Scope Z_scope.

Lemma advance_advance a b n : advance a (advance b n) = advance (b + a) n.
Proof. unfold advance. simpl. f_equal. lia. Qed.

Lemma timeout_pos d : 1 ≤ timeout d.
Proof.
  unfold timeout, TIMEOUT_MAX.
  destruct (Z.ltb_spec 2147483647 d); destruct (Z.ltb_spec d 1); simpl; lia.
Qed.

(** The backoff of the first twenty retries is below the largest delay of
    a timer. *)
Lemma backoff_timeout attempt c :
  0 ≤ attempt ≤ 19 → 1000 ≤ c ≤ 2000 →
  timeout (2 ^ (attempt + 1) * c) = 2 ^ (attempt + 1) * c.
Proof.
  intros Ha Hc.
  assert (2 ^ (attempt + 1) ≤ 2 ^ 20) as Hle by (apply Z.pow_le_mono_r; lia).
  assert (0 < 2 ^ (attempt + 1)) as Hpos by (apply Z.pow_pos_nonneg; lia).
  change (2 ^ 20) with 1048576 in Hle.
  unfold timeout, TIMEOUT_MAX.
  destruct (Z.ltb_spec 2147483647 (2 ^ (attempt + 1) * c)); [nia|].
  destruct (Z.ltb_spec (2 ^ (attempt + 1) * c) 1); [nia|]. done.
Qed.

(** One iteration of the loop either goes on, after a wait of at least the
    backoff while that is a delay a timer can have, or ends the call with
    what the reply gives. *)
Lemma attempts_step R url m left attempt n :
  (attempt < m
   ∧ unsuccessful (reply R (length (sent n)) url) = true
   ∧ ∃ d, attempts R url m (S left) attempt n
          = attempts R url m left (attempt + 1) (advance d (send url n))
          ∧ 1 ≤ d
          ∧ (0 ≤ attempt ≤ 19 → 2 ^ (attempt + 1) * 1000 ≤ d))
  ∨ ((attempt < m → unsuccessful (reply R (length (sent n)) url) = false)
     ∧ ∃ d, attempts R url m (S left) attempt n
            = (finalOutcome R url (reply R (length (sent n)) url),
               advance d (send url n))
            ∧ 0 ≤ d).
Proof.
  pose proof (timeout_pos (2 ^ (attempt + 1) * 1000)) as Hp1.
  pose proof (timeout_pos (2 ^ (attempt + 1) * 2000)) as Hp2.
  pose proof (λ H, backoff_timeout attempt 1000 H ltac:(lia)) as Hb1.
  pose proof (λ H, backoff_timeout attempt 2000 H ltac:(lia)) as Hb2.
  pose proof (Z.pow_nonneg 2 (attempt + 1) ltac:(lia)) as Hpow.
  cbn [attempts]. unfold unsuccessful, finalOutcome, sleep.
  destruct (settle (reply R (length (sent n)) url))
    as [a msg | a st ct [a' msg | a' bytes]];
    destruct (Z.ltb_spec attempt m) as [Hlt|Hge];
    rewrite ?andb_true_r, ?andb_false_r;
    try destruct (isRetryStatus st) eqn:Hst;
    rewrite ?advance_advance;
    try (left; split; [done|split; [done|]]; eexists; split; [reflexivity|];
         split; [lia|]; intros Hk; specialize (Hb1 Hk); specialize (Hb2 Hk); lia);
    right; (split; [done || lia|]); eexists; (split; [reflexivity|]); lia.
Qed.

(** The requests of the loop: at most one per iteration, all to the address
    of the call, the first at once and each later one after the backoff;
    the clock does not run backwards and [lastRequestTime] is untouched. *)
Lemma attempts_trace R url m left :
  ∀ attempt n,
    ∃ new,
      sent (snd (attempts R url m left attempt n)) = sent n ++ new
      ∧ (length new ≤ left)%nat
      ∧ (left ≠ 0%nat → new ≠ [])
      ∧ (∀ p, p ∈ new → p.2 = url)
      ∧ lastRequestTime (snd (attempts R url m left attempt n)) = lastRequestTime n
      ∧ clock n ≤ clock (snd (attempts R url m left attempt n))
      ∧ (∀ p, new !! 0%nat = Some p → p.1 = clock n)
      ∧ (∀ k p q, new !! k = Some p → new !! S k = Some q →
           0 ≤ attempt → attempt + Z.of_nat k ≤ 19 →
           p.1 + 2 ^ (attempt + Z.of_nat k + 1) * 1000 ≤ q.1).
Proof.
  induction left as [|left IH]; intros attempt n.
  - exists []. simpl. rewrite app_nil_r. repeat split; try done; try lia.
    by intros ? ?%elem_of_nil.
  - destruct (attempts_step R url m left attempt n)
      as [(_ & _ & d & -> & Hd1 & Hd) | (_ & d & -> & Hd)].
    + destruct (IH (attempt + 1) (advance d (send url n)))
        as (new & Hsent & Hlen & _ & Hurl & Hlast & Hclock & Hfirst & Hgap).
      exists ((clock n, url) :: new). simpl in *.
      rewrite Hsent, <- app_assoc. repeat split; try done; try lia.
      * intros p [->|Hp]%elem_of_cons; [done|by apply Hurl].
      * by intros p [= <-].
      * intros [|k] p q Hp Hq Ha Hk; simpl in *.
        -- injection Hp as <-. rewrite (Hfirst q Hq). simpl.
           replace (attempt + Z.of_nat 0 + 1) with (attempt + 1) by lia.
           specialize (Hd ltac:(lia)). lia.
        -- replace (attempt + Z.of_nat (S k) + 1)
             with (attempt + 1 + Z.of_nat k + 1) by lia.
           apply Hgap; try done; lia.
    + exists [(clock n, url)]. simpl. repeat split; try done; try lia.
      * by intros p ->%list_elem_of_singleton.
      * by intros p [= <-].
Qed.

(** X11: one call sends at least one request when [maxRetries] is not
    negative, at most [maxRetries + 1], and all of them to the address it was
    given; it removes nothing from the log. *)
Theorem fetch_requests_bounded R url maxRetries n :
  ∃ new,
    sent (snd (fetchWithRateLimit R url maxRetries n)) = sent n ++ new
    ∧ (length new ≤ Z.to_nat (maxRetries + 1))%nat
    ∧ (0 ≤ maxRetries → new ≠ [])
    ∧ ∀ t u, (t, u) ∈ new → u = url.
Proof.
  unfold fetchWithRateLimit.
  destruct (attempts_trace R url maxRetries (Z.to_nat (maxRetries + 1)) 0 (rateLimit n))
    as (new & Hsent & Hlen & Hne & Hurl & _).
  exists new. rewrite Hsent, sent_rateLimit. repeat split; try done.
  - intros Hm. apply Hne. lia.
  - intros t u Hin. by apply (Hurl (t, u)).
Qed.

(** X12: within one call, the request of attempt [k + 1] is sent at least
    [2 ^ (k + 1)] seconds after that of attempt [k], for [k] up to 19: up
    to there the backoff is a delay that a timer can have. *)
Theorem fetch_backoff_spacing R url maxRetries n k t1 u1 t2 u2 :
  (k ≤ 19)%nat →
  let after := snd (fetchWithRateLimit R url maxRetries n) in
  sent after !! (length (sent n) + k)%nat = Some (t1, u1) →
  sent after !! (length (sent n) + S k)%nat = Some (t2, u2) →
  t1 + 2 ^ (Z.of_nat k + 1) * 1000 ≤ t2.
Proof.
  intros Hk. cbv zeta. unfold fetchWithRateLimit.
  destruct (attempts_trace R url maxRetries (Z.to_nat (maxRetries + 1)) 0 (rateLimit n))
    as (new & Hsent & _ & _ & _ & _ & _ & _ & Hgap).
  rewrite Hsent, sent_rateLimit.
  rewrite !lookup_app_r by lia.
  replace (length (sent n) + k - length (sent n))%nat with k by lia.
  replace (length (sent n) + S k - length (sent n))%nat with (S k) by lia.
  intros H1 H2. apply (Hgap k _ _ H1 H2); lia.
Qed.

Lemma fetch_backoff_spacing_witness :
  1700000000000 + 2 ^ (Z.of_nat 0 + 1) * 1000 ≤ 1700000002100.
Proof.
  apply (fetch_backoff_spacing flaky firstUrl 3 epoch 0 _ firstUrl _ firstUrl);
    [lia | vm_compute; reflexivity | vm_compute; reflexivity].
Defined.

(** X13: the first requests of two calls, one after the other, are at least
    [MIN_DELAY_MS] apart, whatever the addresses, the retries and the time
    between the calls. *)
Theorem fetch_call_starts_spaced R url1 m1 url2 m2 n d t1 u1 t2 u2 :
  lastRequestTime n ≤ clock n →
  0 ≤ d →
  let first := snd (fetchWithRateLimit R url1 m1 n) in
  let second := snd (fetchWithRateLimit R url2 m2 (advance d first)) in
  sent first !! length (sent n) = Some (t1, u1) →
  sent second !! length (sent first) = Some (t2, u2) →
  t1 + MIN_DELAY_MS ≤ t2.
Proof.
  intros Hn Hd. cbv zeta. unfold fetchWithRateLimit.
  destruct (attempts_trace R url1 m1 (Z.to_nat (m1 + 1)) 0 (rateLimit n))
    as (new1 & Hsent1 & _ & _ & _ & Hlast1 & Hclock1 & Hfirst1 & _).
  set (n1 := snd (attempts R url1 m1 (Z.to_nat (m1 + 1)) 0 (rateLimit n))) in *.
  destruct (attempts_trace R url2 m2 (Z.to_nat (m2 + 1)) 0 (rateLimit (advance d n1)))
    as (new2 & Hsent2 & _ & _ & _ & _ & _ & Hfirst2 & _).
  rewrite Hsent2, sent_rateLimit. simpl sent. rewrite Hsent1, sent_rateLimit.
  rewrite lookup_app_r by lia. rewrite Nat.sub_diag.
  rewrite (lookup_app_r (sent n ++ new1)) by lia. rewrite Nat.sub_diag.
  intros H1 H2.
  pose proof (Hfirst1 _ H1) as E1. pose proof (Hfirst2 _ H2) as E2.
  cbn [fst] in E1, E2. subst t1 t2.
  destruct (rateLimit_spacing n Hn) as [_ Hc].
  destruct (rateLimit_spacing (advance d n1)) as [Hs Hc2].
  { change (lastRequestTime n1 ≤ clock n1 + d). lia. }
  change (lastRequestTime (advance d n1)) with (lastRequestTime n1) in Hs.
  lia.
Qed.

Lemma fetch_call_starts_spaced_witness :
  1700000000000 + MIN_DELAY_MS ≤ 1700000002200.
Proof.
  apply (fetch_call_starts_spaced flaky firstUrl 3 secondUrl 3 epoch 0
           _ firstUrl _ secondUrl);
    [vm_compute; discriminate | lia | vm_compute; reflexivity
    | vm_compute; reflexivity].
Defined.

Lemma unsuccessful_false R url r :
  unsuccessful r = false →
  ∃ after st ct after' bytes,
    settle r = Answers after st ct (BodyBytes after' bytes)
    ∧ isRetryStatus st = false
    ∧ finalOutcome R url r
      = inr {| status := st;
               body := if needsWin1251 url (default [] ct)
                       then decodeWindows1251 R bytes else decodeText R bytes;
               contentType := default [] ct |}.
Proof.
  unfold unsuccessful, finalOutcome.
  destruct (settle r) as [a msg | a st ct [a' msg | a' bytes]]; try done.
  intros Hst. by exists a, st, ct, a', bytes.
Qed.

Lemma attempts_first_ok R url m k :
  ∀ left attempt n,
    (k < left)%nat →
    attempt + Z.of_nat k ≤ m →
    (∀ j, (j < k)%nat → unsuccessful (reply R (length (sent n) + j) url) = true) →
    unsuccessful (reply R (length (sent n) + k) url) = false →
    fst (attempts R url m left attempt n)
      = finalOutcome R url (reply R (length (sent n) + k) url)
    ∧ length (sent (snd (attempts R url m left attempt n)))
      = (length (sent n) + k + 1)%nat.
Proof.
  induction k as [|k IH]; intros left attempt n Hleft Hm Hbad Hok;
    (destruct left as [|left]; [lia|]).
  - rewrite Nat.add_0_r in *.
    destruct (attempts_step R url m left attempt n)
      as [(_ & Hun & _) | (_ & d & -> & Hd)]; [congruence|].
    simpl. rewrite length_app. simpl. split; [done|lia].
  - pose proof (Hbad 0%nat ltac:(lia)) as H0. rewrite Nat.add_0_r in H0.
    destruct (attempts_step R url m left attempt n)
      as [(_ & _ & d & -> & Hd) | (Hlast & _)].
    2:{ rewrite Hlast in H0 by lia. done. }
    assert (length (sent (advance d (send url n))) = S (length (sent n))) as Hlen.
    { simpl. rewrite length_app. simpl. lia. }
    destruct (IH left (attempt + 1) (advance d (send url n))) as [H1 H2].
    + lia.
    + lia.
    + intros j Hj. rewrite Hlen.
      replace (S (length (sent n)) + j)%nat with (length (sent n) + S j)%nat by lia.
      apply Hbad. lia.
    + rewrite Hlen.
      by replace (S (length (sent n)) + k)%nat with (length (sent n) + S k)%nat by lia.
    + rewrite H1, H2, Hlen. split; [f_equal; f_equal; lia | lia].
Qed.

(** X14: when the first [k] attempts of a call are unsuccessful, with [k]
    at most [maxRetries], and the next one is answered with a status other
    than 429 and 5xx and a readable body, the call returns that response
    and has sent [k + 1] requests. *)
Theorem fetch_returns_first_acceptable R url maxRetries n k :
  0 ≤ maxRetries →
  (k ≤ Z.to_nat maxRetries)%nat →
  (∀ j, (j < k)%nat → unsuccessful (reply R (length (sent n) + j) url) = true) →
  unsuccessful (reply R (length (sent n) + k) url) = false →
  let result := fetchWithRateLimit R url maxRetries n in
  length (sent (snd result)) = (length (sent n) + k + 1)%nat
  ∧ ∃ after st ct after' bytes,
      settle (reply R (length (sent n) + k) url)
        = Answers after st ct (BodyBytes after' bytes)
      ∧ isRetryStatus st = false
      ∧ fst result
        = inr {| status := st;
                 body := if needsWin1251 url (default [] ct)
                         then decodeWindows1251 R bytes else decodeText R bytes;
                 contentType := default [] ct |}.
Proof.
  intros Hm Hk Hbad Hok. cbv zeta. unfold fetchWithRateLimit.
  destruct (attempts_first_ok R url maxRetries k (Z.to_nat (maxRetries + 1)) 0
              (rateLimit n)) as [H1 H2].
  - lia.
  - lia.
  - by rewrite sent_rateLimit.
  - by rewrite sent_rateLimit.
  - rewrite sent_rateLimit in H1, H2. split; [done|].
    destruct (unsuccessful_false R url _ Hok) as (a & st & ct & a' & bytes & Hs & Hst & Hf).
    exists a, st, ct, a', bytes. by rewrite H1.
Qed.

Lemma fetch_returns_first_acceptable_witness :
  length (sent (snd (fetchWithRateLimit recovering someUrl 3 epoch))) = 4%nat
  ∧ ∃ after st ct after' bytes,
      settle (reply recovering 3 someUrl)
        = Answers after st ct (BodyBytes after' bytes)
      ∧ isRetryStatus st = false
      ∧ fst (fetchWithRateLimit recovering someUrl 3 epoch)
        = inr {| status := st;
                 body := if needsWin1251 someUrl (default [] ct)
                         then decodeWindows1251 recovering bytes
                         else decodeText recovering bytes;
                 contentType := default [] ct |}.
Proof.
  apply (fetch_returns_first_acceptable recovering someUrl 3 epoch 3).
  - lia.
  - vm_compute. lia.
  - intros j Hj. simpl. destruct (Nat.ltb_spec j 3); [reflexivity|lia].
  - reflexivity.
Defined.

(** X15: a negative [maxRetries] makes the call fail with the error that
    follows the loop, without a request; the rate limiter has run all the
    same. *)
Theorem fetch_negative_retries R url maxRetries n :
  maxRetries < 0 →
  fetchWithRateLimit R url maxRetries n
  = (inl (RetriesExhausted url maxRetries), rateLimit n)
  ∧ sent (rateLimit n) = sent n.
Proof.
  intros Hm. unfold fetchWithRateLimit.
  replace (Z.to_nat (maxRetries + 1)) with 0%nat by lia.
  split; [done|apply sent_rateLimit].
Qed.

Lemma fetch_negative_retries_witness :
  fetchWithRateLimit busy someUrl (-1) epoch
  = (inl (RetriesExhausted someUrl (-1)), rateLimit epoch)
  ∧ sent (rateLimit epoch) = sent epoch.
Proof. apply (fetch_negative_retries busy someUrl (-1) epoch). lia. Defined.

Lemma attempts_early R url m left :
  ∀ attempt n,
    Z.of_nat left = m + 1 - attempt →
    (length (sent (snd (attempts R url m left attempt n)))
       < length (sent n) + left)%nat →
    ∃ res, fst (attempts R url m left attempt n) = inr res
           ∧ isRetryStatus (status res) = false.
Proof.
  induction left as [|left IH]; intros attempt n Hleft Hfew.
  - simpl in Hfew. lia.
  - destruct (attempts_step R url m left attempt n)
      as [(_ & _ & d & Heq & _) | (Hlast & d & Heq & _)]; rewrite Heq in *.
    + apply IH; [lia|]. simpl in *. rewrite length_app in *. simpl in *. lia.
    + simpl in Hfew. rewrite length_app in Hfew. simpl in Hfew.
      destruct (unsuccessful_false R url _ (Hlast ltac:(lia)))
        as (a & st & ct & a' & bytes & _ & Hst & ->).
      eexists. split; [reflexivity|done].
Qed.

(** X16: a call that sends fewer than [maxRetries + 1] requests returns a
    response whose status is neither 429 nor 5xx: an error, or a response
    with such a status, comes only after the last attempt. *)
Theorem fetch_stops_early_only_on_success R url maxRetries n :
  0 ≤ maxRetries →
  let result := fetchWithRateLimit R url maxRetries n in
  (length (sent (snd result)) < length (sent n) + Z.to_nat (maxRetries + 1))%nat →
  ∃ res, fst result = inr res ∧ isRetryStatus (status res) = false.
Proof.
  intros Hm. cbv zeta. unfold fetchWithRateLimit. intros Hfew.
  apply attempts_early; [lia|]. by rewrite sent_rateLimit.
Qed.

Lemma fetch_stops_early_only_on_success_witness :
  ∃ res, fst (fetchWithRateLimit flaky firstUrl 3 epoch) = inr res
         ∧ isRetryStatus (status res) = false.
Proof.
  apply (fetch_stops_early_only_on_success flaky firstUrl 3 epoch);
    [lia | vm_compute; lia].
Defined.

Lemma attempts_result R url m left :
  ∀ attempt n res,
    fst (attempts R url m left attempt n) = inr res →
    ∃ older t,
      sent (snd (attempts R url m left attempt n)) = older ++ [(t, url)]
      ∧ finalOutcome R url (reply R (length older) url) = inr res.
Proof.
  induction left as [|left IH]; intros attempt n res Hres; [done|].
  destruct (attempts_step R url m left attempt n)
    as [(_ & _ & d & Heq & _) | (_ & d & Heq & _)]; rewrite Heq in *.
  - by apply IH.
  - exists (sent n), (clock n). by simpl in *.
Qed.

Lemma includes_app_l s t p : includes s p = true → includes (s ++ t) p = true.
Proof.
  assert (∀ p s t r, expect p s = Some r → expect p (s ++ t) = Some (r ++ t)) as Hexp.
  { clear. induction p as [|a p IH]; intros s t r; simpl.
    - by intros [= ->].
    - destruct s as [|b s]; [done|]. simpl. destruct (a =? b)%N; [apply IH|done]. }
  induction s as [|c s IH]; simpl.
  - rewrite orb_false_r. unfold startsWith. intros H%bool_decide_eq_true.
    destruct H as [r Hr]. destruct p; [|done]. by destruct t.
  - intros [H|H]%orb_true_iff; apply orb_true_iff; [left|right; by apply IH].
    unfold startsWith in *. apply bool_decide_eq_true in H as [r Hr].
    apply bool_decide_eq_true. change (c :: s ++ t) with ((c :: s) ++ t).
    rewrite (Hexp _ _ t _ Hr). eauto.
Qed.

Lemma includes_app_r s t p : includes t p = true → includes (s ++ t) p = true.
Proof.
  intros H. induction s as [|c s IH]; [done|]. simpl.
  apply orb_true_iff. by right.
Qed.

(** X17: whatever [fetchPravoLaw], [fetchPravoLawFull] or
    [fetchPravoLawText] returns has the status and content type of the reply
    to the last request the call sent, and as body the bytes of that reply
    decoded as windows-1251, whatever the content type says. *)
Theorem pravo_endpoints_decode_windows1251 fetchLaw urlOf R nd n res :
  (fetchLaw, urlOf) ∈ pravoEndpoints →
  fst (fetchLaw R nd n) = inr res →
  ∃ older t after st ct after' bytes,
    sent (snd (fetchLaw R nd n)) = older ++ [(t, urlOf nd)]
    ∧ settle (reply R (length older) (urlOf nd))
      = Answers after st ct (BodyBytes after' bytes)
    ∧ res = {| status := st; body := decodeWindows1251 R bytes;
               contentType := default [] ct |}.
Proof.
  intros Hin Hres.
  assert (fetchLaw R nd n = fetchWithRateLimit R (urlOf nd) 3 n
          ∧ includes (urlOf nd) (js "pravo.gov.ru") = true) as [Heq Hpravo].
  { unfold pravoEndpoints in Hin.
    repeat (apply elem_of_cons in Hin as [[= -> ->]|Hin]);
      try (by apply elem_of_nil in Hin);
      (split; [reflexivity|]); by apply includes_app_l. }
  rewrite Heq in *. unfold fetchWithRateLimit in *.
  destruct (attempts_result R (urlOf nd) 3 _ _ _ _ Hres) as (older & t & Hsent & Hfin).
  unfold finalOutcome in Hfin.
  destruct (settle (reply R (length older) (urlOf nd)))
    as [a msg | a st ct [a' msg | a' bytes]] eqn:Hs; try done.
  exists older, t, a, st, ct, a', bytes. split; [done|split; [done|]].
  injection Hfin as <-. unfold needsWin1251. by rewrite Hpravo.
Qed.

Lemma pravo_endpoints_decode_windows1251_witness :
  ∃ older t after st ct after' bytes,
    sent (snd (fetchPravoLawFull recovering (js "102027595") epoch))
      = older ++ [(t, pravoLawFullUrl (js "102027595"))]
    ∧ settle (reply recovering (length older) (pravoLawFullUrl (js "102027595")))
      = Answers after st ct (BodyBytes after' bytes)
    ∧ {| status := 200; body := js "ok"; contentType := js "text/plain" |}
      = {| status := st; body := decodeWindows1251 recovering bytes;
           contentType := default [] ct |}.
Proof.
  apply (pravo_endpoints_decode_windows1251 fetchPravoLawFull pravoLawFullUrl
           recovering (js "102027595") epoch).
  - right. left.
  - vm_compute. reflexivity.
Defined.

Section Json.
Context {Value : Type} (parseJson : list N → jsstring + Value).

Lemma jsonAttempts_step R url m left attempt n :
  (attempt < m
   ∧ jsonUnusable parseJson (reply R (length (sent n)) url) = true
   ∧ ∃ d, jsonAttempts Value parseJson R url m (S left) attempt n
          = jsonAttempts Value parseJson R url m left (attempt + 1)
              (advance d (send url n)))
  ∨ ((attempt < m → jsonUnusable parseJson (reply R (length (sent n)) url) = false)
     ∧ ∃ d, jsonAttempts Value parseJson R url m (S left) attempt n
            = (jsonFinal parseJson (reply R (length (sent n)) url),
               advance d (send url n))).
Proof.
  cbn [jsonAttempts]. unfold jsonUnusable, jsonFinal, sleep.
  destruct (settle (reply R (length (sent n)) url))
    as [a msg | a st ct [a' msg | a' bytes]];
    destruct (Z.ltb_spec attempt m) as [Hlt|Hge];
    rewrite ?andb_true_r, ?andb_false_r;
    try destruct (isRetryStatus st) eqn:Hst;
    try destruct (parseJson bytes) as [msg'|v] eqn:Hparse;
    rewrite ?advance_advance;
    try (left; split; [done|split; [done|]]; eexists; reflexivity);
    right; (split; [done || lia|]); eexists; reflexivity.
Qed.

Lemma jsonAttempts_first_ok R url m k :
  ∀ left attempt n,
    (k < left)%nat →
    attempt + Z.of_nat k ≤ m →
    (∀ j, (j < k)%nat →
          jsonUnusable parseJson (reply R (length (sent n) + j) url) = true) →
    jsonUnusable parseJson (reply R (length (sent n) + k) url) = false →
    fst (jsonAttempts Value parseJson R url m left attempt n)
      = jsonFinal parseJson (reply R (length (sent n) + k) url)
    ∧ length (sent (snd (jsonAttempts Value parseJson R url m left attempt n)))
      = (length (sent n) + k + 1)%nat.
Proof.
  induction k as [|k IH]; intros left attempt n Hleft Hm Hbad Hok;
    (destruct left as [|left]; [lia|]).
  - rewrite Nat.add_0_r in *.
    destruct (jsonAttempts_step R url m left attempt n)
      as [(_ & Hun & _) | (_ & d & ->)]; [congruence|].
    simpl. rewrite length_app. simpl. split; [done|lia].
  - pose proof (Hbad 0%nat ltac:(lia)) as H0. rewrite Nat.add_0_r in H0.
    destruct (jsonAttempts_step R url m left attempt n)
      as [(_ & _ & d & ->) | (Hlast & _)].
    2:{ rewrite Hlast in H0 by lia. done. }
    assert (length (sent (advance d (send url n))) = S (length (sent n))) as Hlen.
    { simpl. rewrite length_app. simpl. lia. }
    destruct (IH left (attempt + 1) (advance d (send url n))) as [H1 H2].
    + lia.
    + lia.
    + intros j Hj. rewrite Hlen.
      replace (S (length (sent n)) + j)%nat with (length (sent n) + S j)%nat by lia.
      apply Hbad. lia.
    + rewrite Hlen.
      by replace (S (length (sent n)) + k)%nat with (length (sent n) + S k)%nat by lia.
    + rewrite H1, H2, Hlen. split; [f_equal; f_equal; lia | lia].
Qed.

(** X18: [fetchJson] treats a body that is no JSON like a failed request.
    When the first [k] attempts, with [k] at most [maxRetries], fail, are
    answered with 429 or 5xx, or carry a body that cannot be read or
    parsed, and the next one is answered with another status and a body
    that parses, the call returns the parsed value and has sent [k + 1]
    requests. *)
Theorem fetchJson_returns_first_parsable R url maxRetries n k :
  0 ≤ maxRetries →
  (k ≤ Z.to_nat maxRetries)%nat →
  (∀ j, (j < k)%nat →
        jsonUnusable parseJson (reply R (length (sent n) + j) url) = true) →
  jsonUnusable parseJson (reply R (length (sent n) + k) url) = false →
  let result := fetchJson Value parseJson R url maxRetries n in
  length (sent (snd result)) = (length (sent n) + k + 1)%nat
  ∧ ∃ after st ct after' bytes v,
      settle (reply R (length (sent n) + k) url)
        = Answers after st ct (BodyBytes after' bytes)
      ∧ isRetryStatus st = false
      ∧ parseJson bytes = inr v
      ∧ fst result = inr v.
Proof.
  intros Hm Hk Hbad Hok. cbv zeta. unfold fetchJson.
  destruct (jsonAttempts_first_ok R url maxRetries k (Z.to_nat (maxRetries + 1)) 0
              (rateLimit n)) as [H1 H2].
  - lia.
  - lia.
  - by rewrite sent_rateLimit.
  - by rewrite sent_rateLimit.
  - rewrite sent_rateLimit in H1, H2. split; [done|].
    rewrite H1. unfold jsonUnusable, jsonFinal in *.
    destruct (settle (reply R (length (sent n) + k) url))
      as [a msg | a st ct [a' msg | a' bytes]]; try done.
    apply orb_false_iff in Hok as [Hst Hp].
    destruct (parseJson bytes) as [msg|v] eqn:Hparse; [done|].
    by exists a, st, ct, a', bytes, v.
Qed.

End Json.

Lemma fetchJson_returns_first_parsable_witness :
  length (sent (snd (fetchJson (list N) braces eventually someUrl 3 epoch))) = 3%nat
  ∧ ∃ after st ct after' bytes v,
      settle (reply eventually 2 someUrl)
        = Answers after st ct (BodyBytes after' bytes)
      ∧ isRetryStatus st = false
      ∧ braces bytes = inr v
      ∧ fst (fetchJson (list N) braces eventually someUrl 3 epoch) = inr v.
Proof.
  apply (fetchJson_returns_first_parsable braces eventually someUrl 3 epoch 2).
  - lia.
  - vm_compute. lia.
  - intros j Hj. unfold jsonUnusable. simpl.
    destruct (Nat.ltb_spec j 2); [reflexivity|lia].
  - reflexivity.
Defined.

End FetcherExtras.

(** ** Further properties of the census and of the orchestrator *)

Module IngestExtras.
Import Js Parser Fetcher Ingest IngestSpec RunSpec Samples ExtraSamples.
Import ParserSpec ExtraSpec ParserFacts DedupFacts ParserExtras.
Import FetcherClaims FetcherExtras IngestFacts IngestClaims.

(** *** Statistics *)

Lemma lookup_bump key stats k :
  bump key stats !! k
  = (λ v, (v + if decide (key = k) then 1 else 0)%nat) <$> stats !! k.
Proof.
  unfold bump. rewrite lookup_alter.
  case_decide; subst; destruct (stats !! k); simpl; f_equal; lia.
Qed.

Lemma lookup_countEntry stats e k :
  countEntry stats e !! k = (λ v, (v + hits k e)%nat) <$> stats !! k.
Proof.
  unfold countEntry, hits.
  destruct (withReferences e); rewrite !lookup_bump;
    destruct (stats !! k); simpl; f_equal;
    destruct (decide (js "with_eu_references" = k)); lia.
Qed.

Lemma lookup_fold_countEntry census :
  ∀ stats k,
    fold_left countEntry census stats !! k
    = (λ v, (v + sumHits k census)%nat) <$> stats !! k.
Proof.
  induction census as [|e census IH]; intros stats k; simpl.
  - destruct (stats !! k); simpl; f_equal. lia.
  - rewrite IH, lookup_countEntry. destruct (stats !! k); simpl; f_equal. lia.
Qed.

Lemma sumHits_filter k census (P : CensusEntry → Prop) `{∀ e, Decision (P e)} :
  (∀ e, hits k e = if decide (P e) then 1%nat else 0%nat) →
  sumHits k census = length (filter P census).
Proof.
  intros Hk. induction census as [|e census IH]; [done|].
  simpl. rewrite Hk, IH, filter_cons. by destruct (decide (P e)).
Qed.

(** The names of the counters are pairwise distinct. *)
Ltac distinct_names := vm_compute; reflexivity.

(** X19: the statistics count what their names say: [total] is the number
    of entries, the counter of each classification, law type and status is
    the number of entries that carry it, and [with_eu_references] is the
    number of entries with at least one EU reference.  The counters of the
    classifications add up to [total]. *)
Theorem census_stats_count census :
  let stats := getCensusStats census in
  stats !! js "total" = Some (length census)
  ∧ (∀ c, stats !! classificationName c
          = Some (length (filter (λ e, classification e = c) census)))
  ∧ (∀ t, stats !! lawTypeName t
          = Some (length (filter (λ e, law_type e = t) census)))
  ∧ (∀ s, stats !! statusName s
          = Some (length (filter (λ e, status e = s) census)))
  ∧ stats !! js "with_eu_references"
    = Some (length (filter (λ e, withReferences e = true) census))
  ∧ (length (filter (λ e, classification e = ingestable) census)
     + length (filter (λ e, classification e = ocr_needed) census)
     + length (filter (λ e, classification e = inaccessible) census)
     + length (filter (λ e, classification e = excluded) census))%nat
    = length census.
Proof.
  cbv zeta. unfold getCensusStats. repeat split.
  - rewrite lookup_fold_countEntry.
    rewrite (sumHits_filter _ census (λ _, False)).
    + assert (filter (λ _ : CensusEntry, False) census = []) as ->.
      { induction census as [|e l IH]; [done|]. by rewrite filter_cons. }
      change (initialStats census !! js "total") with (Some (length census)).
      simpl. f_equal. lia.
    + intros e. unfold hits.
      destruct (classification e), (law_type e), (status e); distinct_names.
  - intros c. rewrite lookup_fold_countEntry.
    rewrite (sumHits_filter _ census (λ e, classification e = c)).
    + by destruct c.
    + intros e. unfold hits.
      destruct c, (classification e), (law_type e), (status e); distinct_names.
  - intros t. rewrite lookup_fold_countEntry.
    rewrite (sumHits_filter _ census (λ e, law_type e = t)).
    + by destruct t.
    + intros e. unfold hits.
      destruct t, (classification e), (law_type e), (status e); distinct_names.
  - intros s. rewrite lookup_fold_countEntry.
    rewrite (sumHits_filter _ census (λ e, status e = s)).
    + by destruct s.
    + intros e. unfold hits.
      destruct s, (classification e), (law_type e), (status e); distinct_names.
  - rewrite lookup_fold_countEntry.
    rewrite (sumHits_filter _ census (λ e, withReferences e = true)).
    + done.
    + intros e. unfold hits.
      destruct (classification e), (law_type e), (status e), (withReferences e);
        distinct_names.
  - induction census as [|e l IH]; [done|]. rewrite !filter_cons.
    destruct (classification e); repeat case_decide; try congruence;
      simpl; lia.
Qed.

(** *** EU reference seeds *)

Lemma hasEuReferences_iff census :
  hasEuReferences census = true ↔ ∃ e, e ∈ census ∧ withReferences e = true.
Proof.
  unfold hasEuReferences. rewrite existsb_exists. unfold withReferences.
  split; intros (e & He & H); exists e; (split; [by apply list_elem_of_In|done]).
Qed.

Lemma seeds_nil_iff census :
  euReferenceSeeds census = [] ↔ ∀ e, e ∈ census → withReferences e = false.
Proof.
  unfold euReferenceSeeds, withReferences.
  induction census as [|e census IH]; simpl.
  - split; [by intros _ ? ?%elem_of_nil|done].
  - split.
    + intros [H1 H2]%app_nil e' [->|Hin]%elem_of_cons.
      * by destruct (eu_references e) as [[|]|].
      * by apply IH.
    + intros H. apply app_nil. split.
      * pose proof (H e ltac:(left)) as He.
        by destruct (eu_references e) as [[|]|].
      * apply IH. intros e' He'. apply H. by right.
Qed.

(** X20: every reference seed comes from a reference of a catalog entry,
    carries the identifier of that entry, and has the document identifier
    in exactly one of its two fields, by the type of the reference.  The
    list is empty exactly when no entry has a reference, which is when the
    statistics count no law with EU references; then the file of EU
    references is not written, so that this write cannot fail. *)
Theorem eu_reference_seeds P census :
  (∀ s, s ∈ euReferenceSeeds census →
     ∃ e refs r,
       e ∈ census ∧ eu_references e = Some refs ∧ r ∈ refs
       ∧ law_id s = id e
       ∧ seed_reference_type s = reference_type r
       ∧ ((eu_type r = directive ∧ eu_directive s = Some (eu_document_id r)
           ∧ eu_regulation s = None)
          ∨ (eu_type r = regulation ∧ eu_directive s = None
             ∧ eu_regulation s = Some (eu_document_id r))))
  ∧ (euReferenceSeeds census = [] ↔ hasEuReferences census = false)
  ∧ (euReferenceSeeds census = []
     ↔ getCensusStats census !! js "with_eu_references" = Some 0%nat)
  ∧ (euReferenceSeeds census = [] →
     ∀ w, writeEuReferences P census w = (None, w)).
Proof.
  assert (euReferenceSeeds census = [] ↔ hasEuReferences census = false) as Hiff.
  { rewrite seeds_nil_iff. split.
    - intros H. apply not_true_is_false. intros (e & He & Hw)%hasEuReferences_iff.
      rewrite (H e He) in Hw. done.
    - intros H e He. apply not_true_is_false. intros Hw.
      assert (hasEuReferences census = true) as Ht.
      { apply hasEuReferences_iff. by exists e. }
      congruence. }
  split; [|split; [exact Hiff|split]].
  - intros s Hs. unfold euReferenceSeeds in Hs.
    apply list_elem_of_In, in_flat_map in Hs as (e & He & Hs).
    destruct (eu_references e) as [refs|] eqn:Hrefs; [|done].
    apply in_map_iff in Hs as (r & <- & Hr).
    exists e, refs, r. simpl.
    repeat split; try done; try (by apply list_elem_of_In).
    destruct (eu_type r); [left|right]; done.
  - rewrite seeds_nil_iff. unfold getCensusStats.
    rewrite lookup_fold_countEntry.
    rewrite (sumHits_filter _ census (λ e, withReferences e = true)).
    2:{ intros e. unfold hits.
        destruct (classification e), (law_type e), (status e), (withReferences e);
          distinct_names. }
    change (initialStats census !! js "with_eu_references") with (Some 0%nat).
    simpl. split.
    + intros H. f_equal. clear Hiff.
      induction census as [|e l IH]; [done|]. rewrite filter_cons.
      rewrite decide_False.
      * apply IH. intros e' He'. apply H. by right.
      * rewrite (H e ltac:(left)). done.
    + intros [= H] e He. apply not_true_is_false. intros Hw.
      assert (e ∈ filter (λ e, withReferences e = true) census) as Hin.
      { by apply list_elem_of_filter. }
      destruct (filter _ census); [by apply elem_of_nil in Hin|done].
  - intros Hnil w. unfold writeEuReferences. by rewrite Hnil.
Qed.

(** *** One law *)

Lemma placeholder_shape e : seedShape [placeholder e].
Proof.
  unfold seedShape. split; [done|]. split; [|split].
  - intros [|i] p Hp; [by injection Hp as <-|done].
  - change (article <$> [placeholder e]) with [article (placeholder e)].
    apply NoDup_singleton.
  - constructor; [|constructor]. unfold placeholder, placeholderText.
    cbn [content]. intros [_ H]%app_nil. by apply app_nil in H as [H _].
Qed.

Lemma parse_shape text ps :
  parseRussianText text = Some ps →
  (∀ i p, ps !! i = Some p → order_index p = i)
  ∧ NoDup (article <$> ps)
  ∧ Forall (λ p, content p ≠ []) ps.
Proof.
  intros Hps.
  destruct (parse_returns text) as (seen & deduped & Hparse & Hinv).
  destruct (parse_good text) as (ps' & Hparse' & Hgood).
  assert (ps' = ps) as -> by congruence.
  assert (ps = reindex deduped) as Heq by congruence.
  split; [|split].
  - subst ps. intros i p Hp. rewrite lookup_reindex in Hp.
    destruct (deduped !! i); [|done]. by injection Hp as <-.
  - subst ps. rewrite articles_reindex. apply NoDup_alt. intros i j a Hi Hj.
    rewrite list_lookup_fmap in Hi, Hj.
    destruct (deduped !! i) as [p|] eqn:Hp; [|done].
    destruct (deduped !! j) as [q|] eqn:Hq; [|done].
    simpl in Hi, Hj.
    apply (dedupInv_unique _ _ _ i j p q Hinv Hp Hq). congruence.
  - eapply Forall_impl; [exact Hgood|]. by intros p (_ & _ & _ & ? & _).
Qed.

Lemma fetchPhase_parsed P o e w :
  fst (fetchPhase P o e w) = []
  ∨ ∃ text, parseRussianText text = Some (fst (fetchPhase P o e w)).
Proof.
  unfold fetchPhase, parsePravoHtml.
  repeat case_match; simplify_eq; simpl; eauto.
Qed.

Lemma fetchPhase_skip P o e w : skipFetch o = true → fetchPhase P o e w = ([], w).
Proof. intros H. unfold fetchPhase. by rewrite H. Qed.

Lemma fetchPhase_requests P o e w :
  ∃ new,
    sent (net (snd (fetchPhase P o e w))) = sent (net w) ++ new
    ∧ (length new ≤ 4)%nat
    ∧ ∀ p, p ∈ new → p.2 = pravoTextUrl (nd e).
Proof.
  unfold fetchPhase. destruct (skipFetch o).
  { exists []. simpl. rewrite app_nil_r.
    repeat split; [lia | by intros ? ?%elem_of_nil]. }
  unfold fetchPravoLawText, fetchWithRateLimit.
  destruct (attempts_trace (remote P) (pravoTextUrl (nd e)) 3 (Z.to_nat (3 + 1)) 0
              (rateLimit (net w))) as (new & Hsent & Hlen & _ & Hurl & _).
  rewrite sent_rateLimit in Hsent.
  exists new. split; [|split; [exact Hlen|exact Hurl]].
  destruct (attempts _ _ _ _ _ _) as [[err|res] n']; simpl in Hsent;
    repeat case_match; exact Hsent.
Qed.

Lemma ingestLaw_unfold P o e w :
  (∃ count,
     existingCount w e = Some count
     ∧ ingestLaw P o e w
       = (inr {| entry := e; ingested := true; provision_count := count;
                 error := None |}, w))
  ∨ (existingCount w e = None ∧ classification e ≠ ingestable
     ∧ ingestLaw P o e w
       = (inr {| entry := e; ingested := false; provision_count := 0;
                 error := Some (js "Classification: "
                                ++ classificationName (classification e)) |}, w))
  ∨ (existingCount w e = None ∧ classification e = ingestable
     ∧ ∃ msg, writeError P (seedPath e) = Some msg
              ∧ ingestLaw P o e w = (inl msg, snd (fetchPhase P o e w)))
  ∨ (existingCount w e = None ∧ classification e = ingestable
     ∧ writeError P (seedPath e) = None
     ∧ ∃ ps,
         ps = (if (length (fst (fetchPhase P o e w)) =? 0)%nat
               then [placeholder e] else fst (fetchPhase P o e w))
         ∧ ingestLaw P o e w
           = (inr {| entry := e; ingested := true; provision_count := length ps;
                     error := None |},
              {| net := net (snd (fetchPhase P o e w));
                 files :=
                   <[seedPath e :=
                       SeedJson {| law := seedLaw P e (snd (fetchPhase P o e w));
                                   provisions := ps;
                                   seed_ingestion := None |}]>
                     (files (snd (fetchPhase P o e w))) |})).
Proof.
  unfold ingestLaw.
  destruct (existingCount w e) as [count|] eqn:Hex; [left; eauto|]. right.
  case_bool_decide as Hc; [left; done|]. right.
  assert (classification e = ingestable) as Hi.
  { destruct (decide (classification e = ingestable)); done. }
  destruct (fetchPhase P o e w) as [ex w1]. simpl.
  destruct (writeError P (seedPath e)) as [msg|] eqn:Hw; [left|right]; eauto 10.
Qed.

Lemma existingCount_files w1 w2 e :
  files w1 = files w2 → existingCount w1 e = existingCount w2 e.
Proof. unfold existingCount. by intros ->. Qed.

Lemma existingCount_path w e e' :
  seedPath e = seedPath e' → existingCount w e = existingCount w e'.
Proof. unfold existingCount. by intros ->. Qed.

Lemma existingCount_pos w e c : existingCount w e = Some c → (1 ≤ c)%nat.
Proof.
  unfold existingCount. repeat case_match; try done.
  intros [= <-]. by apply Nat.ltb_lt.
Qed.

Lemma existingCount_written (w : World) n e seed :
  provisions seed ≠ [] →
  existingCount {| net := n; files := <[seedPath e := SeedJson seed]> (files w) |} e
  = Some (length (provisions seed)).
Proof.
  intros Hne. unfold existingCount. simpl. rewrite lookup_insert_eq.
  cbn [provisionsOf]. destruct (provisions seed); done.
Qed.

Lemma extracted_or_placeholder_nonempty e (ex : list ParsedProvision) :
  (if (length ex =? 0)%nat then [placeholder e] else ex) ≠ [].
Proof. by destruct ex. Qed.

(** What one call of [ingestLaw] does to the log of requests. *)
Lemma ingestLaw_requests P o e w :
  ∃ new,
    sent (net (snd (ingestLaw P o e w))) = sent (net w) ++ new
    ∧ (length new ≤ if existingCount w e is Some _ then 0 else 4)%nat
    ∧ (∀ p, p ∈ new → p.2 = pravoTextUrl (nd e))
    ∧ (skipFetch o = true → net (snd (ingestLaw P o e w)) = net w).
Proof.
  destruct (fetchPhase_requests P o e w) as (new & Hsent & Hlen & Hurl).
  destruct (ingestLaw_unfold P o e w)
    as [(c & Hex & ->) | [(Hex & _ & ->) | [(Hex & _ & msg & _ & ->)
                                           | (Hex & _ & _ & ps & _ & ->)]]];
    rewrite Hex; simpl.
  1,2: exists []; rewrite app_nil_r;
       (split; [done|split; [simpl; lia|split; [by intros ? ?%elem_of_nil|done]]]).
  all: exists new; (split; [done|split; [done|split; [done|]]]);
       intros Hskip; by rewrite (fetchPhase_skip P o e w Hskip).
Qed.

(** What one call of [ingestLaw] does to the seed files. *)
Lemma ingestLaw_files P o e w :
  files (snd (ingestLaw P o e w)) = files w
  ∨ ∃ seed,
      existingCount w e = None
      ∧ writeError P (seedPath e) = None
      ∧ files (snd (ingestLaw P o e w)) = <[seedPath e := SeedJson seed]> (files w)
      ∧ describes (law seed) e
      ∧ seedShape (provisions seed)
      ∧ (skipFetch o = true → provisions seed = [placeholder e]).
Proof.
  destruct (ingestLaw_unfold P o e w)
    as [(c & Hex & ->) | [(Hex & _ & ->) | [(Hex & _ & msg & _ & ->)
                                           | (Hex & _ & Hw & ps & Hps & ->)]]];
    simpl; try (by left).
  - left. apply files_fetchPhase.
  - right. eexists. split; [done|]. split; [done|]. split.
    { by rewrite files_fetchPhase. }
    simpl. split; [by repeat split|]. split.
    + subst ps. destruct (fst (fetchPhase P o e w)) as [|p ex] eqn:Hex'.
      * apply placeholder_shape.
      * simpl. destruct (fetchPhase_parsed P o e w) as [H|[text Htext]];
          [congruence|].
        rewrite Hex' in Htext. destruct (parse_shape _ _ Htext) as (H1 & H2 & H3).
        by repeat split.
    + intros Hskip. subst ps. by rewrite (fetchPhase_skip P o e w Hskip).
Qed.

Lemma existingCount_after P o e w e' c :
  existingCount w e' = Some c →
  existingCount (snd (ingestLaw P o e w)) e' = Some c.
Proof.
  intros Hc.
  destruct (ingestLaw_files P o e w) as [Hf|(seed & Hex & _ & Hf & _)].
  - by rewrite (existingCount_files _ w).
  - unfold existingCount in *. rewrite Hf.
    destruct (decide (seedPath e = seedPath e')) as [Heq|Hne].
    + rewrite Heq in Hex. congruence.
    + by rewrite lookup_insert_ne.
Qed.

Lemma existingCount_before P o e w e' :
  existingCount (snd (ingestLaw P o e w)) e' = None → existingCount w e' = None.
Proof.
  intros H. destruct (existingCount w e') as [c|] eqn:Hc; [|done].
  by rewrite (existingCount_after P o e w e' c Hc) in H.
Qed.

(** The result recorded for an entry to ingest. *)
Lemma resultOf_facts P o e w :
  classification e = ingestable →
  if ingested (resultOf P o e w) then
    error (resultOf P o e w) = None
    ∧ existingCount (snd (ingestLaw P o e w)) e
      = Some (provision_count (resultOf P o e w))
  else
    is_Some (error (resultOf P o e w))
    ∧ error (resultOf P o e w) = writeError P (seedPath e).
Proof.
  intros Hi. unfold resultOf.
  destruct (ingestLaw_unfold P o e w)
    as [(c & Hex & ->) | [(Hex & Hc & ->) | [(Hex & _ & msg & Hw & ->)
                                            | (Hex & _ & Hw & ps & Hps & ->)]]];
    simpl; try done.
  split; [done|].
  apply (existingCount_written (snd (fetchPhase P o e w))).
  simpl. subst ps. apply extracted_or_placeholder_nonempty.
Qed.

Lemma resultOf_sound P o e w : sound (resultOf P o e w).
Proof.
  unfold sound, resultOf.
  destruct (ingestLaw_unfold P o e w)
    as [(c & Hex & ->) | [(Hex & Hc & ->) | [(Hex & _ & msg & Hw & ->)
                                            | (Hex & _ & Hw & ps & Hps & ->)]]];
    simpl; try done.
  - by eapply existingCount_pos.
  - pose proof (extracted_or_placeholder_nonempty e (fst (fetchPhase P o e w))) as H.
    rewrite <- Hps in H. destruct ps; [done|simpl; lia].
Qed.

(** *** The loop *)

Lemma existingCount_loop P o l :
  ∀ t w e' c,
    existingCount w e' = Some c →
    existingCount (snd (loop P o l (t, w))) e' = Some c.
Proof.
  induction l as [|e l IH]; intros t w e' c Hc; [done|].
  rewrite loop_cons. apply IH. by apply existingCount_after.
Qed.

Lemma sumCounts_snoc rs r :
  sumCounts (rs ++ [r]) = (sumCounts rs + provision_count r)%nat.
Proof. unfold sumCounts. induction rs as [|x rs IH]; simpl; lia. Qed.

Lemma balanced_push t r : sound r → balanced t → balanced (tallyPush t r).
Proof.
  unfold sound, balanced, tallyPush. intros Hr (Hs & Hp & Hle). simpl.
  rewrite sumCounts_snoc. destruct (ingested r); repeat split; lia.
Qed.

Lemma balanced_loop P o l :
  ∀ t w, balanced t → balanced (fst (loop P o l (t, w))).
Proof.
  induction l as [|e l IH]; intros t w Ht; [done|].
  rewrite loop_cons. apply IH, balanced_push; [apply resultOf_sound|done].
Qed.

(** X21: the counters of a summary fit its results.  Nothing is ever
    counted as skipped; successes and failures add up to the number of
    entries processed, which is the number of results; the total of
    provisions is the sum over the results and is at least the number of
    successes; and the failure list has one line per failure. *)
Theorem run_accounting P o census w :
  let r := summaryOf P o census w in
  skip_count r = 0%nat
  ∧ (success_count r + fail_count r)%nat = total_processed r
  ∧ length (run_results r) = total_processed r
  ∧ total_provisions r = sumCounts (run_results r)
  ∧ (success_count r ≤ total_provisions r)%nat
  ∧ length (failed_laws r) = fail_count r.
Proof.
  cbv zeta. unfold summaryOf.
  set (l := toProcess o census).
  pose proof (balanced_loop P o l emptyTally w) as (Hs & Hp & Hle).
  { by repeat split. }
  pose proof (loop_counted P o l emptyTally w counted_empty) as Hcounted.
  pose proof (counted_total _ Hcounted) as Htotal.
  pose proof (length_results_loop P o l w) as Hlen.
  destruct Hcounted as [_ Hfail].
  set (t := fst (loop P o l (emptyTally, w))) in *.
  unfold report. simpl.
  repeat split; try done; try lia.
  destruct (Nat.eqb_spec (successCount t) (length l)) as [Heq|Hne]; [simpl; lia|].
  destruct (Nat.ltb_spec 0 (failCount t)); [|simpl; lia].
  unfold failurePairs. by rewrite length_fmap.
Qed.

Lemma loop_results_facts P o l :
  (∀ e, e ∈ l → classification e = ingestable) →
  ∀ t w x,
    x ∈ results (fst (loop P o l (t, w))) →
    x ∈ results t
    ∨ (entry x ∈ l
       ∧ sound x
       ∧ if ingested x then
           error x = None
           ∧ existingCount (snd (loop P o l (t, w))) (entry x)
             = Some (provision_count x)
         else
           is_Some (error x)
           ∧ error x = writeError P (seedPath (entry x))).
Proof.
  induction l as [|e l IH]; intros Hl t w x Hx; [by left|].
  rewrite loop_cons in *.
  destruct (IH (λ e' He', Hl e' ltac:(by right)) _ _ _ Hx)
    as [Hin|(Hin & Hsound & Hfacts)].
  - simpl in Hin. apply elem_of_app in Hin as [Hin|Hin]; [by left|].
    apply list_elem_of_singleton in Hin as ->. right.
    rewrite entry_resultOf. split; [left|]. split; [apply resultOf_sound|].
    pose proof (resultOf_facts P o e w (Hl e ltac:(left))) as Hr.
    destruct (ingested (resultOf P o e w)); [|done].
    destruct Hr as [Herr Hcount]. split; [done|].
    by apply existingCount_loop.
  - right. split; [by right|done].
Qed.

(** X22: in a run, the only way an entry fails is that its seed file cannot
    be written: a result that is not ingested carries as its error the
    message of that write, and stands for no provision. *)
Theorem run_failures_are_write_failures P o census w x :
  x ∈ run_results (summaryOf P o census w) →
  ingested x = false →
  entry x ∈ toProcess o census
  ∧ is_Some (error x)
  ∧ error x = writeError P (seedPath (entry x))
  ∧ provision_count x = 0%nat.
Proof.
  unfold summaryOf. simpl. intros Hx Hfail.
  destruct (loop_results_facts P o (toProcess o census)
              (toProcess_ingestable o census) emptyTally w x Hx)
    as [Hin|(Hin & Hsound & Hfacts)]; [by apply elem_of_nil in Hin|].
  unfold sound in Hsound. rewrite Hfail in Hfacts, Hsound.
  by destruct Hfacts.
Qed.

(** X23: in a run, a result that is ingested carries no error, and its
    provision count is at least one and is the number of provisions in the
    seed file of its entry when the loop over the entries ends. *)
Theorem run_successes_match_seed_files P o census w x :
  x ∈ run_results (summaryOf P o census w) →
  ingested x = true →
  entry x ∈ toProcess o census
  ∧ error x = None
  ∧ (1 ≤ provision_count x)%nat
  ∧ ∃ seed,
      files (worldAfter P o census w) !! seedPath (entry x) = Some (SeedJson seed)
      ∧ length (provisions seed) = provision_count x.
Proof.
  unfold summaryOf, worldAfter. simpl. intros Hx Hok.
  destruct (loop_results_facts P o (toProcess o census)
              (toProcess_ingestable o census) emptyTally w x Hx)
    as [Hin|(Hin & Hsound & Hfacts)]; [by apply elem_of_nil in Hin|].
  unfold sound in Hsound. rewrite Hok in Hfacts, Hsound.
  destruct Hfacts as [Herr Hcount]. repeat split; try done.
  unfold existingCount in Hcount.
  destruct (files _ !! seedPath (entry x)) as [[|seed| | |]|]; try done.
  exists seed. split; [done|]. cbn [provisionsOf] in Hcount.
  destruct (0 <? length (provisions seed))%nat; congruence.
Qed.

Lemma run_failures_are_write_failures_witness :
  let x := {| entry := sampleEntry "constitution-rf" "102027595" ingestable;
              ingested := false; provision_count := 0;
              error := Some (js "EACCES: permission denied") |} in
  entry x ∈ toProcess fullRun fullCatalog
  ∧ is_Some (error x)
  ∧ error x = writeError oneBadFile (seedPath (entry x))
  ∧ provision_count x = 0%nat.
Proof.
  cbv zeta.
  apply (run_failures_are_write_failures oneBadFile fullRun fullCatalog fresh).
  - apply (list_elem_of_lookup_2 _ 0%nat). vm_compute. reflexivity.
  - reflexivity.
Defined.

Lemma run_successes_match_seed_files_witness :
  let x := {| entry := personalData; ingested := true; provision_count := 1;
              error := None |} in
  entry x ∈ toProcess fullRun [personalData]
  ∧ error x = None
  ∧ (1 ≤ provision_count x)%nat
  ∧ ∃ seed,
      files (worldAfter offline fullRun [personalData] fresh) !! seedPath (entry x)
        = Some (SeedJson seed)
      ∧ length (provisions seed) = provision_count x.
Proof.
  cbv zeta.
  apply (run_successes_match_seed_files offline fullRun [personalData] fresh).
  - apply (list_elem_of_lookup_2 _ 0%nat). vm_compute. reflexivity.
  - reflexivity.
Defined.












Lemma length_filter_le {A} (P Q : A → Prop) `{∀ x, Decision (P x)}
    `{∀ x, Decision (Q x)} (l : list A) :
  (∀ x, P x → Q x) → (length (filter P l) ≤ length (filter Q l))%nat.
Proof.
  intros HPQ. induction l as [|x l IH]; [done|]. rewrite !filter_cons.
  destruct (decide (P x)) as [HP|HP].
  - rewrite decide_True by auto. simpl. lia.
  - destruct (decide (Q x)); simpl; lia.
Qed.

Lemma loop_requests P o l :
  ∀ t w,
    ∃ new,
      sent (net (snd (loop P o l (t, w)))) = sent (net w) ++ new
      ∧ (length new ≤ 4 * length (filter (λ e, existingCount w e = None) l))%nat
      ∧ ∀ p, p ∈ new →
          ∃ e, e ∈ l ∧ existingCount w e = None ∧ p.2 = pravoTextUrl (nd e).
Proof.
  induction l as [|e l IH]; intros t w.
  - exists []. simpl. rewrite app_nil_r.
    split; [done|split; [lia|by intros ? ?%elem_of_nil]].
  - rewrite loop_cons.
    destruct (ingestLaw_requests P o e w) as (new0 & Hsent0 & Hlen0 & Hurl0 & _).
    destruct (IH (tallyPush t (resultOf P o e w)) (snd (ingestLaw P o e w)))
      as (new1 & Hsent1 & Hlen1 & Hurl1).
    exists (new0 ++ new1). split; [|split].
    + by rewrite Hsent1, Hsent0, app_assoc.
    + pose proof (length_filter_le
                    (λ e', existingCount (snd (ingestLaw P o e w)) e' = None)
                    (λ e', existingCount w e' = None) l
                    (λ e', existingCount_before P o e w e')) as Hmono.
      rewrite length_app, filter_cons.
      destruct (existingCount w e) as [c|] eqn:Hex.
      * rewrite decide_False by done. lia.
      * rewrite decide_True by done. simpl. lia.
    + intros p [Hp|Hp]%elem_of_app.
      * exists e. split; [left|]. split; [|by apply Hurl0].
        destruct (existingCount w e) eqn:Hex; [|done].
        simpl in Hlen0. destruct new0; [by apply elem_of_nil in Hp|simpl in Hlen0; lia].
      * destruct (Hurl1 p Hp) as (e' & Hin & Hex & Hp').
        exists e'. split; [by right|]. split; [|done].
        by apply (existingCount_before P o e w).
Qed.

(** X26: a run only adds to the log of requests; it sends at most four
    requests for each entry to process that had no usable seed file when
    the run began, none for the others, and every request goes to the
    plain-text address of such an entry. *)
Theorem run_request_budget P o census w :
  ∃ new,
    sent (net (worldAfter P o census w)) = sent (net w) ++ new
    ∧ (length new
       ≤ 4 * length (filter (λ e, existingCount w e = None) (toProcess o census)))%nat
    ∧ ∀ t u, (t, u) ∈ new →
        ∃ e, e ∈ toProcess o census ∧ existingCount w e = None
             ∧ u = pravoTextUrl (nd e).
Proof.
  unfold worldAfter.
  destruct (loop_requests P o (toProcess o census) emptyTally w)
    as (new & Hsent & Hlen & Hurl).
  exists new. split; [done|split; [done|]].
  intros t u Hin. exact (Hurl (t, u) Hin).
Qed.

(** X27: the entries a run processes are the first ingestable entries of
    the catalog, in catalog order: all of them when the limit is zero or
    negative, else as many as the limit says, and all when there are
    fewer.  The number of ingestable entries is the one that the statistics
    report. *)
Theorem limit_caps_processed P o census w :
  let ingestables := filter (λ e, classification e = ingestable) census in
  getCensusStats census !! js "ingestable" = Some (length ingestables)
  ∧ (∃ rest, ingestables = toProcess o census ++ rest)
  ∧ total_processed (summaryOf P o census w)
    = (if (0 <? limit o)%Z
       then Nat.min (Z.to_nat (limit o)) (length ingestables)
       else length ingestables).
Proof.
  cbv zeta. split; [|split].
  - unfold getCensusStats. rewrite lookup_fold_countEntry.
    rewrite (sumHits_filter _ census (λ e, classification e = ingestable)).
    + done.
    + intros e. unfold hits.
      destruct (classification e), (law_type e), (status e); distinct_names.
  - unfold toProcess. destruct (0 <? limit o)%Z.
    + eexists. symmetry. apply take_drop.
    + exists []. by rewrite app_nil_r.
  - unfold summaryOf, toProcess. simpl.
    destruct (0 <? limit o)%Z; [apply length_take|done].
Qed.

End IngestExtras.

(** ** Properties of the page parser and of the metadata extractor *)

Module PageExtras.
Import Js Parser Fetcher Ingest Html PageSpec ExtraSpec ExtraSamples.
Import ParserFacts DedupFacts ParserExtras.

Lemma pickTitle_cases d selectors :
  pickTitle d selectors = []
  ∨ ∃ selector,
      selector ∈ selectors
      ∧ pickTitle d selectors = trim (firstText d selector)
      ∧ (5 < length (pickTitle d selectors) < 500)%nat.
Proof.
  induction selectors as [|sel rest IH]; [by left|]. simpl.
  destruct (truthy (trim (firstText d sel))); simpl.
  2:{ destruct IH as [?|(s & ? & ? & ?)]; [by left|right].
      exists s. split; [by right|done]. }
  destruct (Nat.ltb_spec 5 (length (trim (firstText d sel)))); simpl.
  2:{ destruct IH as [?|(s & ? & ? & ?)]; [by left|right].
      exists s. split; [by right|done]. }
  destruct (Nat.ltb_spec (length (trim (firstText d sel))) 500).
  2:{ destruct IH as [?|(s & ? & ? & ?)]; [by left|right].
      exists s. split; [by right|done]. }
  right. exists sel. split; [left|]. split; [done|lia].
Qed.

Lemma pickContent_cases d selectors :
  pickContent d selectors = []
  ∨ ∃ selector,
      selector ∈ selectors
      ∧ pickContent d selectors = allText d selector
      ∧ (200 < length (trim (allText d selector)))%nat.
Proof.
  induction selectors as [|sel rest IH]; [by left|]. simpl.
  destruct (0 <? length (select d sel))%nat.
  2:{ destruct IH as [?|(s & ? & ? & ?)]; [by left|right].
      exists s. split; [by right|done]. }
  destruct (Nat.ltb_spec 200 (length (trim (allText d sel)))).
  2:{ destruct IH as [?|(s & ? & ? & ?)]; [by left|right].
      exists s. split; [by right|done]. }
  right. exists sel. split; [left|done].
Qed.

Lemma pickContent_none d selectors :
  (∀ selector, selector ∈ selectors →
     (length (trim (allText d selector)) ≤ 200)%nat) →
  pickContent d selectors = [].
Proof.
  intros Hshort.
  destruct (pickContent_cases d selectors) as [?|(s & Hin & _ & Hlen)]; [done|].
  specialize (Hshort s Hin). lia.
Qed.

(** X28: [parsePravoHtml] always returns.  Its title is empty, or it is the
    trimmed text of the first element of one of the title selectors and has
    more than 5 and fewer than 500 code units.  Its provisions are what
    [parseRussianText] makes of the text of one of the content selectors,
    of [body] when no selector holds more than 200 code units of trimmed
    text, so they have all that holds of the results of that function.
    The platform of the orchestrator, read this way, parses a page as
    [parsePravoHtml] does. *)
Theorem parsePravoHtml_result d :
  (∃ law,
    Html.parsePravoHtml d = Some law
    ∧ (parsed_title law = []
       ∨ (∃ selector,
            selector ∈ titleSelectors
            ∧ parsed_title law = trim (firstText d selector))
         ∧ (5 < length (parsed_title law) < 500)%nat
         ∧ Trimmed (parsed_title law))
    ∧ (∃ selector,
         selector ∈ contentSelectors
         ∧ parseRussianText (allText d selector) = Some (parsed_provisions law))
    ∧ ((∀ selector, selector ∈ contentSelectors →
          (length (trim (allText d selector)) ≤ 200)%nat) →
       parseRussianText (allText d (js "body")) = Some (parsed_provisions law))
    ∧ Forall goodProvision (parsed_provisions law))
  ∧ ∀ load R failing date html,
      Ingest.parsePravoHtml (pageReader load R failing date) html
      = Html.parsePravoHtml (load html).
Proof.
  split; [|done].
  unfold Html.parsePravoHtml.
  destruct (parse_good (rawText d)) as (ps & Hps & Hgood). rewrite Hps.
  eexists. split; [reflexivity|]. cbn [parsed_title parsed_provisions].
  split; [|split; [|split; [|done]]].
  - destruct (pickTitle_cases d titleSelectors) as [?|(s & Hin & Heq & Hlen)];
      [by left|right].
    split; [by exists s|]. split; [done|]. rewrite Heq. apply trim_trimmed.
  - unfold rawText in Hps.
    destruct (pickContent_cases d contentSelectors)
      as [Hnil|(s & Hin & Heq & Hlen)].
    + rewrite Hnil in Hps. change (truthy []) with false in Hps.
      exists (js "body"). split; [|done].
      unfold contentSelectors. repeat (try (by left); right).
    + exists s. split; [done|]. rewrite Heq in Hps.
      destruct (truthy (allText d s)) eqn:Ht; [done|].
      unfold truthy in Ht. apply negb_false_iff, bool_decide_eq_true in Ht.
      rewrite Ht in Hlen. simpl in Hlen. lia.
  - intros Hshort. unfold rawText in Hps.
    by rewrite (pickContent_none _ _ Hshort) in Hps.
Qed.

(** *** Metadata *)

Lemma search_found {A} (at_start : jsstring → option A) s r :
  search at_start s = Some r →
  ∃ pre suf, s = pre ++ suf ∧ at_start suf = Some r.
Proof.
  induction s as [|c s IH]; simpl.
  - destruct (at_start []) eqn:H0; [|done]. intros [= <-]. by exists [], [].
  - destruct (at_start (c :: s)) eqn:H0.
    + intros [= <-]. by exists [], (c :: s).
    + intros (pre & suf & -> & Hsuf)%IH. by exists (c :: pre), suf.
Qed.

Lemma search_app {A} (at_start : jsstring → option A) pre suf :
  is_Some (at_start suf) → is_Some (search at_start (pre ++ suf)).
Proof.
  intros Hsuf. induction pre as [|c pre IH]; simpl.
  - destruct suf; simpl; destruct Hsuf as [r ->]; eauto.
  - destruct (at_start (c :: pre ++ suf)); eauto.
Qed.

Lemma expect_split p s r : expect p s = Some r → s = p ++ r.
Proof.
  revert s. induction p as [|a p IH]; intros s; simpl.
  - by intros [= ->].
  - destruct s as [|b s]; [done|].
    destruct (N.eqb_spec a b) as [->|]; [|done]. intros H. by rewrite (IH _ H).
Qed.

Lemma expect_same p r : expect p (p ++ r) = Some r.
Proof.
  induction p as [|a p IH]; simpl; [by destruct r|]. by rewrite N.eqb_refl.
Qed.

Lemma span_exact p n rest :
  Forall (λ c, p c = true) n →
  from_option p false (head rest) = false →
  span p (n ++ rest) = (n, rest).
Proof.
  intros Hn Hrest. induction Hn as [|c n Hc _ IH]; simpl.
  - destruct rest as [|c rest]; [done|]. simpl in *. by rewrite Hrest.
  - by rewrite Hc, IH.
Qed.

Lemma numberedAt_inv letters s n :
  numberedAt letters s = Some n →
  n ≠ [] ∧ AllDigits n
  ∧ ∃ h post, (h = [] ∨ h = hyphen) ∧ s = n ++ h ++ letters ++ post.
Proof.
  unfold numberedAt.
  pose proof (span_app isDigit s) as Hs. pose proof (span_all isDigit s) as Hd.
  destruct (span isDigit s) as [digits rest]. simpl in Hs, Hd.
  case_bool_decide as Hne; [done|].
  destruct (expect letters _) as [post|] eqn:Hexp; [|done]. intros [= <-].
  split; [done|]. split; [done|].
  apply expect_split in Hexp.
  destruct rest as [|c r].
  { exists [], post. split; [by left|]. rewrite Hs. simpl. by rewrite <- Hexp. }
  destruct (N.eqb_spec c 45) as [->|].
  - exists hyphen, post. split; [by right|]. rewrite Hs. simpl. by rewrite Hexp.
  - exists [], post. split; [by left|]. rewrite Hs. simpl. by rewrite <- Hexp.
Qed.

Lemma numberedAt_found letters n h post l0 :
  n ≠ [] → AllDigits n → (h = [] ∨ h = hyphen) →
  head letters = Some l0 → isDigit l0 = false → l0 ≠ 45 →
  numberedAt letters (n ++ h ++ letters ++ post) = Some n.
Proof.
  intros Hne Hd Hh Hl0 Hnd Hnh. unfold numberedAt.
  destruct letters as [|l letters]; [done|]. injection Hl0 as ->.
  rewrite (span_exact isDigit n).
  - rewrite bool_decide_eq_false_2 by done.
    destruct Hh as [->| ->]; unfold hyphen; cbn [app].
    + rewrite (proj2 (N.eqb_neq l0 45)) by done.
      pose proof (expect_same (l0 :: letters) post) as He.
      cbn [app] in He. by rewrite He.
    + rewrite N.eqb_refl.
      pose proof (expect_same (l0 :: letters) post) as He.
      cbn [app] in He. by rewrite He.
  - done.
  - destruct Hh as [->| ->]; unfold hyphen; cbn [app head from_option]; done.
Qed.

(** X29: whenever [extractMetadata] sets an identifier, the text of the
    body holds a run of digits followed, with or without a hyphen, by ФЗ or
    by ФКЗ; the identifier is that run, a hyphen and those letters, and
    the law type says which letters they are.  Identifier and law type are
    set together.  A body that holds a run of digits followed by ФКЗ
    anywhere makes the law a federal constitutional law, also when a number
    with ФЗ stands before it. *)
Theorem metadata_identifier_and_type d :
  let m := extractMetadata d in
  let text := allText d (js "body") in
  (∀ i, meta_identifier m = Some i →
     ∃ n letters pre h post,
       n ≠ [] ∧ AllDigits n ∧ (h = [] ∨ h = hyphen)
       ∧ text = pre ++ n ++ h ++ letters ++ post
       ∧ i = n ++ hyphen ++ letters
       ∧ ((letters = js "ФКЗ"
           ∧ meta_lawType m = Some (js "federal_constitutional_law"))
          ∨ (letters = js "ФЗ" ∧ meta_lawType m = Some (js "federal_law"))))
  ∧ (meta_identifier m = None ↔ meta_lawType m = None)
  ∧ (∀ pre n h post,
       n ≠ [] → AllDigits n → (h = [] ∨ h = hyphen) →
       text = pre ++ n ++ h ++ js "ФКЗ" ++ post →
       meta_lawType m = Some (js "federal_constitutional_law")).
Proof.
  cbv zeta. unfold extractMetadata. cbn [meta_identifier meta_lawType].
  set (text := allText d (js "body")).
  split; [|split].
  - intros i Hi.
    destruct (search (numberedAt (js "ФКЗ")) text) as [n|] eqn:Hfkz.
    + injection Hi as <-.
      apply search_found in Hfkz as (pre & suf & Htext & Hat).
      apply numberedAt_inv in Hat as (Hne & Hd & h & post & Hh & ->).
      exists n, (js "ФКЗ"), pre, h, post. repeat split; try done. by left.
    + destruct (search (numberedAt (js "ФЗ")) text) as [n|] eqn:Hfz; [|done].
      injection Hi as <-.
      apply search_found in Hfz as (pre & suf & Htext & Hat).
      apply numberedAt_inv in Hat as (Hne & Hd & h & post & Hh & ->).
      exists n, (js "ФЗ"), pre, h, post. repeat split; try done. by right.
  - destruct (search (numberedAt (js "ФКЗ")) text); [done|].
    by destruct (search (numberedAt (js "ФЗ")) text).
  - intros pre n h post Hne Hd Hh Htext.
    destruct (search_app (numberedAt (js "ФКЗ")) pre (n ++ h ++ js "ФКЗ" ++ post))
      as [r Hr].
    { rewrite (numberedAt_found (js "ФКЗ") n h post 0x424); done. }
    rewrite <- Htext in Hr. by rewrite Hr.
Qed.

Lemma oneOrTwoDigits_inv s ds r :
  oneOrTwoDigits s = Some (ds, r) →
  AllDigits ds ∧ (length ds = 1 ∨ length ds = 2)%nat.
Proof.
  unfold oneOrTwoDigits, AllDigits.
  destruct s as [|a [|b s]]; try done;
    destruct (isDigit a) eqn:Ha; try done;
    try destruct (isDigit b) eqn:Hb; intros [= <- <-];
    (split; [repeat constructor; done|auto]).
Qed.

Lemma fourDigits_inv s ds :
  fourDigits s = Some ds → AllDigits ds ∧ length ds = 4%nat.
Proof.
  unfold fourDigits, AllDigits.
  destruct s as [|a [|b [|c [|e s]]]]; try done.
  destruct (isDigit a) eqn:Ha, (isDigit b) eqn:Hb, (isDigit c) eqn:Hc,
    (isDigit e) eqn:He; try done.
  intros [= <-]. split; [repeat constructor; done|done].
Qed.

Lemma padStart2_digits ds :
  AllDigits ds → (length ds = 1 ∨ length ds = 2)%nat →
  AllDigits (padStart2 ds) ∧ length (padStart2 ds) = 2%nat.
Proof.
  unfold padStart2, AllDigits. intros Hd [Hl|Hl]; rewrite Hl; simpl.
  - split; [by constructor|]. simpl. lia.
  - done.
Qed.

(** X30: an effective date that [extractMetadata] sets has ten characters:
    four digits, a hyphen, two digits, a hyphen and two digits. *)
Theorem metadata_date_format d date :
  meta_effectiveDate (extractMetadata d) = Some date →
  ∃ year month day,
    date = year ++ hyphen ++ month ++ hyphen ++ day
    ∧ length year = 4%nat ∧ length month = 2%nat ∧ length day = 2%nat
    ∧ AllDigits year ∧ AllDigits month ∧ AllDigits day.
Proof.
  unfold extractMetadata. cbn [meta_effectiveDate].
  destruct (search dateAt (allText d (js "body"))) as [[[day month] year]|] eqn:Hs;
    [|done].
  intros [= <-].
  apply search_found in Hs as (pre & suf & _ & Hat).
  unfold dateAt in Hat.
  destruct (expect (js "от") suf) as [r0|]; [|done].
  destruct (span isWhiteSpace r0) as [ws r1].
  case_bool_decide; [done|].
  destruct (oneOrTwoDigits r1) as [[day' r2]|] eqn:Hday; [|done].
  destruct (expect [DOT] r2) as [r3|]; [|done].
  destruct (oneOrTwoDigits r3) as [[month' r4]|] eqn:Hmonth; [|done].
  destruct (expect [DOT] r4) as [r5|]; [|done].
  destruct (fourDigits r5) as [year'|] eqn:Hyear; [|done].
  injection Hat as -> -> ->.
  apply oneOrTwoDigits_inv in Hday as [Hd1 Hd2].
  apply oneOrTwoDigits_inv in Hmonth as [Hm1 Hm2].
  apply fourDigits_inv in Hyear as [Hy1 Hy2].
  destruct (padStart2_digits _ Hd1 Hd2) as [? ?].
  destruct (padStart2_digits _ Hm1 Hm2) as [? ?].
  by exists year, (padStart2 month), (padStart2 day).
Qed.

Lemma metadata_date_format_witness :
  ∃ year month day,
    js "2006-07-27" = year ++ hyphen ++ month ++ hyphen ++ day
    ∧ length year = 4%nat ∧ length month = 2%nat ∧ length day = 2%nat
    ∧ AllDigits year ∧ AllDigits month ∧ AllDigits day.
Proof.
  apply (metadata_date_format lawPage). vm_compute. reflexivity.
Defined.

End PageExtras.
